(** * Immer: the produce / finalize engine of [src/immer.js]

    A shallow embedding of the [Immer] class: [produce], [createDraft],
    [finishDraft], [processResult], [finalize] and [finalizeTree], over an
    explicit JavaScript heap.  Objects, arrays and drafts are heap cells
    addressed by reference, so that [===] on objects is equality of
    addresses and the in-place updates of the source ([parent[prop] = value],
    [state.finalized = true], [scope.canAutoFreeze = false]) are updates of
    the heap.

    The file models the accessor (Proxy) back-end, [useProxies = true]: the
    legacy back-end of [./es5] is not part of the modelled code.  The
    modules [./scope], [./proxy], [./patches] and [./common] are imported by
    [immer.js] but are not part of the verified source; their functions are
    modelled from the specification and marked as such. *)

From stdpp Require Import gmap strings list.
From Stdlib Require Import ZArith.

Set Default Proof Using "Type".

(** ** Values *)

Definition addr := nat.
Definition scope_id := nat.

(** Property keys: names and array indices. *)
Inductive key :=
  | KStr (s : string)
  | KIdx (i : nat).

#[global] Instance key_eq_dec : EqDecision key.
Proof. solve_decision. Defined.

(** Numbers, as far as [===] and [Object.is] tell them apart: [NaN] is not
    [===] to itself, and [-0 === 0]. *)
Inductive num :=
  | NaN
  | NegZero
  | Fin (z : Z).

#[global] Instance num_eq_dec : EqDecision num.
Proof. solve_decision. Defined.

Inductive value :=
  | VUndefined
  | VNull
  | VBool (b : bool)
  | VNumber (n : num)
  | VString (s : string)
  | VNothing                (* the NOTHING sentinel of ./common *)
  | VObj (a : addr).        (* objects, arrays and drafts, by reference *)

#[global] Instance value_eq_dec : EqDecision value.
Proof. solve_decision. Defined.

(** [x === y] *)
Definition strict_eq (x y : value) : bool :=
  match x, y with
  | VNumber NaN, _ | _, VNumber NaN => false
  | VNumber NegZero, VNumber (Fin 0) | VNumber (Fin 0), VNumber NegZero => true
  | _, _ => bool_decide (x = y)
  end.

(** Modelled from the spec: [is] of ./common, the identity/NaN-equal
    comparison of section 4.1: NaN equals itself, positive and negative zero
    are distinct.  ([is] is reserved in Rocq, hence the underscore.) *)
Definition is_ (x y : value) : bool := bool_decide (x = y).

(** ** Patches *)

Inductive patch_op := Add | Replace | Remove.

Record patch := Patch {
  op : patch_op;
  path : list key;
  pvalue : option value
}.

(** ** Heap cells *)

Inductive kind := Sequence | Mapping.

#[global] Instance kind_eq_dec : EqDecision kind.
Proof. solve_decision. Defined.

(** What [isDraftable] sees of an object: an array, a plain object, or
    anything else (class instances, dates, functions), which is opaque. *)
Inductive class := CArray | CPlain | COpaque.

#[global] Instance class_eq_dec : EqDecision class.
Proof. solve_decision. Defined.

Record property := Prop_ {
  p_value : value;
  p_enumerable : bool
}.

Record object := Object {
  o_class : class;
  o_props : list (key * property);
  o_frozen : bool
}.

(** The bookkeeping record behind a draft ([draft[DRAFT_STATE]]). *)
Record DraftState := State {
  st_scope : scope_id;
  st_modified : bool;
  st_finalized : bool;
  st_assigned : list (key * bool);
  st_parent : option addr;
  st_base : value;
  st_draft : addr;
  st_drafts : list (key * value);
  st_copy : option addr;
  st_kind : kind;
  st_revoked : bool;
  st_customDraft : bool
}.

(** A draft and its state are one cell: the address is both the handle
    handed to the recipe and the reference [state] used inside the engine.
    Reaching the state through the handle fails once the draft is revoked;
    the engine's own reference does not. *)
Inductive cell :=
  | CObj (o : object)
  | CDraft (s : DraftState).

Record Scope := MkScope {
  drafts : list addr;
  parent : option scope_id;
  canAutoFreeze : bool;
  patches : option (list patch);
  inversePatches : option (list patch);
  patchListener : option nat
}.

(** Calls of the configured hooks and of the patch listener are observable
    events; they are recorded in order. *)
Inductive event :=
  | OnAssign (state : addr) (prop : key) (v : value)
  | OnDelete (state : addr) (prop : key)
  | OnCopy (state : addr)
  | PatchListener (listener : nat) (ps inv : list patch).

Record Heap := MkHeap {
  cells : gmap addr cell;
  next_addr : addr;
  scopes : gmap scope_id Scope;
  next_scope : scope_id;
  current : option scope_id;          (* ImmerScope.current *)
  events : list event
}.

(** ** Errors and the computation monad *)

Inductive error :=
  | RecipeError (tag : nat)        (* whatever a recipe throws or rejects with *)
  | TypeError (msg : string)       (* raised by the host: revoked draft, frozen target, ... *)
  | NotDraftable                   (* "First argument to createDraft should be a plain object, ..." *)
  | NotADraft                      (* "First argument to finishDraft should be an object from createDraft." *)
  | NotCustomDraft                 (* "The draft provided was not created using `createDraft`" *)
  | AlreadyFinished                (* "The draft provided was has already been finished" *)
  | DoubleReturn                   (* "An immer producer returned a new value *and* modified its draft. ..." *)
  | CircularReference.             (* "Immer forbids circular references" *)

Inductive outcome (A : Type) :=
  | Ok (a : A)
  | Throw (e : error)
  | OutOfFuel.
Arguments Ok {A} a.
Arguments Throw {A} e.
Arguments OutOfFuel {A}.

Definition M (A : Type) : Type := Heap → outcome A * Heap.

Definition ret {A} (a : A) : M A := λ h, (Ok a, h).
Definition throw {A} (e : error) : M A := λ h, (Throw e, h).
Definition out_of_fuel {A} : M A := λ h, (OutOfFuel, h).
Definition bind {A B} (m : M A) (k : A → M B) : M B :=
  λ h, match m h with
       | (Ok a, h') => k a h'
       | (Throw e, h') => (Throw e, h')
       | (OutOfFuel, h') => (OutOfFuel, h')
       end.

Notation "'let*' x ':=' m 'in' k" := (bind m (λ x, k))
  (at level 20, x pattern, m at level 100, k at level 200).
Notation "m '>>' k" := (bind m (λ _, k))
  (at level 20, k at level 200).

Definition get_heap : M Heap := λ h, (Ok h, h).
Definition modify_heap (f : Heap → Heap) : M unit := λ h, (Ok tt, f h).
Definition when (b : bool) (m : M unit) : M unit := if b then m else ret tt.

(** [for (x of l) body(x)] *)
Fixpoint for_each {A} (l : list A) (body : A → M unit) : M unit :=
  match l with
  | [] => ret tt
  | x :: l' => body x >> for_each l' body
  end.

(** ** Heap updates *)

Definition set_cells (f : gmap addr cell → gmap addr cell) (h : Heap) : Heap :=
  MkHeap (f (cells h)) (next_addr h) (scopes h) (next_scope h) (current h) (events h).
Definition set_scopes (f : gmap scope_id Scope → gmap scope_id Scope) (h : Heap) : Heap :=
  MkHeap (cells h) (next_addr h) (f (scopes h)) (next_scope h) (current h) (events h).
Definition set_current (c : option scope_id) (h : Heap) : Heap :=
  MkHeap (cells h) (next_addr h) (scopes h) (next_scope h) c (events h).
Definition log_event (e : event) (h : Heap) : Heap :=
  MkHeap (cells h) (next_addr h) (scopes h) (next_scope h) (current h) (events h ++ [e]).

Definition alloc (c : cell) : M addr :=
  λ h, (Ok (next_addr h),
        MkHeap (<[next_addr h := c]> (cells h)) (S (next_addr h))
               (scopes h) (next_scope h) (current h) (events h)).

Definition emit (e : event) : M unit := modify_heap (log_event e).

(** ** Property lists

    The own properties of an object, in the order [Reflect.ownKeys] lists
    them: index keys first, in ascending order, then names in the order of
    their creation. *)

Definition key_before (k k' : key) : bool :=
  match k, k' with
  | KIdx i, KIdx j => bool_decide (i < j)
  | KIdx _, KStr _ => true
  | KStr _, _ => false
  end.

Fixpoint alist_get {A} (k : key) (l : list (key * A)) : option A :=
  match l with
  | [] => None
  | (k', a) :: l' => if decide (k = k') then Some a else alist_get k l'
  end.

Fixpoint alist_set {A} (k : key) (a : A) (l : list (key * A)) : list (key * A) :=
  match l with
  | [] => [(k, a)]
  | (k', a') :: l' =>
      if decide (k = k') then (k, a) :: l'
      else if key_before k k' then (k, a) :: l
      else (k', a') :: alist_set k a l'
  end.

Definition alist_delete {A} (k : key) (l : list (key * A)) : list (key * A) :=
  filter (λ e, e.1 ≠ k) l.

Definition alist_keys {A} (l : list (key * A)) : list key := l.*1.

(** [obj[prop]] on a plain object: the value, or [undefined]. *)
Definition prop_value (k : key) (o : object) : value :=
  match alist_get k (o_props o) with
  | Some p => p_value p
  | None => VUndefined
  end.

(** Writing a value keeps the attributes of an existing property; a new
    property gets the enumerability given. *)
Definition write_prop (k : key) (v : value) (enum : bool) (o : object) : object :=
  let e := match alist_get k (o_props o) with
           | Some p => p_enumerable p
           | None => enum
           end in
  Object (o_class o) (alist_set k (Prop_ v e) (o_props o)) (o_frozen o).

Definition remove_prop (k : key) (o : object) : object :=
  Object (o_class o) (alist_delete k (o_props o)) (o_frozen o).

Definition is_index (k : key) : bool :=
  match k with KIdx _ => true | KStr _ => false end.

(** The length of a (dense) array: the number of its index properties. *)
Definition array_length (o : object) : nat :=
  length (List.filter (λ e, is_index e.1) (o_props o)).

(** The keys [each] of ./common walks: [0 .. length-1] for an array,
    [ownKeys] for any other object. *)
Definition each_keys (o : object) : list key :=
  match o_class o with
  | CArray => KIdx <$> seq 0 (array_length o)
  | _ => alist_keys (o_props o)
  end.

(** ** Reading and writing cells *)

Definition dangling : error := TypeError "dangling reference".
Definition not_an_object : error := TypeError "not an object".
Definition revoked_proxy : error :=
  TypeError "Cannot perform 'get' on a proxy that has been revoked".
Definition frozen_target : error :=
  TypeError "Cannot assign to read only property of object".

Definition get_cell (a : addr) : M cell :=
  λ h, match cells h !! a with
       | Some c => (Ok c, h)
       | None => (Throw dangling, h)
       end.

Definition get_object (a : addr) : M object :=
  let* c := get_cell a in
  match c with
  | CObj o => ret o
  | CDraft _ => throw not_an_object
  end.

(** The engine's own reference to a state record: no revocation check. *)
Definition get_state (s : addr) : M DraftState :=
  let* c := get_cell s in
  match c with
  | CDraft st => ret st
  | CObj _ => throw not_an_object
  end.

Definition put_cell (a : addr) (c : cell) : M unit :=
  modify_heap (set_cells <[a := c]>).

Definition update_state (s : addr) (f : DraftState → DraftState) : M unit :=
  let* st := get_state s in put_cell s (CDraft (f st)).

Definition get_scope (sc : scope_id) : M Scope :=
  λ h, match scopes h !! sc with
       | Some s => (Ok s, h)
       | None => (Throw dangling, h)
       end.

Definition update_scope (sc : scope_id) (f : Scope → Scope) : M unit :=
  let* s := get_scope sc in modify_heap (set_scopes <[sc := f s]>).

(** Modelled from the spec: [value[DRAFT_STATE]], the state behind a draft
    handle ("in 1:1 correspondence with a DraftState", section 3),
    [undefined] (here [None]) for every other value.  A draft is "not usable
    once its scope is revoked": going through a revoked handle raises a
    TypeError, as does going through [undefined] or [null]. *)
Definition draft_state (v : value) : M (option addr) :=
  match v with
  | VUndefined | VNull => throw (TypeError "Cannot read properties of undefined")
  | VObj a =>
      let* c := get_cell a in
      match c with
      | CObj _ => ret None
      | CDraft st => if st_revoked st then throw revoked_proxy else ret (Some a)
      end
  | _ => ret None
  end.

(** JavaScript truthiness, for [!!value]. *)
Definition truthy (v : value) : bool :=
  match v with
  | VUndefined | VNull | VBool false | VNumber NaN | VNumber NegZero
  | VNumber (Fin 0) | VString "" => false
  | _ => true
  end.

(** Modelled from the spec: [isDraft] of ./common, "a Draft is an externally
    visible handle in 1:1 correspondence with a DraftState":
    [!!value && !!value[DRAFT_STATE]]. *)
Definition isDraft (v : value) : M bool :=
  if truthy v then
    let* s := draft_state v in ret (bool_decide (is_Some s))
  else ret false.

(** Modelled from the spec: [isDraftable] of ./common, the classification of
    section 4.1 into Sequence, Mapping or Opaque; a value is draftable unless
    it is opaque.  Scalars and the NOTHING sentinel are opaque; a draft has
    the kind of the value it was made for, and asking a revoked draft
    fails. *)
Definition isDraftable (v : value) : M bool :=
  match v with
  | VObj a =>
      let* c := get_cell a in
      match c with
      | CObj o => ret (bool_decide (o_class o ≠ COpaque))
      | CDraft st => if st_revoked st then throw revoked_proxy else ret true
      end
  | _ => ret false
  end.

(** [Array.isArray(value)] *)
Definition isArray (v : value) : M bool :=
  match v with
  | VObj a =>
      let* c := get_cell a in
      match c with
      | CObj o => ret (bool_decide (o_class o = CArray))
      | CDraft st =>
          if st_revoked st then throw revoked_proxy
          else ret (bool_decide (st_kind st = Sequence))
      end
  | _ => ret false
  end.

(** [Object.isFrozen(value)]: true of every scalar; a draft handle is never
    frozen. *)
Definition isFrozen (v : value) : M bool :=
  match v with
  | VObj a =>
      let* c := get_cell a in
      match c with
      | CObj o => ret (o_frozen o)
      | CDraft st => if st_revoked st then throw revoked_proxy else ret false
      end
  | _ => ret true
  end.

(** Modelled from the spec: [isEnumerable] of ./common, used to "assign into
    copy/parent preserving enumerability" (section 4.3): whether [prop] is an
    own enumerable property of the plain object [parent]. *)
Definition isEnumerable (parent : addr) (prop : key) : M bool :=
  let* o := get_object parent in
  ret (match alist_get prop (o_props o) with
       | Some p => p_enumerable p
       | None => false
       end).

(** [parent[prop] = value] on a plain object or array, in strict mode:
    writing to a frozen object raises a TypeError. *)
Definition assign_prop (parent : addr) (prop : key) (v : value) : M unit :=
  let* o := get_object parent in
  if o_frozen o then throw frozen_target
  else put_cell parent (CObj (write_prop prop v true o)).

(** [Object.defineProperty(parent, prop, {value})]: as above, but a property
    that does not exist yet is created non-enumerable. *)
Definition defineProperty (parent : addr) (prop : key) (v : value) : M unit :=
  let* o := get_object parent in
  if o_frozen o then throw frozen_target
  else put_cell parent (CObj (write_prop prop v false o)).

(** [delete obj[prop]] on a plain object. *)
Definition delete_prop (parent : addr) (prop : key) : M unit :=
  let* o := get_object parent in
  if o_frozen o then throw frozen_target
  else put_cell parent (CObj (remove_prop prop o)).

(** [Object.freeze(obj)] *)
Definition freeze (a : addr) : M unit :=
  let* o := get_object a in
  put_cell a (CObj (Object (o_class o) (o_props o) true)).

(** Modelled from the spec: [each] of ./common, the enumeration the
    finalizer uses to "recursively resolve every property" (section 4.3).
    The keys are fixed when the walk starts; each value is read when its
    turn comes, and the callback gets [(key, value, object)]. *)
Definition each (v : value) (cb : key → value → addr → M unit) : M unit :=
  match v with
  | VObj a =>
      let* o := get_object a in
      for_each (each_keys o)
        (λ k, let* o' := get_object a in cb k (prop_value k o') a)
  | _ => throw not_an_object
  end.

(** ** Record updates *)

Definition st_set_modified (b : bool) (c : option addr) (st : DraftState) : DraftState :=
  State (st_scope st) b (st_finalized st) (st_assigned st) (st_parent st)
        (st_base st) (st_draft st) (st_drafts st) c (st_kind st)
        (st_revoked st) (st_customDraft st).
Definition st_set_finalized (b : bool) (st : DraftState) : DraftState :=
  State (st_scope st) (st_modified st) b (st_assigned st) (st_parent st)
        (st_base st) (st_draft st) (st_drafts st) (st_copy st) (st_kind st)
        (st_revoked st) (st_customDraft st).
Definition st_set_assigned (k : key) (b : bool) (st : DraftState) : DraftState :=
  State (st_scope st) (st_modified st) (st_finalized st)
        (alist_set k b (st_assigned st)) (st_parent st)
        (st_base st) (st_draft st) (alist_delete k (st_drafts st)) (st_copy st)
        (st_kind st) (st_revoked st) (st_customDraft st).
Definition st_set_cached (k : key) (d : value) (st : DraftState) : DraftState :=
  State (st_scope st) (st_modified st) (st_finalized st) (st_assigned st)
        (st_parent st) (st_base st) (st_draft st) (alist_set k d (st_drafts st))
        (st_copy st) (st_kind st) (st_revoked st) (st_customDraft st).
Definition st_set_revoked (b : bool) (st : DraftState) : DraftState :=
  State (st_scope st) (st_modified st) (st_finalized st) (st_assigned st)
        (st_parent st) (st_base st) (st_draft st) (st_drafts st) (st_copy st)
        (st_kind st) b (st_customDraft st).
Definition st_set_customDraft (b : bool) (st : DraftState) : DraftState :=
  State (st_scope st) (st_modified st) (st_finalized st) (st_assigned st)
        (st_parent st) (st_base st) (st_draft st) (st_drafts st) (st_copy st)
        (st_kind st) (st_revoked st) b.

Definition sc_push_draft (d : addr) (s : Scope) : Scope :=
  MkScope (drafts s ++ [d]) (parent s) (canAutoFreeze s) (patches s)
          (inversePatches s) (patchListener s).
Definition sc_set_canAutoFreeze (b : bool) (s : Scope) : Scope :=
  MkScope (drafts s) (parent s) b (patches s) (inversePatches s) (patchListener s).
Definition sc_use_patches (l : nat) (s : Scope) : Scope :=
  MkScope (drafts s) (parent s) (canAutoFreeze s) (Some []) (Some []) (Some l).
Definition sc_push_patch (p inv : patch) (s : Scope) : Scope :=
  MkScope (drafts s) (parent s) (canAutoFreeze s)
          ((λ ps, ps ++ [p]) <$> patches s)
          ((λ ps, ps ++ [inv]) <$> inversePatches s) (patchListener s).

(** ** ScopeManager *)

Module ImmerScope.

(** Modelled from the spec: [ImmerScope.enter] of ./scope, section 4.2:
    "pushes a new Scope as the current one; records parent for nesting".  A
    new scope owns no draft, records no patches and may auto-freeze. *)
Definition enter : M scope_id :=
  λ h, let sc := next_scope h in
       (Ok sc,
        MkHeap (cells h) (next_addr h)
               (<[sc := MkScope [] (current h) true None None None]> (scopes h))
               (S sc) (Some sc) (events h)).

(** Modelled from the spec: [scope.leave] of ./scope, section 4.2: "pops it
    back to parent without invalidating drafts". *)
Definition leave_heap (sc : scope_id) (h : Heap) : Heap :=
  match scopes h !! sc with
  | Some s => if decide (current h = Some sc) then set_current (parent s) h else h
  | None => h
  end.
Definition leave (sc : scope_id) : M unit := modify_heap (leave_heap sc).

Definition revoke_cell (c : cell) : cell :=
  match c with
  | CDraft st => CDraft (st_set_revoked true st)
  | CObj o => CObj o
  end.

(** Modelled from the spec: [scope.revoke] of ./scope, section 4.2:
    "invalidates every draft owned by scope"; the scope stops being the
    current one. *)
Definition revoke_heap (sc : scope_id) (h : Heap) : Heap :=
  let h' := leave_heap sc h in
  match scopes h' !! sc with
  | Some s => set_cells (λ cs, foldr (alter revoke_cell) cs (drafts s)) h'
  | None => h'
  end.
Definition revoke (sc : scope_id) : M unit := modify_heap (revoke_heap sc).

(** Modelled from the spec: [scope.usePatches] of ./scope, section 4.2
    (attachPatchRecording): "installs empty accumulators on the scope if the
    caller requested patches". *)
Definition usePatches_heap (sc : scope_id) (listener : option nat) (h : Heap) : Heap :=
  match listener with
  | Some l => set_scopes (alter (sc_use_patches l) sc) h
  | None => h
  end.
Definition usePatches (sc : scope_id) (listener : option nat) : M unit :=
  modify_heap (usePatches_heap sc listener).

End ImmerScope.

(** ** DraftFactory *)

(** Modelled from the spec: [createProxy] of ./proxy, sections 3 and 4.1: a
    fresh DraftState for [base], unmodified, not finalized, without copy,
    with nothing assigned and nothing cached, owned by the scope of its
    parent (the current scope for a root draft), classified once as Sequence
    or Mapping, and appended to the ordered draft list of its scope
    ("index 0 = root"). *)
Definition createProxy (base : value) (parent : option addr) : M value :=
  let* sc := match parent with
             | Some p => let* st := get_state p in ret (st_scope st)
             | None => let* h := get_heap in
                       match current h with
                       | Some sc => ret sc
                       | None => throw (TypeError "no current scope")
                       end
             end in
  let* arr := isArray base in
  let* h := get_heap in
  let d := next_addr h in
  let* _ := alloc (CDraft (State sc false false [] parent base d [] None
                                 (if arr then Sequence else Mapping) false false)) in
  update_scope sc (sc_push_draft d) >>
  ret (VObj d).

(** Modelled from the spec: the [read] accessor of section 4.1.  "If a
    cached child draft exists for key, return it.  Else fetch the current
    value (from copy if present, else base); if draftable, not frozen, and
    not the parent itself, create a child DraftState + draft, cache it,
    return the draft; otherwise return the raw value."  A child created
    after the copy exists is stored in the copy too, where the finalizer
    looks for it.  [get] reads a property of the base, which may itself be
    a draft of an enclosing update. *)
Definition read_with (get : value → key → M value) (s : addr) (k : key) : M value :=
  let* st := get_state s in
  match alist_get k (st_drafts st) with
  | Some d => ret d
  | None =>
      let* v := match st_copy st with
                | Some c => let* o := get_object c in ret (prop_value k o)
                | None => get (st_base st) k
                end in
      let* draftable := isDraftable v in
      let* frozen := isFrozen v in
      if draftable && negb frozen && negb (strict_eq v (VObj (st_draft st))) then
        let* d := createProxy v (Some s) in
        update_state s (st_set_cached k d) >>
        match st_copy st with
        | Some c => assign_prop c k d
        | None => ret tt
        end >>
        ret d
      else ret v
  end.

(** [obj[prop]]: a property of a plain object, or the [read] accessor when
    [obj] is a draft handle. *)
Fixpoint get_prop (fuel : nat) (v : value) (k : key) : M value :=
  match v with
  | VUndefined | VNull => throw (TypeError "Cannot read properties of undefined")
  | VObj a =>
      let* c := get_cell a in
      match c with
      | CObj o => ret (prop_value k o)
      | CDraft st =>
          if st_revoked st then throw revoked_proxy
          else match fuel with
               | 0 => out_of_fuel
               | S f => read_with (get_prop f) a k
               end
      end
  | _ => ret VUndefined
  end.

Definition read (fuel : nat) (s : addr) (k : key) : M value :=
  read_with (get_prop fuel) s k.

(** [for (x of l) ys.push(f(x))] *)
Fixpoint map_each {A B} (l : list A) (f : A → M B) : M (list B) :=
  match l with
  | [] => ret []
  | x :: l' => let* y := f x in let* ys := map_each l' f in ret (y :: ys)
  end.

(** The class and the own properties of an object as a shallow copy sees
    them; through a draft handle these are the properties of its source
    (copy if present, else base), each read with the [read] accessor. *)
Fixpoint describe (fuel : nat) (v : value) : M (class * list (key * property)) :=
  match v with
  | VObj a =>
      let* c := get_cell a in
      match c with
      | CObj o => ret (o_class o, o_props o)
      | CDraft st =>
          if st_revoked st then throw revoked_proxy
          else match fuel with
               | 0 => out_of_fuel
               | S f =>
                   let* src := match st_copy st with
                               | Some c => let* o := get_object c in
                                           ret (o_class o, o_props o)
                               | None => describe f (st_base st)
                               end in
                   let* ps := map_each src.2
                                (λ e, let* x := read f a e.1 in
                                      ret (e.1, Prop_ x (p_enumerable e.2))) in
                   ret (src.1, ps)
               end
      end
  | _ => throw not_an_object
  end.

(** Modelled from the spec: [shallowCopy] of ./common, the "shallow clone of
    the current source" of section 4.1: a new, unfrozen object with the
    class and the own properties of [base]. *)
Definition shallowCopy (fuel : nat) (base : value) : M addr :=
  let* d := describe fuel base in
  alloc (CObj (Object d.1 d.2 false)).

(** Modelled from the spec: the copy-on-write trigger of section 4.1: "if
    copy is absent, create it as a shallow clone of the current source; set
    modified = true".  The children cached so far are part of the current
    source.  The ancestors of the state are marked the same way: a change
    below a node gives a new node, as Scenario A of section 8 requires. *)
Fixpoint markChanged (fuel : nat) (s : addr) : M unit :=
  let* st := get_state s in
  if st_modified st then ret tt
  else
    let* c := shallowCopy fuel (st_base st) in
    for_each (st_drafts st) (λ e, assign_prop c e.1 e.2) >>
    update_state s (st_set_modified true (Some c)) >>
    match st_parent st with
    | Some p => match fuel with
                | 0 => out_of_fuel
                | S f => markChanged f p
                end
    | None => ret tt
    end.

(** Modelled from the spec: the [write] accessor of section 4.1.  Writing a
    value identity/NaN-equal to the current value at the key (in the copy if
    present, else in the base) is a no-op.  "Otherwise: if copy is absent,
    create it ...; set modified = true; write into copy; set
    assigned[key] = true."  The child cached for the key, if any, is
    dropped. *)
Definition write (fuel : nat) (s : addr) (k : key) (v : value) : M unit :=
  let* st := get_state s in
  let* old := match st_copy st with
              | Some c => let* o := get_object c in ret (prop_value k o)
              | None => get_prop fuel (st_base st) k
              end in
  if is_ old v then ret tt
  else
    markChanged fuel s >>
    let* st' := get_state s in
    match st_copy st' with
    | Some c => assign_prop c k v
    | None => throw not_an_object
    end >>
    update_state s (st_set_assigned k true).

(** Modelled from the spec: the [delete] accessor of section 4.1: "as write,
    but removes the key from copy and sets assigned[key] = false". *)
Definition delete_ (fuel : nat) (s : addr) (k : key) : M unit :=
  markChanged fuel s >>
  let* st' := get_state s in
  match st_copy st' with
  | Some c => delete_prop c k
  | None => throw not_an_object
  end >>
  update_state s (st_set_assigned k false).

(** [obj[prop] = value] as a recipe writes it: the [write] accessor on a
    draft handle, a plain assignment on any other object. *)
Definition set_prop (fuel : nat) (v : value) (k : key) (x : value) : M unit :=
  match v with
  | VObj a =>
      let* c := get_cell a in
      match c with
      | CObj _ => assign_prop a k x
      | CDraft st => if st_revoked st then throw revoked_proxy else write fuel a k x
      end
  | _ => throw not_an_object
  end.

(** [delete obj[prop]] as a recipe writes it. *)
Definition del_prop (fuel : nat) (v : value) (k : key) : M unit :=
  match v with
  | VObj a =>
      let* c := get_cell a in
      match c with
      | CObj _ => delete_prop a k
      | CDraft st => if st_revoked st then throw revoked_proxy else delete_ fuel a k
      end
  | _ => throw not_an_object
  end.

(** ** PatchEngine *)

(** The elements of an array, by index. *)
Definition elements_of (ps : list (key * property)) : list value :=
  (λ i, match alist_get (KIdx i) ps with
        | Some p => p_value p
        | None => VUndefined
        end) <$> seq 0 (length (List.filter (λ e, is_index e.1) ps)).

Definition push_patch (sc : scope_id) (p inv : patch) : M unit :=
  update_scope sc (sc_push_patch p inv).

(** Modelled from the spec: [generatePatches] of ./patches, section 4.4.
    Sequence: on a shrink, one [remove] at [basePath + [newLen]] with an
    inverse [add] restoring the removed tail; otherwise one [replace] (or
    [add] past the old length) per index whose element changed.  Mapping:
    one patch per key of [assigned], [add]/[replace] for an assigned key,
    [remove] for a deleted one; "keys absent from assigned are skipped". *)
Definition generatePatches (fuel : nat) (s : addr) (basePath : list key)
    (sc : scope_id) : M unit :=
  let* st := get_state s in
  let* old := describe fuel (st_base st) in
  let* new := match st_copy st with
              | Some c => let* o := get_object c in ret (o_props o)
              | None => throw not_an_object
              end in
  match st_kind st with
  | Sequence =>
      let olds := elements_of old.2 in
      let news := elements_of new in
      let oldLen := length olds in
      let newLen := length news in
      if bool_decide (newLen < oldLen) then
        let* tail := alloc (CObj (Object CArray
                       (imap (λ i x, (KIdx i, Prop_ x true)) (drop newLen olds))
                       false)) in
        push_patch sc (Patch Remove (basePath ++ [KIdx newLen]) None)
                      (Patch Add (basePath ++ [KIdx newLen]) (Some (VObj tail)))
      else
        for_each (seq 0 (oldLen `max` newLen))
          (λ i, let o := default VUndefined (olds !! i) in
                let n := default VUndefined (news !! i) in
                let p := basePath ++ [KIdx i] in
                if is_ o n then ret tt
                else if bool_decide (i < oldLen)
                     then push_patch sc (Patch Replace p (Some n)) (Patch Replace p (Some o))
                     else push_patch sc (Patch Add p (Some n)) (Patch Remove p None))
  | Mapping =>
      for_each (st_assigned st)
        (λ e, let p := basePath ++ [e.1] in
              let o := alist_get e.1 old.2 in
              let n := match alist_get e.1 new with
                       | Some x => p_value x
                       | None => VUndefined
                       end in
              if e.2 then
                match o with
                | Some x => push_patch sc (Patch Replace p (Some n))
                                          (Patch Replace p (Some (p_value x)))
                | None => push_patch sc (Patch Add p (Some n)) (Patch Remove p None)
                end
              else
                push_patch sc (Patch Remove p None)
                              (Patch Add p (Some (match o with
                                                  | Some x => p_value x
                                                  | None => VUndefined
                                                  end))))
  end.

(** ** The Immer class *)

(** The configuration of an instance.  A hook is either absent ([null] in
    [configDefaults]) or installed; a call of an installed hook is recorded
    as an event. *)
Record Immer := MkImmer {
  autoFreeze : bool;
  onAssign : bool;
  onDelete : bool;
  onCopy : bool
}.

(** What a recipe, and so [produce], hands back: a value, or a promise, which
    is a computation that settles later, with a value or with an error. *)
Inductive returned :=
  | Value (v : value)
  | Promise (p : M value).

(** [try { body } finally { fin(hasError) }], with the flag the source sets
    after the body has completed. *)
Definition try_finally {A} (body : M A) (fin : bool → M unit) : M A :=
  λ h, match body h with
       | (Ok a, h') =>
           match fin false h' with
           | (Ok _, h'') => (Ok a, h'')
           | (Throw e, h'') => (Throw e, h'')
           | (OutOfFuel, h'') => (OutOfFuel, h'')
           end
       | (Throw e, h') =>
           match fin true h' with
           | (Ok _, h'') => (Throw e, h'')
           | (Throw e', h'') => (Throw e', h'')
           | (OutOfFuel, h'') => (OutOfFuel, h'')
           end
       | (OutOfFuel, h') => (OutOfFuel, h')
       end.

(** [promise.then(onFulfilled, onRejected)] *)
Definition then_ (p : M value) (onFulfilled : value → M value)
    (onRejected : error → M value) : M value :=
  λ h, match p h with
       | (Ok v, h') => onFulfilled v h'
       | (Throw e, h') => onRejected e h'
       | (OutOfFuel, h') => (OutOfFuel, h')
       end.

(** Modelled from the spec: [willFinalize] of ./proxy.  The accessor
    back-end tracks every change when it is made and has nothing to prepare
    before finalization. *)
Definition willFinalize (scope : scope_id) (result : value) (isReplaced : bool) : M unit :=
  ret tt.

Definition copy_value (st : DraftState) : value :=
  match st_copy st with
  | Some c => VObj c
  | None => VNull
  end.

(** [state.assigned[prop]], as a condition *)
Definition state_assigned (state : option addr) (prop : key) : M bool :=
  match state with
  | Some s => let* st := get_state s in
              ret (default false (alist_get prop (st_assigned st)))
  | None => throw (TypeError "Cannot read properties of undefined")
  end.

(** [state.base[prop]] *)
Definition state_base_prop (fuel : nat) (state : option addr) (prop : key) : M value :=
  match state with
  | Some s => let* st := get_state s in get_prop fuel (st_base st) prop
  | None => throw (TypeError "Cannot read properties of undefined")
  end.

Section Immer.

Variable this : Immer.

(** The closure [finalizeProperty] of [finalizeTree] (lines 232-276), with
    the variables it captures: [state], [root], [rootPath], [scope] and
    [needPatches].  [fin] is [this.finalize].  The result of the inner
    conditional is [None] where the source returns early, and the value to
    report to [onAssign] otherwise. *)
Fixpoint finalizeProperty (fin : value → option (list key) → scope_id → M value)
    (fuel : nat) (state : option addr) (root : value)
    (rootPath : option (list key)) (scope : scope_id) (needPatches : bool)
    (prop : key) (v : value) (parent : addr) {struct fuel} : M unit :=
  if strict_eq v (VObj parent) then throw CircularReference
  else
    (* In the finalizeTree method, only the root object may be a draft. *)
    let isDraftProp := bool_decide (is_Some state) && strict_eq (VObj parent) root in
    let* isd := isDraft v in
    let* r :=
      if isd then
        let* assigned := (if isDraftProp && needPatches
                          then state_assigned state prop else ret false) in
        let path := if isDraftProp && needPatches && negb assigned
                    then (λ p, p ++ [prop]) <$> rootPath
                    else None in
        (* Drafts owned by scope are finalized here. *)
        let* v' := fin v path scope in
        (* Drafts from another scope must prevent auto-freezing. *)
        let* isd' := isDraft v' in
        when isd' (update_scope scope (sc_set_canAutoFreeze false)) >>
        (* Preserve non-enumerable properties. *)
        let* arr := isArray (VObj parent) in
        let* enum := (if arr then ret true else isEnumerable parent prop) in
        (if enum then assign_prop parent prop v'
         else defineProperty parent prop v') >>
        (* Unchanged drafts are never passed to the onAssign hook. *)
        let* same := (if isDraftProp
                      then let* b := state_base_prop fuel state prop in
                           ret (strict_eq v' b)
                      else ret false) in
        ret (if same then None else Some v')
      else
        (* Unchanged draft properties are ignored. *)
        let* unchanged := (if isDraftProp
                           then let* b := state_base_prop fuel state prop in
                                ret (is_ v b)
                           else ret false) in
        if unchanged then ret None
        else
          (* Search new objects for unfinalized drafts. *)
          let* draftable := isDraftable v in
          let* frozen := (if draftable then isFrozen v else ret true) in
          (if draftable && negb frozen then
             match fuel with
             | 0 => out_of_fuel
             | S f => each v (finalizeProperty fin f state root rootPath scope needPatches)
             end
           else ret tt) >>
          ret (Some v)
    in
    match r, state with
    | Some v', Some s => when (isDraftProp && onAssign this) (emit (OnAssign s prop v'))
    | _, _ => ret tt
    end.

(** [finalizeTree(root, rootPath, scope)] (lines 220-280): finalize all
    drafts in the given state tree. *)
Definition finalizeTree (fin : value → option (list key) → scope_id → M value)
    (fuel : nat) (root : value) (rootPath : option (list key))
    (scope : scope_id) : M value :=
  let* state := draft_state root in
  let* root := match state with
               | Some s => let* st := get_state s in ret (copy_value st)
               | None => ret root
               end in
  let* sc := get_scope scope in
  let needPatches := bool_decide (is_Some rootPath) && bool_decide (is_Some (patches sc)) in
  each root (finalizeProperty fin fuel state root rootPath scope needPatches) >>
  ret root.

(** [finalize(draft, path, scope)] (lines 164-215): finalize a draft,
    returning either the unmodified base state or a modified copy of the
    base state. *)
Fixpoint finalize (fuel : nat) (draft : value) (path : option (list key))
    (scope : scope_id) {struct fuel} : M value :=
  let* state := draft_state draft in
  match state with
  | None =>
      let* frozen := isFrozen draft in
      if frozen then ret draft
      else match fuel with
           | 0 => out_of_fuel
           | S f => finalizeTree (finalize f) f draft None scope
           end
  | Some s =>
      let* st := get_state s in
      (* Never finalize drafts owned by another scope. *)
      if negb (bool_decide (st_scope st = scope)) then ret draft
      else if negb (st_modified st) then ret (st_base st)
      else
        (if negb (st_finalized st) then
           match fuel with
           | 0 => out_of_fuel
           | S f =>
               update_state s (st_set_finalized true) >>
               finalizeTree (finalize f) f (VObj (st_draft st)) path scope >>
               when (onDelete this)
                 (let* st' := get_state s in
                  for_each (st_assigned st')
                    (λ e, when (negb e.2) (emit (OnDelete s e.1)))) >>
               when (onCopy this) (emit (OnCopy s)) >>
               (* At this point, all descendants of state.copy have been
                  finalized, so scope.canAutoFreeze is accurate. *)
               let* sc := get_scope scope in
               when (autoFreeze this && canAutoFreeze sc)
                 (let* st' := get_state s in
                  match st_copy st' with
                  | Some c => freeze c
                  | None => ret tt
                  end) >>
               match path with
               | Some p => when (bool_decide (is_Some (patches sc)))
                             (generatePatches f s p scope)
               | None => ret tt
               end
           end
         else ret tt) >>
        let* st' := get_state s in
        ret (copy_value st')
  end.

(** [processResult(result, scope)] (lines 124-158) *)
Definition processResult (fuel : nat) (result : value) (scope : scope_id) : M value :=
  let* sc := get_scope scope in
  let baseDraft := match drafts sc with
                   | d :: _ => VObj d
                   | [] => VUndefined
                   end in
  let isReplaced := negb (strict_eq result VUndefined)
                    && negb (strict_eq result baseDraft) in
  willFinalize scope result isReplaced >>
  let* result :=
    if isReplaced then
      let* s := draft_state baseDraft in
      let* st := match s with
                 | Some s => get_state s
                 | None => throw (TypeError "Cannot read properties of undefined")
                 end in
      if st_modified st then
        ImmerScope.revoke scope >>
        throw DoubleReturn
      else
        let* draftable := isDraftable result in
        (* Finalize the result in case it contains (or is) a subset of the draft. *)
        let* result := (if draftable then finalize fuel result None scope
                        else ret result) in
        let* sc := get_scope scope in
        when (bool_decide (is_Some (patches sc)))
          (let* s := draft_state baseDraft in
           let* st := match s with
                      | Some s => get_state s
                      | None => throw (TypeError "Cannot read properties of undefined")
                      end in
           push_patch scope (Patch Replace [] (Some result))
                            (Patch Replace [] (Some (st_base st)))) >>
        ret result
    else
      (* Finalize the base draft. *)
      finalize fuel baseDraft (Some []) scope
  in
  ImmerScope.revoke scope >>
  let* sc := get_scope scope in
  match patches sc with
  | Some ps =>
      match patchListener sc with
      | Some l => emit (PatchListener l ps (default [] (inversePatches sc)))
      | None => throw (TypeError "scope.patchListener is not a function")
      end
  | None => ret tt
  end >>
  ret (if strict_eq result VNothing then VUndefined else result).

(** [produce(base, recipe, patchListener)] (lines 37-88).  The curried form
    and the checks that [recipe] and [patchListener] are functions are
    matters of the calling convention: here a recipe is a function by its
    type, and [patchListener] is [None] for [undefined]. *)
Definition produce (fuel : nat) (base : value) (recipe : value → M returned)
    (patchListener : option nat) : M returned :=
  (* Only plain objects, arrays, and "immerable classes" are drafted. *)
  let* draftable := isDraftable base in
  if draftable then
    let* scope := ImmerScope.enter in
    let* proxy := createProxy base None in
    let* result := try_finally (recipe proxy)
                     (λ hasError, if hasError then ImmerScope.revoke scope
                                  else ImmerScope.leave scope) in
    match result with
    | Promise p =>
        ret (Promise (then_ p
               (λ result, ImmerScope.usePatches scope patchListener >>
                          processResult fuel result scope)
               (λ error, ImmerScope.revoke scope >> throw error)))
    | Value result =>
        ImmerScope.usePatches scope patchListener >>
        let* r := processResult fuel result scope in
        ret (Value r)
    end
  else
    let* result := recipe base in
    match result with
    | Value result =>
        if strict_eq result VUndefined then ret (Value base)
        else ret (Value (if strict_eq result VNothing then VUndefined else result))
    | Promise p => ret (Promise p)
    end.

(** [createDraft(base)] (lines 89-96) *)
Definition createDraft (base : value) : M value :=
  let* draftable := isDraftable base in
  if negb draftable then throw NotDraftable
  else
    let* scope := ImmerScope.enter in
    let* proxy := createProxy base None in
    ImmerScope.leave scope >>
    let* s := draft_state proxy in
    match s with
    | Some s => update_state s (st_set_customDraft true)
    | None => throw (TypeError "Cannot set properties of undefined")
    end >>
    ret proxy.

(** [finishDraft(draft, patchListener)] (lines 97-107) *)
Definition finishDraft (fuel : nat) (draft : value) (patchListener : option nat) : M value :=
  let* isd := isDraft draft in
  if negb isd then throw NotADraft
  else
    let* s := draft_state draft in
    let* st := match s with
               | Some s => get_state s
               | None => throw (TypeError "Cannot read properties of undefined")
               end in
    if negb (st_customDraft st) then throw NotCustomDraft
    else if st_finalized st then throw AlreadyFinished
    else
      let scope := st_scope st in
      ImmerScope.usePatches scope patchListener >>
      processResult fuel VUndefined scope.

End Immer.

(** ** Configuration and the two halves of [processResult] *)

(** [setAutoFreeze(value)] (lines 108-110) *)
Definition setAutoFreeze (value : bool) (this : Immer) : Immer :=
  MkImmer value (onAssign this) (onDelete this) (onCopy this).

(** Lines 125-152 of [processResult]: the result is settled, by finalizing
    the value returned or the root draft; the scope is not revoked yet. *)
Definition settle (this : Immer) (fuel : nat) (result : value) (scope : scope_id) : M value :=
  let* sc := get_scope scope in
  let baseDraft := match drafts sc with
                   | d :: _ => VObj d
                   | [] => VUndefined
                   end in
  let isReplaced := negb (strict_eq result VUndefined)
                    && negb (strict_eq result baseDraft) in
  willFinalize scope result isReplaced >>
  if isReplaced then
    let* s := draft_state baseDraft in
    let* st := match s with
               | Some s => get_state s
               | None => throw (TypeError "Cannot read properties of undefined")
               end in
    if st_modified st then
      ImmerScope.revoke scope >>
      throw DoubleReturn
    else
      let* draftable := isDraftable result in
      let* result := (if draftable then finalize this fuel result None scope
                      else ret result) in
      let* sc := get_scope scope in
      when (bool_decide (is_Some (patches sc)))
        (let* s := draft_state baseDraft in
         let* st := match s with
                    | Some s => get_state s
                    | None => throw (TypeError "Cannot read properties of undefined")
                    end in
         push_patch scope (Patch Replace [] (Some result))
                          (Patch Replace [] (Some (st_base st)))) >>
      ret result
  else
    finalize this fuel baseDraft (Some []) scope.

(** Lines 153-157 of [processResult]: the scope is revoked, the listener
    called if patches were recorded, and NOTHING turned into [undefined]. *)
Definition conclude (scope : scope_id) (result : value) : M value :=
  ImmerScope.revoke scope >>
  let* sc := get_scope scope in
  match patches sc with
  | Some ps =>
      match patchListener sc with
      | Some l => emit (PatchListener l ps (default [] (inversePatches sc)))
      | None => throw (TypeError "scope.patchListener is not a function")
      end
  | None => ret tt
  end >>
  ret (if strict_eq result VNothing then VUndefined else result).

(** * The vocabulary of the statements *)

(** ** Classified values and live drafts *)

(** A value is draftable in [h]: [isDraftable] answers [true]. *)
Definition draftable_in (h : Heap) (v : value) : Prop :=
  isDraftable v h = (Ok true, h).

(** A value is opaque in [h]: [isDraftable] answers [false]. *)
Definition opaque_in (h : Heap) (v : value) : Prop :=
  isDraftable v h = (Ok false, h).

(** A live draft: a draft cell that has not been revoked. *)
Definition live_draft (h : Heap) (d : addr) (st : DraftState) : Prop :=
  cells h !! d = Some (CDraft st) ∧ st_revoked st = false.

(** ** The heaps an update goes through *)

(** The heap in which [produce] runs the recipe of a draftable [base]: a new
    scope has been entered and the root draft of [base] created in it. *)
Definition entered (base : value) (h : Heap) : Heap :=
  ((let* _ := ImmerScope.enter in createProxy base None) h).2.

(** The state of the root draft created by [entered]. *)
Definition fresh_state (base : value) (h : Heap) (k : kind) : DraftState :=
  State (next_scope h) false false [] None base (next_addr h) [] None k false false.

(** The heap in which [processResult] starts after a recipe returned in
    [h]: the scope was left, and patch recording attached if a listener was
    given. *)
Definition ready (sc : scope_id) (listener : option nat) (h : Heap) : Heap :=
  ImmerScope.usePatches_heap sc listener (ImmerScope.leave_heap sc h).

(** The call of the patch listener that ends [processResult]. *)
Definition notified (s : Scope) (h : Heap) : Heap :=
  match patches s, patchListener s with
  | Some ps, Some l => log_event (PatchListener l ps (default [] (inversePatches s))) h
  | _, _ => h
  end.

(** The listener is there whenever patches are recorded. *)
Definition listening (s : Scope) : Prop :=
  is_Some (patches s) → is_Some (patchListener s).

(** In [h] the scope [sc] has the live draft [d], with state [st], as its
    root draft. *)
Definition root_of (h : Heap) (sc : scope_id) (d : addr) (st : DraftState) (s : Scope) : Prop :=
  live_draft h d st ∧ scopes h !! sc = Some s ∧ head (drafts s) = Some d.

(** The recipe left the root draft of the update in place: in [h2] the draft
    created for [base] on entering from [h] is live, still belongs to the
    scope entered and still stands for [base]; it is still the root draft of
    that scope, and the scope records no patches yet. *)
Definition kept_root (base : value) (h h2 : Heap) (st : DraftState) : Prop :=
  live_draft h2 (next_addr h) st ∧
  st_scope st = next_scope h ∧ st_base st = base ∧
  ∃ s, scopes h2 !! next_scope h = Some s ∧
       head (drafts s) = Some (next_addr h) ∧ patches s = None.

(** Every draft listed by the scope is revoked. *)
Definition all_revoked (h : Heap) (sc : scope_id) : Prop :=
  ∀ s d st, scopes h !! sc = Some s → d ∈ drafts s →
    cells h !! d = Some (CDraft st) → st_revoked st = true.

(** The patch pair of a whole-value replacement, pushed when the scope
    records patches. *)
Definition record_replace (sc : scope_id) (s : Scope) (result base : value)
    (h : Heap) : Heap :=
  if bool_decide (is_Some (patches s))
  then set_scopes <[sc := sc_push_patch (Patch Replace [] (Some result))
                                        (Patch Replace [] (Some base)) s]> h
  else h.

(** The scope after that push. *)
Definition replaced_scope (s : Scope) (result base : value) : Scope :=
  if bool_decide (is_Some (patches s))
  then sc_push_patch (Patch Replace [] (Some result)) (Patch Replace [] (Some base)) s
  else s.

(** Lines 133-136 of [processResult]: the value the recipe returned is
    finalized, without a path, in case it contains or is part of the
    draft. *)
Definition finalize_result (this : Immer) (fuel : nat) (result : value)
    (scope : scope_id) : M value :=
  let* draftable := isDraftable result in
  if draftable then finalize this fuel result None scope else ret result.

(** Plain data of depth at most [n]: scalars, opaque objects, frozen
    objects, and unfrozen plain objects and arrays whose properties are plain
    data of smaller depth and none of which is the object itself.  Such a
    value holds no draft that finalization could reach. *)
Fixpoint plain_data (h : Heap) (n : nat) (v : value) : Prop :=
  match v with
  | VObj a =>
      match cells h !! a with
      | Some (CObj o) =>
          o_class o = COpaque ∨ o_frozen o = true ∨
          match n with
          | 0 => False
          | S n' => ∀ k, k ∈ each_keys o →
                         prop_value k o ≠ VObj a ∧ plain_data h n' (prop_value k o)
          end
      | _ => False
      end
  | _ => True
  end.

(** ** What finalization preserves *)

(** No cell lives at or beyond the next address to be allocated. *)
Definition fresh_heap (h : Heap) : Prop :=
  ∀ a, next_addr h ≤ a → cells h !! a = None.

(** Finalization changes a state record only in its [finalized] flag, which
    it sets, and in its cache of child drafts. *)
Definition same_state (st st' : DraftState) : Prop :=
  st_scope st' = st_scope st ∧ st_modified st' = st_modified st ∧
  st_assigned st' = st_assigned st ∧ st_parent st' = st_parent st ∧
  st_base st' = st_base st ∧ st_draft st' = st_draft st ∧
  st_copy st' = st_copy st ∧ st_kind st' = st_kind st ∧
  st_revoked st' = st_revoked st ∧ st_customDraft st' = st_customDraft st ∧
  (st_finalized st = true → st_finalized st' = true).

(** A path lies within [under]: it extends the path [under] stands for;
    no path lies within [None]. *)
Definition within (under : option (list key)) (q : list key) : Prop :=
  match under with
  | Some u => u `prefix_of` q
  | None => False
  end.

(** An optional path ([null] or a path) that, if there, lies within
    [under]. *)
Definition path_within (under p : option (list key)) : Prop :=
  ∀ q, p = Some q → within under q.

(** From [s] to [s'] patches and inverse patches were recorded at the end
    of the accumulators, all with paths that lie within [under] (so none,
    when [under] is [None]). *)
Definition recorded_within (under : option (list key)) (s s' : Scope) : Prop :=
  ∃ ps invs,
    patches s' = (λ l, l ++ ps) <$> patches s ∧
    inversePatches s' = (λ l, l ++ invs) <$> inversePatches s ∧
    Forall (λ p, within under (path p)) ps ∧
    Forall (λ p, within under (path p)) invs.

(** What finalization keeps of a scope: its drafts stay, in order;
    auto-freezing is never switched back on; and the patches recorded lie
    within [under]. *)
Definition same_scope (under : option (list key)) (s s' : Scope) : Prop :=
  drafts s `prefix_of` drafts s' ∧ parent s' = parent s ∧
  patchListener s' = patchListener s ∧
  (canAutoFreeze s = false → canAutoFreeze s' = false) ∧
  recorded_within under s s'.

(** An event that is the call of a hook, not of the patch listener. *)
Definition hook_event (e : event) : Prop :=
  ∀ l ps inv, e ≠ PatchListener l ps inv.

(** ** Sample data *)

(** A plain, unfrozen object with enumerable properties. *)
Definition plain (ps : list (key * value)) : cell :=
  CObj (Object CPlain ((λ e, (e.1, Prop_ e.2 true)) <$> ps) false).

(** The base of Scenario A, [{a: 1, b: {c: 2}}]: the inner object is at
    address 0, the base at address 1. *)
Definition scenario_heap : Heap :=
  MkHeap (<[1 := plain [(KStr "a", VNumber (Fin 1)); (KStr "b", VObj 0)]]>
            (<[0 := plain [(KStr "c", VNumber (Fin 2))]]> ∅))
         2 ∅ 0 None [].

Definition scenario_base : value := VObj 1.

(** Auto-freeze on, all three hooks installed. *)
Definition all_hooks : Immer := MkImmer true true true true.

(** [draft => v] *)
Definition recipe_return (v : value) : value → M returned :=
  λ _, ret (Value v).

(** [draft => { throw e }] *)
Definition recipe_throw (tag : nat) : value → M returned :=
  λ _, throw (RecipeError tag).

(** [async draft => { throw e }] *)
Definition recipe_reject (tag : nat) : value → M returned :=
  λ _, ret (Promise (throw (RecipeError tag))).

(** [draft => { draft[k] = v; return r }] *)
Definition recipe_set_return (k : key) (v r : value) : value → M returned :=
  λ draft, set_prop 2 draft k v >> ret (Value r).

(** [draft => { draft.b.c = 3 }], the recipe of Scenario A *)
Definition recipe_scenario_A : value → M returned :=
  λ draft, let* b := get_prop 2 draft (KStr "b") in
           set_prop 2 b (KStr "c") (VNumber (Fin 3)) >> ret (Value VUndefined).

(** [draft => draft.b], a recipe that returns a part of its draft *)
Definition recipe_return_child : value → M returned :=
  λ draft, let* b := get_prop 2 draft (KStr "b") in ret (Value b).

(** [draft => { draft[k] = v }] *)
Definition recipe_set (k : key) (v : value) : value → M returned :=
  λ draft, set_prop 2 draft k v >> ret (Value VUndefined).

(** The heap of Scenario A after [createDraft(base)]: the draft, at address
    2, belongs to scope 0, which is no longer current. *)
Definition drafted_heap : Heap := (createDraft scenario_base scenario_heap).2.


(** [draft => { const o = {n: 1}; o.self = o; return o }] *)
Definition recipe_cycle : value → M returned :=
  λ _, let* h := get_heap in
       let a := next_addr h in
       let* _ := alloc (CObj (Object CPlain [(KStr "n", Prop_ (VNumber (Fin 1)) true);
                                              (KStr "self", Prop_ (VObj a) true)] false)) in
       ret (Value (VObj a)).

(** [draft => { draft.self = draft }] *)
Definition recipe_self : value → M returned :=
  λ draft, set_prop 2 draft (KStr "self") draft >> ret (Value VUndefined).

(** The heap of Scenario A when [processResult] starts: the recipe
    [draft.b.c = 3] has run, and a listener was given.  The root draft is at
    address 2 and its copy at 5; the draft of [b] is at 3 and its copy at
    4. *)
Definition scenario_A_heap : Heap :=
  ready 0 (Some 7) (recipe_scenario_A (VObj 2) (entered scenario_base scenario_heap)).2.

(** ** The heap changes finalization can make

    Every change [finalize] makes to the heap is one of a few primitive
    steps.  [scope] is the scope being finalized; the patches recorded have
    paths within [under]; [silent] says that no hook is called. *)

Section step_relation.

Variable scope : scope_id.
Variable under : option (list key).
Variable silent : bool.

Inductive scope_change (sc : scope_id) (s : Scope) : Scope → Prop :=
  | change_push_draft d :
      scope_change sc s (sc_push_draft d s)
  | change_canAutoFreeze :
      sc = scope → scope_change sc s (sc_set_canAutoFreeze false s)
  | change_push_patch p inv :
      sc = scope → within under (path p) → within under (path inv) →
      scope_change sc s (sc_push_patch p inv s).

Inductive step : Heap → Heap → Prop :=
  | step_alloc h c :
      step h (alloc c h).2
  | step_finalized h s st :
      cells h !! s = Some (CDraft st) →
      step h (set_cells <[s := CDraft (st_set_finalized true st)]> h)
  | step_cached h s st k d :
      cells h !! s = Some (CDraft st) →
      step h (set_cells <[s := CDraft (st_set_cached k d st)]> h)
  | step_write h a o k v e :
      cells h !! a = Some (CObj o) → o_frozen o = false →
      step h (set_cells <[a := CObj (write_prop k v e o)]> h)
  | step_freeze h a o s :
      cells h !! a = Some (CObj o) →
      scopes h !! scope = Some s → canAutoFreeze s = true →
      step h (set_cells <[a := CObj (Object (o_class o) (o_props o) true)]> h)
  | step_scope h sc s s' :
      scopes h !! sc = Some s → scope_change sc s s' →
      step h (set_scopes <[sc := s']> h)
  | step_event h e :
      silent = false →
      (∀ l ps inv, e ≠ PatchListener l ps inv) →
      step h (log_event e h).

Definition steps : Heap → Heap → Prop := rtc step.

(** A computation all of whose heap changes are steps. *)
Definition sound {A} (m : M A) : Prop :=
  ∀ h r h', m h = (r, h') → steps h h'.

(** A computation that only reads the heap. *)
Definition reads {A} (m : M A) : Prop :=
  ∀ h r h', m h = (r, h') → h' = h.

End step_relation.

(** ** Relations between heaps

    What a computation does to the heap is stated as a relation between the
    heap it starts in and the heap it ends in, whatever its outcome. *)

(** A computation all of whose runs, whatever their outcome, take the heap
    to one related to it by [R]. *)
Definition respects (R : relation Heap) {A} (m : M A) : Prop :=
  ∀ h r h', m h = (r, h') → R h h'.

(** A computation that respects [R] when started in a heap with [P]. *)
Definition respects_under (P : Heap → Prop) (R : relation Heap) {A} (m : M A) : Prop :=
  ∀ h r h', P h → m h = (r, h') → R h h'.

(** From [h] to [h'] only hooks were called, and the scope [sc] kept its
    listener and kept recording patches, or not recording them. *)
Definition unheard (sc : scope_id) (h h' : Heap) : Prop :=
  (∃ evs, events h' = events h ++ evs ∧ Forall hook_event evs) ∧
  ∀ s, scopes h !! sc = Some s →
       ∃ s', scopes h' !! sc = Some s' ∧ patchListener s' = patchListener s ∧
             drafts s `prefix_of` drafts s' ∧
             (is_Some (patches s') ↔ is_Some (patches s)).

(** The heap with further events recorded. *)
Definition log_events (evs : list event) (h : Heap) : Heap :=
  MkHeap (cells h) (next_addr h) (scopes h) (next_scope h) (current h)
         (events h ++ evs).

(** The hook calls that end the finalization of a modified draft (lines
    181-197): [onDelete] for each key marked as deleted, in the order of the
    [assigned] map, then [onCopy]; each only if the hook is installed. *)
Definition hooks_called (this : Immer) (s : addr) (st : DraftState) : list event :=
  (if onDelete this
   then (λ e, OnDelete s e.1) <$> List.filter (λ e : key * bool, negb e.2) (st_assigned st)
   else []) ++
  (if onCopy this then [OnCopy s] else []).

(** A hook call that the configuration allows: the hook is installed.  The
    patch listener is no hook. *)
Definition installed (this : Immer) (e : event) : Prop :=
  match e with
  | OnAssign _ _ _ => onAssign this = true
  | OnDelete _ _ => onDelete this = true
  | OnCopy _ => onCopy this = true
  | PatchListener _ _ _ => False
  end.

(** From [h] to [h'] only installed hooks were called. *)
Definition hooked (this : Immer) (h h' : Heap) : Prop :=
  ∃ evs, events h' = events h ++ evs ∧ Forall (installed this) evs.

(** From [h] to [h'] no object was frozen or thawed: every object of [h]
    is an object of [h'] with the same class and the same frozen flag. *)
Definition frozen_kept (h h' : Heap) : Prop :=
  fresh_heap h →
  fresh_heap h' ∧
  ∀ a o, cells h !! a = Some (CObj o) →
         ∃ o', cells h' !! a = Some (CObj o') ∧ o_class o' = o_class o ∧
               o_frozen o' = o_frozen o.

(** The object [o] at address [a] is out of the engine's reach in [h]: it
    holds no draft (every object it refers to is a plain object of the
    heap), and it is not the copy of any draft. *)
Definition untouchable (a : addr) (o : object) (h : Heap) : Prop :=
  fresh_heap h ∧ cells h !! a = Some (CObj o) ∧
  (∀ k x, prop_value k o = VObj x → ∃ o', cells h !! x = Some (CObj o')) ∧
  (∀ d st, cells h !! d = Some (CDraft st) → st_copy st ≠ Some a).

(** From [h] to [h'] every draft is kept, with the copy it had. *)
Definition copies_kept (h h' : Heap) : Prop :=
  ∀ d st, cells h !! d = Some (CDraft st) →
          ∃ st', cells h' !! d = Some (CDraft st') ∧ st_copy st' = st_copy st.

(** From [h] to [h'] the object [o] at [a], if out of reach, was left as it
    is and is still out of reach. *)
Definition spares (a : addr) (o : object) (h h' : Heap) : Prop :=
  untouchable a o h → untouchable a o h' ∧ copies_kept h h'.

(** The draft at [s] has the copy [c]. *)
Definition has_copy (s : addr) (c : option addr) (h : Heap) : Prop :=
  ∃ st, cells h !! s = Some (CDraft st) ∧ st_copy st = c.

(** The object at [p] has the value [x] at the key [k]. *)
Definition holds (p : addr) (k : key) (x : value) (h : Heap) : Prop :=
  ∃ o, cells h !! p = Some (CObj o) ∧ prop_value k o = x.

(** From [h] to [h'] the current scope is the same, unless it was [sc]. *)
Definition keeps_current (sc : scope_id) (h h' : Heap) : Prop :=
  current h ≠ Some sc → current h' = current h.

(** ** Further sample data *)

(** [draft => { delete draft[k] }] *)
Definition recipe_delete (k : key) : value → M returned :=
  λ draft, del_prop 2 draft k >> ret (Value VUndefined).

(** [draft => { const o = {}; o.self = o; draft.x = o }] *)
Definition recipe_set_cycle : value → M returned :=
  λ draft, let* h := get_heap in
           let a := next_addr h in
           let* _ := alloc (CObj (Object CPlain [(KStr "self", Prop_ (VObj a) true)] false)) in
           set_prop 2 draft (KStr "x") (VObj a) >> ret (Value VUndefined).

(** A promise that is fulfilled with [v] as soon as it is awaited. *)
Definition resolved (v : value) : M value := ret v.

(** [async draft => { draft[k] = v }] *)
Definition recipe_set_async (k : key) (v : value) : value → M returned :=
  λ draft, set_prop 2 draft k v >> ret (Promise (resolved VUndefined)).

(** ** The visit of a property that holds a draft *)



(** ** Objects that hold themselves *)



(** ** Copies that enclose a draft of another scope *)

(** A computation all of whose successful runs take the heap to one related
    to it by [R]. *)
Definition on_success (R : relation Heap) {A} (m : M A) : Prop :=
  ∀ h a h', m h = (Ok a, h') → R h h'.

(** The scope [scope] may no longer auto-freeze. *)
Definition disabled (scope : scope_id) (h : Heap) : Prop :=
  ∃ s, scopes h !! scope = Some s ∧ canAutoFreeze s = false.

(** From [h] to [h'] the scope [scope] kept its [canAutoFreeze] flag. *)
Definition flag_kept (scope : scope_id) (h h' : Heap) : Prop :=
  ∀ s, scopes h !! scope = Some s →
       ∃ s', scopes h' !! scope = Some s' ∧ canAutoFreeze s' = canAutoFreeze s.

(** The finalization of [v] for [scope] gives a draft: [v] is a live draft
    of another scope, which [finalize] returns as it is (lines 170-173), or
    an unmodified live draft, for which [finalize] returns the base (lines
    174-176), and that base is a live draft. *)
Definition yields_draft (scope : scope_id) (h : Heap) (v : value) : Prop :=
  ∃ x stx,
    v = VObj x ∧ cells h !! x = Some (CDraft stx) ∧ st_revoked stx = false ∧
    (st_scope stx ≠ scope ∨
     (st_modified stx = false ∧
      ∃ y sty, st_base stx = VObj y ∧ cells h !! y = Some (CDraft sty) ∧
               st_revoked sty = false)).

(** The object at [c] holds, at the key [k], a value whose finalization
    gives a draft. *)
Definition encloses (scope : scope_id) (c : addr) (k : key) (h : Heap) : Prop :=
  ∃ o, cells h !! c = Some (CObj o) ∧ yields_draft scope h (prop_value k o).

(** The object at [c] is not frozen, and no finalization still to begin can
    freeze it: every draft whose copy it is has been marked as finalized. *)
Definition unfrozen_copy (c : addr) (h : Heap) : Prop :=
  fresh_heap h ∧
  (∃ o, cells h !! c = Some (CObj o) ∧ o_frozen o = false) ∧
  ∀ s st, cells h !! s = Some (CDraft st) → st_copy st = Some c →
          st_finalized st = true.

(** What reading through drafts and recording patches keep: the flag of
    the scope, the copy unfrozen, and what it holds at [k]. *)
Definition reads_around (scope : scope_id) (c : addr) (k : key) (h h' : Heap) : Prop :=
  flag_kept scope h h' ∧
  (unfrozen_copy c h →
   unfrozen_copy c h' ∧ (encloses scope c k h → encloses scope c k h')).

(** What finalization keeps: auto-freezing, once off, stays off; the copy
    stays unfrozen; and as long as the copy holds at [k] a value whose
    finalization gives a draft, it still does, or auto-freezing is off. *)
Definition walks_around (scope : scope_id) (c : addr) (k : key) (h h' : Heap) : Prop :=
  (disabled scope h → disabled scope h') ∧
  (unfrozen_copy c h →
   unfrozen_copy c h' ∧
   (encloses scope c k h → disabled scope h' ∨ encloses scope c k h')).

(** In [h] the draft [s] of [scope], with state [st], is modified and not
    finalized yet; its copy holds the object [o] at [c], not frozen, and is
    the copy of no other draft still to be finalized. *)
Definition pending_copy (scope : scope_id) (h : Heap) (s : addr) (st : DraftState)
    (c : addr) (o : object) : Prop :=
  fresh_heap h ∧ live_draft h s st ∧ st_scope st = scope ∧
  st_modified st = true ∧ st_finalized st = false ∧ st_draft st = s ∧
  st_copy st = Some c ∧ cells h !! c = Some (CObj o) ∧ o_frozen o = false ∧
  ∀ s' st', cells h !! s' = Some (CDraft st') → st_copy st' = Some c →
            s' = s ∨ st_finalized st' = true.

(** The heap of Scenario A in which [produce], called on the base while the
    draft of [createDraft] (address 2, scope 0) is live, finalizes the root
    draft (address 3, scope 1) after the recipe stored the foreign draft
    in it. *)
Definition enclosing_heap : Heap :=
  ready 1 None
    (recipe_set (KStr "x") (VObj 2) (VObj 3) (entered scenario_base drafted_heap)).2.

(** * Properties *)

(** ** Reading the heap *)

Lemma strict_eq_undefined (v : value) :
  strict_eq v VUndefined = bool_decide (v = VUndefined).
Proof. by destruct v as [| | |[| |[]]| | |]. Qed.

Lemma strict_eq_nothing (v : value) :
  strict_eq v VNothing = bool_decide (v = VNothing).
Proof. by destruct v as [| | |[| |[]]| | |]. Qed.

Lemma strict_eq_obj (v : value) (a : addr) :
  strict_eq v (VObj a) = bool_decide (v = VObj a).
Proof. by destruct v as [| | |[| |[]]| | |]. Qed.

(** The classification functions only read the heap. *)
Lemma isDraftable_heap v h r h' : isDraftable v h = (r, h') → h' = h.
Proof.
  destruct v; cbn; try by intros [= _ <-].
  unfold bind, get_cell. destruct (cells h !! a) as [[o|st]|]; cbn;
    try destruct (st_revoked st); by intros [= _ <-].
Qed.

Lemma draft_state_heap v h r h' : draft_state v h = (r, h') → h' = h.
Proof.
  destruct v; cbn; try by intros [= _ <-].
  unfold bind, get_cell. destruct (cells h !! a) as [[o|st]|]; cbn;
    try destruct (st_revoked st); by intros [= _ <-].
Qed.

Lemma isDraft_heap v h r h' : isDraft v h = (r, h') → h' = h.
Proof.
  unfold isDraft. destruct (truthy v); [|by intros [= _ <-]].
  unfold bind. destruct (draft_state v h) as [[]] eqn:E;
    apply draft_state_heap in E as ->; by intros [= _ <-].
Qed.

Lemma draftable_in_obj h v : draftable_in h v → ∃ a, v = VObj a.
Proof. destruct v; try discriminate. eauto. Qed.

Lemma opaque_scalar h v : (∀ a, v ≠ VObj a) → opaque_in h v.
Proof. destruct v; try done. intros H. by destruct (H a). Qed.

Lemma draft_state_live h d st :
  live_draft h d st → draft_state (VObj d) h = (Ok (Some d), h).
Proof. intros [Hc Hr]. cbn. unfold bind, get_cell. by rewrite Hc, Hr. Qed.

Lemma get_state_eq h d st :
  cells h !! d = Some (CDraft st) → get_state d h = (Ok st, h).
Proof. intros Hc. unfold get_state, bind, get_cell. by rewrite Hc. Qed.

Lemma get_object_eq h a o :
  cells h !! a = Some (CObj o) → get_object a h = (Ok o, h).
Proof. intros Hc. unfold get_object, bind, get_cell. by rewrite Hc. Qed.

Lemma get_scope_eq h sc s :
  scopes h !! sc = Some s → get_scope sc h = (Ok s, h).
Proof. intros Hs. unfold get_scope. by rewrite Hs. Qed.

Lemma isDraft_live h d st :
  live_draft h d st → isDraft (VObj d) h = (Ok true, h).
Proof.
  intros Hl. unfold isDraft, bind. cbn [truthy].
  by rewrite (draft_state_live _ _ _ Hl).
Qed.

Lemma isDraftable_live h d st :
  live_draft h d st → draftable_in h (VObj d).
Proof.
  intros [Hc Hr]. unfold draftable_in. cbn. unfold bind, get_cell.
  by rewrite Hc, Hr.
Qed.

(** ** Entering an update *)

Lemma isArray_draftable h v :
  draftable_in h v → ∃ b, isArray v h = (Ok b, h).
Proof.
  destruct v; try discriminate. unfold draftable_in. cbn.
  unfold bind, get_cell. destruct (cells h !! a) as [[o|st]|]; cbn; try discriminate.
  - eauto.
  - destruct (st_revoked st); [discriminate|eauto].
Qed.

Lemma isArray_heap v h r h' : isArray v h = (r, h') → h' = h.
Proof.
  destruct v; cbn; try by intros [= _ <-].
  unfold bind, get_cell. destruct (cells h !! a) as [[o|st]|]; cbn;
    try destruct (st_revoked st); by intros [= _ <-].
Qed.

Lemma isArray_cells v h1 h2 : cells h1 = cells h2 → (isArray v h1).1 = (isArray v h2).1.
Proof.
  intros E. destruct v; try done. cbn. unfold bind, get_cell. rewrite E.
  destruct (cells h2 !! a) as [[o|st]|]; cbn; try done. by destruct (st_revoked st).
Qed.

Lemma enter_createProxy base h :
  draftable_in h base →
  ∃ k, (let* _ := ImmerScope.enter in createProxy base None) h
       = (Ok (VObj (next_addr h)),
          MkHeap (<[next_addr h := CDraft (fresh_state base h k)]> (cells h))
                 (S (next_addr h))
                 (<[next_scope h := MkScope [next_addr h] (current h) true None None None]>
                    (scopes h))
                 (S (next_scope h)) (Some (next_scope h)) (events h)).
Proof.
  intros Hd. destruct (isArray_draftable _ _ Hd) as [b Hb].
  exists (if b then Sequence else Mapping).
  unfold bind at 1. cbn [ImmerScope.enter].
  unfold createProxy, bind at 1. cbn [get_heap current ret bind].
  set (hE := MkHeap _ _ _ _ _ _).
  unfold bind at 1.
  assert (isArray base hE = (Ok b, hE)) as ->.
  { pose proof (isArray_cells base hE h eq_refl) as E. rewrite Hb in E.
    destruct (isArray base hE) as [r hx] eqn:E2. cbn in E. subst r.
    by apply isArray_heap in E2 as ->. }
  unfold bind, get_heap, alloc, ret; cbn.
  unfold update_scope, bind, get_scope, modify_heap; cbn.
  rewrite lookup_insert_eq. unfold set_scopes; cbn.
  by rewrite insert_insert_eq.
Qed.

Section produce_steps.

Variable this : Immer.

(** [produce] on a draftable base, up to the call of the recipe. *)
Lemma produce_draftable fuel base recipe patchListener h :
  draftable_in h base →
  produce this fuel base recipe patchListener h
  = (let scope := next_scope h in
     let proxy := VObj (next_addr h) in
     let* result := try_finally (recipe proxy)
                      (λ hasError, if hasError then ImmerScope.revoke scope
                                   else ImmerScope.leave scope) in
     match result with
     | Promise p =>
         ret (Promise (then_ p
                (λ result, ImmerScope.usePatches scope patchListener >>
                           processResult this fuel result scope)
                (λ error, ImmerScope.revoke scope >> throw error)))
     | Value result =>
         ImmerScope.usePatches scope patchListener >>
         let* r := processResult this fuel result scope in
         ret (Value r)
     end) (entered base h).
Proof.
  intros Hd. unfold produce. unfold bind at 1. rewrite Hd.
  destruct (enter_createProxy _ _ Hd) as [k E].
  unfold entered. rewrite E. cbn [snd].
  unfold bind at 1 in E.
  unfold bind at 1. cbn [ImmerScope.enter] in *.
  unfold bind at 1. rewrite E. done.
Qed.

(** [produce] on an opaque base: nothing but the call of the recipe. *)
Lemma produce_opaque fuel base recipe patchListener h :
  opaque_in h base →
  produce this fuel base recipe patchListener h
  = match recipe base h with
    | (Ok (Value result), h') =>
        (Ok (Value (if bool_decide (result = VUndefined) then base
                    else if bool_decide (result = VNothing) then VUndefined
                    else result)), h')
    | (Ok (Promise p), h') => (Ok (Promise p), h')
    | (Throw e, h') => (Throw e, h')
    | (OutOfFuel, h') => (OutOfFuel, h')
    end.
Proof.
  intros Hd. unfold produce. unfold bind at 1. rewrite Hd.
  unfold bind. destruct (recipe base h) as [[[r|p]|e|] h']; try done.
  rewrite strict_eq_undefined, strict_eq_nothing.
  by destruct (bool_decide (r = VUndefined)).
Qed.

End produce_steps.

(** ** Scopes: leaving, revoking, recording *)

Lemma leave_heap_cells sc h : cells (ImmerScope.leave_heap sc h) = cells h.
Proof.
  unfold ImmerScope.leave_heap. destruct (scopes h !! sc); [|done].
  by destruct (decide _).
Qed.

Lemma leave_heap_scopes sc h : scopes (ImmerScope.leave_heap sc h) = scopes h.
Proof.
  unfold ImmerScope.leave_heap. destruct (scopes h !! sc); [|done].
  by destruct (decide _).
Qed.

Lemma leave_heap_events sc h : events (ImmerScope.leave_heap sc h) = events h.
Proof.
  unfold ImmerScope.leave_heap. destruct (scopes h !! sc); [|done].
  by destruct (decide _).
Qed.

Lemma revoke_heap_scopes sc h : scopes (ImmerScope.revoke_heap sc h) = scopes h.
Proof.
  unfold ImmerScope.revoke_heap. rewrite leave_heap_scopes.
  destruct (scopes h !! sc); cbn; by rewrite leave_heap_scopes.
Qed.

Lemma revoke_heap_events sc h : events (ImmerScope.revoke_heap sc h) = events h.
Proof.
  unfold ImmerScope.revoke_heap. rewrite leave_heap_scopes.
  destruct (scopes h !! sc); cbn; by rewrite leave_heap_events.
Qed.

Lemma revoke_cell_idemp c : ImmerScope.revoke_cell (ImmerScope.revoke_cell c) = ImmerScope.revoke_cell c.
Proof. by destruct c. Qed.

Lemma lookup_revoke_all (ds : list addr) (m : gmap addr cell) (d : addr) :
  foldr (alter ImmerScope.revoke_cell) m ds !! d
  = if decide (d ∈ ds) then ImmerScope.revoke_cell <$> m !! d else m !! d.
Proof.
  induction ds as [|x ds IH]; cbn.
  - rewrite decide_False; [done|]. by intros ?%elem_of_nil.
  - destruct (decide (x = d)) as [->|Hne].
    + rewrite lookup_alter_eq, IH. rewrite (decide_True (P := d ∈ d :: ds)) by by left.
      destruct (decide (d ∈ ds)); [|done].
      destruct (m !! d); cbn; [|done]. by rewrite revoke_cell_idemp.
    + rewrite lookup_alter_ne, IH by done.
      destruct (decide (d ∈ ds)) as [Hin|Hin].
      * rewrite decide_True; [done|]. by right.
      * rewrite decide_False; [done|]. intros [?|?]%elem_of_cons; congruence.
Qed.

(** Revoking a scope revokes every draft the scope owns, and nothing else. *)
Lemma revoke_heap_lookup sc h s d :
  scopes h !! sc = Some s →
  cells (ImmerScope.revoke_heap sc h) !! d
  = if decide (d ∈ drafts s) then ImmerScope.revoke_cell <$> cells h !! d
    else cells h !! d.
Proof.
  intros Hs. unfold ImmerScope.revoke_heap. rewrite leave_heap_scopes, Hs. cbn.
  by rewrite lookup_revoke_all, leave_heap_cells.
Qed.

(** Using a revoked draft fails. *)
Lemma isDraft_revoked h d st :
  cells h !! d = Some (CDraft st) → st_revoked st = true →
  isDraft (VObj d) h = (Throw revoked_proxy, h).
Proof.
  intros Hc Hr. unfold isDraft, bind. cbn. unfold bind, get_cell.
  by rewrite Hc, Hr.
Qed.

Lemma ready_cells sc l h : cells (ready sc l h) = cells h.
Proof. unfold ready, ImmerScope.usePatches_heap. destruct l; cbn; apply leave_heap_cells. Qed.

Lemma ready_events sc l h : events (ready sc l h) = events h.
Proof. unfold ready, ImmerScope.usePatches_heap. destruct l; cbn; apply leave_heap_events. Qed.

Section processResult_cases.

Variable this : Immer.

(** The last steps of [processResult]: revoke, notify, return. *)
Lemma processResult_end sc s h (result : value) :
  scopes h !! sc = Some s → listening s →
  (ImmerScope.revoke sc >>
   let* sc' := get_scope sc in
   match patches sc' with
   | Some ps =>
       match patchListener sc' with
       | Some l => emit (PatchListener l ps (default [] (inversePatches sc')))
       | None => throw (TypeError "scope.patchListener is not a function")
       end
   | None => ret tt
   end >>
   ret (if strict_eq result VNothing then VUndefined else result)) h
  = (Ok (if strict_eq result VNothing then VUndefined else result),
     notified s (ImmerScope.revoke_heap sc h)).
Proof.
  intros Hs Hl. unfold bind at 1. cbn [ImmerScope.revoke modify_heap].
  unfold bind at 1. rewrite (get_scope_eq _ _ s) by by rewrite revoke_heap_scopes.
  unfold notified, listening in *.
  destruct (patches s) as [ps|]; [|done].
  destruct Hl as [l Hl]; [done|]. rewrite Hl. done.
Qed.

(** The recipe modified its draft and returned something else: the scope is
    revoked and the update fails. *)
Lemma processResult_double fuel sc d st s h result :
  root_of h sc d st s → st_modified st = true →
  result ≠ VUndefined → result ≠ VObj d →
  processResult this fuel result sc h
  = (Throw DoubleReturn, ImmerScope.revoke_heap sc h).
Proof.
  intros (Hl & Hs & Hd) Hm Hu Hr. unfold processResult.
  unfold bind at 1. rewrite (get_scope_eq _ _ _ Hs).
  destruct (drafts s) as [|d' ds]; [done|]. injection Hd as ->.
  rewrite strict_eq_undefined, strict_eq_obj, !bool_decide_eq_false_2 by done.
  cbn [negb andb]. unfold willFinalize.
  unfold bind at 1. cbn [ret]. unfold bind at 1. unfold bind at 1.
  rewrite (draft_state_live _ _ _ Hl).
  unfold bind at 1. rewrite (get_state_eq _ _ _ (proj1 Hl)), Hm.
  done.
Qed.

(** The recipe returned nothing, or its draft, and did not modify the
    draft: the base comes back. *)
Lemma processResult_unmodified fuel sc d st s h result :
  root_of h sc d st s → listening s →
  st_modified st = false → st_scope st = sc →
  result = VUndefined ∨ result = VObj d →
  processResult this fuel result sc h
  = (Ok (if strict_eq (st_base st) VNothing then VUndefined else st_base st),
     notified s (ImmerScope.revoke_heap sc h)).
Proof.
  intros (Hl & Hs & Hd) Hls Hm Hsc Hr. unfold processResult.
  unfold bind at 1. rewrite (get_scope_eq _ _ _ Hs).
  destruct (drafts s) as [|d' ds] eqn:Eds; [done|]. injection Hd as ->.
  assert (negb (strict_eq result VUndefined) && negb (strict_eq result (VObj d)) = false) as ->.
  { rewrite strict_eq_undefined, strict_eq_obj.
    destruct Hr as [-> | ->]; [done|]. by rewrite (bool_decide_eq_true_2 (VObj d = VObj d)), andb_false_r. }
  unfold willFinalize. unfold bind at 1. cbn [ret]. unfold bind at 1.
  assert (finalize this fuel (VObj d) (Some []) sc h = (Ok (st_base st), h)) as ->.
  { destruct fuel; cbn [finalize]; unfold bind at 1;
      rewrite (draft_state_live _ _ _ Hl); unfold bind at 1;
      rewrite (get_state_eq _ _ _ (proj1 Hl)), Hsc, Hm;
      by rewrite bool_decide_eq_true_2. }
  by apply processResult_end.
Qed.

End processResult_cases.

(** ** What the recipe leaves behind *)

Lemma revoke_heap_all_revoked sc h : all_revoked (ImmerScope.revoke_heap sc h) sc.
Proof.
  intros s d st Hs Hd Hc. rewrite revoke_heap_scopes in Hs.
  rewrite (revoke_heap_lookup _ _ _ _ Hs), decide_True in Hc by done.
  destruct (cells h !! d) as [[o|st']|]; cbn in Hc; by simplify_eq.
Qed.

Lemma root_of_leave sc' h sc d st s :
  root_of h sc d st s → root_of (ImmerScope.leave_heap sc' h) sc d st s.
Proof.
  intros ([Hc Hr] & Hs & Hd). unfold root_of, live_draft.
  by rewrite leave_heap_cells, leave_heap_scopes.
Qed.

Lemma root_of_usePatches l h sc d st s :
  root_of h sc d st s →
  root_of (ImmerScope.usePatches_heap sc l h) sc d st
          (match l with Some x => sc_use_patches x s | None => s end).
Proof.
  intros ([Hc Hr] & Hs & Hd). destruct l; [|done].
  unfold root_of, live_draft. cbn. by rewrite lookup_alter_eq, Hs.
Qed.

Lemma kept_root_ready base h h2 st l :
  kept_root base h h2 st →
  ∃ s, root_of (ready (next_scope h) l h2) (next_scope h) (next_addr h) st s ∧
       listening s ∧
       patches s = (match l with Some _ => Some [] | None => None end) ∧
       inversePatches s = (match l with Some _ => Some [] | None => inversePatches s end) ∧
       patchListener s = (match l with Some x => Some x | None => patchListener s end).
Proof.
  intros (Hl & _ & _ & s & Hs & Hd & Hp).
  exists (match l with Some x => sc_use_patches x s | None => s end). split.
  - apply root_of_usePatches, root_of_leave. by split_and!.
  - unfold listening. destruct l; cbn; split_and!; try done.
    rewrite Hp. by intros [? ?].
Qed.

Section produce_cases.

Variable this : Immer.

Lemma produce_returned fuel base recipe listener h result h2 :
  draftable_in h base →
  recipe (VObj (next_addr h)) (entered base h) = (Ok (Value result), h2) →
  produce this fuel base recipe listener h
  = (let* r := processResult this fuel result (next_scope h) in ret (Value r))
      (ready (next_scope h) listener h2).
Proof.
  intros Hd Hr. rewrite produce_draftable by done. cbn zeta.
  unfold bind at 1, try_finally. rewrite Hr. cbn.
  unfold bind at 1. done.
Qed.

Lemma produce_threw fuel base recipe listener h e h2 :
  draftable_in h base →
  recipe (VObj (next_addr h)) (entered base h) = (Throw e, h2) →
  produce this fuel base recipe listener h
  = (Throw e, ImmerScope.revoke_heap (next_scope h) h2).
Proof.
  intros Hd Hr. rewrite produce_draftable by done. cbn zeta.
  unfold bind at 1, try_finally. by rewrite Hr.
Qed.

Lemma produce_promised fuel base recipe listener h p h2 :
  draftable_in h base →
  recipe (VObj (next_addr h)) (entered base h) = (Ok (Promise p), h2) →
  produce this fuel base recipe listener h
  = (Ok (Promise (then_ p
           (λ result, ImmerScope.usePatches (next_scope h) listener >>
                      processResult this fuel result (next_scope h))
           (λ error, ImmerScope.revoke (next_scope h) >> throw error))),
     ImmerScope.leave_heap (next_scope h) h2).
Proof.
  intros Hd Hr. rewrite produce_draftable by done. cbn zeta.
  unfold bind at 1, try_finally. by rewrite Hr.
Qed.

(** A replacement that is opaque needs no finalization. *)
Lemma processResult_replaced_opaque fuel sc d st s h result :
  root_of h sc d st s → listening s → st_modified st = false →
  result ≠ VUndefined → result ≠ VObj d → opaque_in h result →
  processResult this fuel result sc h
  = (Ok (if strict_eq result VNothing then VUndefined else result),
     notified (replaced_scope s result (st_base st))
       (ImmerScope.revoke_heap sc (record_replace sc s result (st_base st) h))).
Proof.
  intros (Hl & Hs & Hd) Hls Hm Hu Hr Ho. unfold processResult.
  unfold bind at 1. rewrite (get_scope_eq _ _ _ Hs).
  destruct (drafts s) as [|d' ds] eqn:Eds; [done|]. injection Hd as ->.
  rewrite strict_eq_undefined, strict_eq_obj, !bool_decide_eq_false_2 by done.
  cbn [negb andb]. unfold willFinalize.
  unfold bind at 1. cbn [ret]. unfold bind at 1. unfold bind at 1.
  rewrite (draft_state_live _ _ _ Hl).
  unfold bind at 1. rewrite (get_state_eq _ _ _ (proj1 Hl)), Hm.
  unfold bind at 1. rewrite Ho. unfold bind at 1. cbn [ret].
  unfold bind at 1. rewrite (get_scope_eq _ _ _ Hs).
  unfold record_replace, replaced_scope.
  destruct (bool_decide (is_Some (patches s))) eqn:Ep; cbn [when].
  - unfold bind at 1. unfold bind at 1. rewrite (draft_state_live _ _ _ Hl).
    unfold bind at 1. rewrite (get_state_eq _ _ _ (proj1 Hl)).
    unfold push_patch, update_scope. unfold bind at 1.
    rewrite (get_scope_eq _ _ _ Hs). cbn [modify_heap]. unfold bind at 1. cbn [ret].
    apply processResult_end.
    + cbn. by rewrite lookup_insert_eq.
    + unfold listening in *. cbn. intros _. apply Hls.
      by apply bool_decide_eq_true_1 in Ep.
  - unfold bind at 1. cbn [ret]. unfold bind at 1. cbn [ret].
    by apply processResult_end.
Qed.

End produce_cases.

(** ** Updates that change nothing *)

(** C1, as amended.  For a draftable base and a recipe that returns
    [undefined] or the draft itself and leaves the root draft unmodified,
    [produce] returns the base itself. *)
Theorem produce_unmodified_returns_base (this : Immer) (fuel : nat) (base : value)
    (recipe : value → M returned) (listener : option nat) (h h2 : Heap)
    (result : value) (st : DraftState) :
  draftable_in h base →
  recipe (VObj (next_addr h)) (entered base h) = (Ok (Value result), h2) →
  result = VUndefined ∨ result = VObj (next_addr h) →
  kept_root base h h2 st →
  st_modified st = false →
  ∃ h', produce this fuel base recipe listener h = (Ok (Value base), h').
Proof.
  intros Hd Hr Hres Hk Hm.
  destruct (kept_root_ready _ _ _ _ listener Hk) as (s & Hroot & Hls & _).
  destruct Hk as (_ & Hsc & Hb & _).
  rewrite (produce_returned _ _ _ _ _ _ _ _ Hd Hr).
  unfold bind at 1.
  rewrite (processResult_unmodified _ _ _ _ _ _ _ _ Hroot Hls Hm Hsc Hres).
  rewrite Hb. destruct (draftable_in_obj _ _ Hd) as [a ->]. cbn. eauto.
Qed.

Lemma produce_unmodified_returns_base_witness :
  ∃ h', produce all_hooks 0 scenario_base (recipe_return VUndefined) (Some 7)
          scenario_heap = (Ok (Value scenario_base), h').
Proof.
  eapply (produce_unmodified_returns_base all_hooks 0 scenario_base
            (recipe_return VUndefined) (Some 7) scenario_heap
            (entered scenario_base scenario_heap) VUndefined
            (fresh_state scenario_base scenario_heap Mapping)).
  - reflexivity.
  - reflexivity.
  - by left.
  - repeat split. eexists. repeat split.
  - reflexivity.
Defined.

(** C1, as stated, fails: a recipe that touches nothing and returns a new
    value leaves the root draft unmodified, and [produce] returns that value,
    not the base. *)
Lemma produce_unmodified_replaced :
  draftable_in scenario_heap scenario_base ∧
  recipe_return (VNumber (Fin 42)) (VObj (next_addr scenario_heap))
      (entered scenario_base scenario_heap)
    = (Ok (Value (VNumber (Fin 42))), entered scenario_base scenario_heap) ∧
  kept_root scenario_base scenario_heap (entered scenario_base scenario_heap)
      (fresh_state scenario_base scenario_heap Mapping) ∧
  st_modified (fresh_state scenario_base scenario_heap Mapping) = false ∧
  (produce all_hooks 0 scenario_base (recipe_return (VNumber (Fin 42))) None
     scenario_heap).1 = Ok (Value (VNumber (Fin 42))) ∧
  VNumber (Fin 42) ≠ scenario_base.
Proof.
  split_and!; try done.
  repeat split. eexists. repeat split.
Qed.

(** ** Failures *)

(** C2.  When the recipe of a draftable base raises, or returns a promise
    that is rejected, the scope of the update is revoked and the same error
    reaches the caller: no value is returned, and no event (so no call of the
    patch listener) is added to those of the recipe. *)
Theorem produce_failure_revokes_scope (this : Immer) (fuel : nat) (base : value)
    (recipe : value → M returned) (listener : option nat) (h : Heap) :
  draftable_in h base →
  (∀ e h2,
     recipe (VObj (next_addr h)) (entered base h) = (Throw e, h2) →
     ∃ h', produce this fuel base recipe listener h = (Throw e, h') ∧
           h' = ImmerScope.revoke_heap (next_scope h) h2 ∧
           all_revoked h' (next_scope h) ∧ events h' = events h2) ∧
  (∀ p h2,
     recipe (VObj (next_addr h)) (entered base h) = (Ok (Promise p), h2) →
     ∃ p' h', produce this fuel base recipe listener h = (Ok (Promise p'), h') ∧
              events h' = events h2 ∧
              ∀ e h3 h4, p h3 = (Throw e, h4) →
                ∃ h5, p' h3 = (Throw e, h5) ∧
                      h5 = ImmerScope.revoke_heap (next_scope h) h4 ∧
                      all_revoked h5 (next_scope h) ∧ events h5 = events h4).
Proof.
  intros Hd. split.
  - intros e h2 Hr. eexists. split; [by apply produce_threw|].
    split_and!; [done|apply revoke_heap_all_revoked|apply revoke_heap_events].
  - intros p h2 Hr. eexists _, _. split; [by apply produce_promised|].
    split; [apply leave_heap_events|].
    intros e h3 h4 Hp. eexists. unfold then_. rewrite Hp.
    split; [reflexivity|].
    split_and!; [done|apply revoke_heap_all_revoked|apply revoke_heap_events].
Qed.

Lemma produce_failure_revokes_scope_witness :
  (∃ h', produce all_hooks 0 scenario_base (recipe_throw 1) (Some 7) scenario_heap
         = (Throw (RecipeError 1), h') ∧
         all_revoked h' (next_scope scenario_heap) ∧ events h' = []) ∧
  (∃ p' h', produce all_hooks 0 scenario_base (recipe_reject 1) (Some 7) scenario_heap
            = (Ok (Promise p'), h') ∧
            ∃ h5, p' h' = (Throw (RecipeError 1), h5) ∧
                  all_revoked h5 (next_scope scenario_heap) ∧ events h5 = []).
Proof.
  pose proof (produce_failure_revokes_scope all_hooks 0 scenario_base
                (recipe_throw 1) (Some 7) scenario_heap eq_refl) as [H1 _].
  pose proof (produce_failure_revokes_scope all_hooks 0 scenario_base
                (recipe_reject 1) (Some 7) scenario_heap eq_refl) as [_ H2].
  split.
  - destruct (H1 (RecipeError 1) _ eq_refl) as (h' & E & _ & Hrev & Hev).
    exists h'. by split_and!.
  - destruct (H2 _ _ eq_refl) as (p' & h' & E & Hev & Hrej).
    exists p', h'. split; [done|].
    destruct (Hrej (RecipeError 1) h' h' eq_refl) as (h5 & E5 & -> & Hrev & Hev5).
    eexists. split_and!; [done|done|].
    by rewrite Hev5, Hev.
Defined.

(** C3.  When the recipe of a draftable base modified its root draft and
    returned a value that is neither [undefined] nor the draft, the update
    fails with the DoubleReturn error; the scope has been revoked, no value
    is returned and no event is added. *)
Theorem produce_double_return (this : Immer) (fuel : nat) (base : value)
    (recipe : value → M returned) (listener : option nat) (h h2 : Heap)
    (result : value) (st : DraftState) :
  draftable_in h base →
  recipe (VObj (next_addr h)) (entered base h) = (Ok (Value result), h2) →
  kept_root base h h2 st →
  st_modified st = true →
  result ≠ VUndefined → result ≠ VObj (next_addr h) →
  ∃ h', produce this fuel base recipe listener h = (Throw DoubleReturn, h') ∧
        h' = ImmerScope.revoke_heap (next_scope h) (ready (next_scope h) listener h2) ∧
        all_revoked h' (next_scope h) ∧ events h' = events h2.
Proof.
  intros Hd Hr Hk Hm Hu Hp.
  destruct (kept_root_ready _ _ _ _ listener Hk) as (s & Hroot & _).
  eexists. split.
  - rewrite (produce_returned _ _ _ _ _ _ _ _ Hd Hr). unfold bind at 1.
    by rewrite (processResult_double _ _ _ _ _ _ _ _ Hroot Hm Hu Hp).
  - split_and!; [done|apply revoke_heap_all_revoked|].
    by rewrite revoke_heap_events, ready_events.
Qed.

Lemma produce_double_return_witness :
  ∃ h', produce all_hooks 0 scenario_base
          (recipe_set_return (KStr "a") (VNumber (Fin 2)) (VNumber (Fin 9)))
          (Some 7) scenario_heap = (Throw DoubleReturn, h') ∧
        all_revoked h' (next_scope scenario_heap) ∧ events h' = [].
Proof.
  destruct (produce_double_return all_hooks 0 scenario_base
              (recipe_set_return (KStr "a") (VNumber (Fin 2)) (VNumber (Fin 9)))
              (Some 7) scenario_heap
              ((recipe_set_return (KStr "a") (VNumber (Fin 2)) (VNumber (Fin 9))
                  (VObj (next_addr scenario_heap))
                  (entered scenario_base scenario_heap)).2)
              (VNumber (Fin 9))
              (State 0 true false [(KStr "a", true)] None scenario_base 2 []
                     (Some 3) Mapping false false))
    as (h' & E & _ & Hrev & Hev).
  - reflexivity.
  - reflexivity.
  - repeat split. eexists. repeat split.
  - reflexivity.
  - done.
  - done.
  - exists h'. by split_and!.
Defined.

(** ** Opaque bases and the NOTHING sentinel *)

(** C9, as amended.  For an opaque base [produce] creates neither a scope
    nor a draft: it calls the recipe on the base and changes nothing itself.
    When the recipe returns [undefined] the base is the result; when it
    returns the NOTHING sentinel the result is [undefined]; any other value
    returned is the result. *)
Theorem produce_opaque_base (this : Immer) (fuel : nat) (base : value)
    (recipe : value → M returned) (listener : option nat) (h : Heap) :
  opaque_in h base →
  produce this fuel base recipe listener h
  = match recipe base h with
    | (Ok (Value result), h') =>
        (Ok (Value (if bool_decide (result = VUndefined) then base
                    else if bool_decide (result = VNothing) then VUndefined
                    else result)), h')
    | (Ok (Promise p), h') => (Ok (Promise p), h')
    | (Throw e, h') => (Throw e, h')
    | (OutOfFuel, h') => (OutOfFuel, h')
    end.
Proof.
  intros Ho. unfold produce. unfold bind at 1. rewrite Ho.
  unfold bind. destruct (recipe base h) as [[[result|p]|e|] h']; try done.
  rewrite strict_eq_undefined, strict_eq_nothing.
  by destruct (bool_decide (result = VUndefined)).
Qed.

Lemma produce_opaque_base_witness :
  produce all_hooks 0 (VNumber (Fin 5)) (recipe_return VUndefined) (Some 7) scenario_heap
  = (Ok (Value (VNumber (Fin 5))), scenario_heap).
Proof.
  exact (produce_opaque_base all_hooks 0 (VNumber (Fin 5))
           (recipe_return VUndefined) (Some 7) scenario_heap eq_refl).
Defined.

(** C9, as stated, fails: for an opaque base and a recipe that returns the
    NOTHING sentinel, the result is [undefined], not the value the recipe
    returned. *)
Lemma produce_opaque_nothing :
  opaque_in scenario_heap (VNumber (Fin 5)) ∧
  recipe_return VNothing (VNumber (Fin 5)) scenario_heap
    = (Ok (Value VNothing), scenario_heap) ∧
  VNothing ≠ VUndefined ∧
  produce all_hooks 0 (VNumber (Fin 5)) (recipe_return VNothing) None scenario_heap
    = (Ok (Value VUndefined), scenario_heap) ∧
  produce all_hooks 0 (VNumber (Fin 5)) (recipe_return VNothing) None scenario_heap
    ≠ (Ok (Value VNothing), scenario_heap).
Proof. by split_and!. Qed.

(** C10, as amended.  When the recipe returns the NOTHING sentinel,
    [produce] returns [undefined]: for an opaque base always, for a draftable
    base when the recipe left its root draft unmodified. *)
Theorem produce_nothing_returns_undefined (this : Immer) (fuel : nat)
    (base : value) (recipe : value → M returned) (listener : option nat)
    (h : Heap) :
  (opaque_in h base →
   ∀ h2, recipe base h = (Ok (Value VNothing), h2) →
         produce this fuel base recipe listener h = (Ok (Value VUndefined), h2)) ∧
  (draftable_in h base →
   ∀ h2 st, recipe (VObj (next_addr h)) (entered base h) = (Ok (Value VNothing), h2) →
            kept_root base h h2 st → st_modified st = false →
            ∃ h', produce this fuel base recipe listener h = (Ok (Value VUndefined), h')).
Proof.
  split.
  - intros Ho h2 Hr. by rewrite produce_opaque, Hr.
  - intros Hd h2 st Hr Hk Hm.
    destruct (kept_root_ready _ _ _ _ listener Hk) as (s & Hroot & Hls & _).
    rewrite (produce_returned _ _ _ _ _ _ _ _ Hd Hr). unfold bind at 1.
    rewrite (processResult_replaced_opaque _ _ _ _ _ _ _ _ Hroot Hls Hm);
      [cbn; eauto|done|done|done].
Qed.

Lemma produce_nothing_returns_undefined_witness :
  produce all_hooks 0 (VNumber (Fin 5)) (recipe_return VNothing) None scenario_heap
    = (Ok (Value VUndefined), scenario_heap) ∧
  ∃ h', produce all_hooks 0 scenario_base (recipe_return VNothing) (Some 7) scenario_heap
        = (Ok (Value VUndefined), h').
Proof.
  pose proof (produce_nothing_returns_undefined all_hooks 0 (VNumber (Fin 5))
                (recipe_return VNothing) None scenario_heap) as [H1 _].
  pose proof (produce_nothing_returns_undefined all_hooks 0 scenario_base
                (recipe_return VNothing) (Some 7) scenario_heap) as [_ H2].
  split.
  - by apply H1.
  - apply (H2 eq_refl (entered scenario_base scenario_heap)
              (fresh_state scenario_base scenario_heap Mapping)).
    + reflexivity.
    + repeat split. eexists. repeat split.
    + reflexivity.
Defined.

(** C10, as stated, fails: a recipe that modified its draft and returns the
    NOTHING sentinel does not make [produce] return [undefined]; the update
    fails with the DoubleReturn error. *)
Lemma produce_nothing_after_write :
  draftable_in scenario_heap scenario_base ∧
  (recipe_set_return (KStr "a") (VNumber (Fin 2)) VNothing
     (VObj (next_addr scenario_heap)) (entered scenario_base scenario_heap)).1
    = Ok (Value VNothing) ∧
  (produce all_hooks 2 scenario_base
     (recipe_set_return (KStr "a") (VNumber (Fin 2)) VNothing) None scenario_heap).1
    = Throw DoubleReturn.
Proof. by split_and!. Qed.

(** ** Finalization proceeds by steps *)

Section steps.

Variable scope : scope_id.
Variable under : option (list key).
Variable silent : bool.

Local Abbreviation scope_change := (scope_change scope under).
Local Abbreviation step := (step scope under silent).
Local Abbreviation steps := (steps scope under silent).
Local Abbreviation sound := (sound scope under silent).

Lemma reads_sound {A} (m : M A) : reads m → sound m.
Proof. intros Hm h r h' E. apply Hm in E as ->. apply rtc_refl. Qed.

Lemma sound_ret {A} (a : A) : sound (ret a).
Proof. intros h r h' [= _ <-]. apply rtc_refl. Qed.

Lemma sound_throw {A} e : sound (throw (A := A) e).
Proof. intros h r h' [= _ <-]. apply rtc_refl. Qed.

Lemma sound_out_of_fuel {A} : sound (out_of_fuel (A := A)).
Proof. intros h r h' [= _ <-]. apply rtc_refl. Qed.

Lemma sound_bind {A B} (m : M A) (k : A → M B) :
  sound m → (∀ a, sound (k a)) → sound (bind m k).
Proof.
  intros Hm Hk h r h'. unfold bind.
  destruct (m h) as [[a|e|] h1] eqn:E; intros E'.
  - etrans; [by eapply Hm|by eapply Hk].
  - injection E' as _ <-. by eapply Hm.
  - injection E' as _ <-. by eapply Hm.
Qed.

Lemma sound_when (b : bool) (m : M unit) : sound m → sound (when b m).
Proof. destruct b; [done|]. intros _. apply sound_ret. Qed.

Lemma sound_for_each {A} (l : list A) (body : A → M unit) :
  (∀ x, sound (body x)) → sound (for_each l body).
Proof.
  intros Hb. induction l as [|x l IH]; cbn.
  - apply sound_ret.
  - apply sound_bind; [apply Hb|]. by intros _.
Qed.

Lemma sound_map_each {A B} (l : list A) (f : A → M B) :
  (∀ x, sound (f x)) → sound (map_each l f).
Proof.
  intros Hf. induction l as [|x l IH]; cbn.
  - apply sound_ret.
  - apply sound_bind; [apply Hf|]. intros y.
    apply sound_bind; [apply IH|]. intros ys. apply sound_ret.
Qed.

Lemma reads_get_cell a : reads (get_cell a).
Proof. intros h r h'. unfold get_cell. destruct (cells h !! a); by intros [= _ <-]. Qed.

Lemma reads_bind {A B} (m : M A) (k : A → M B) :
  reads m → (∀ a, reads (k a)) → reads (bind m k).
Proof.
  intros Hm Hk h r h'. unfold bind.
  destruct (m h) as [[a|e|] h1] eqn:E; intros E'.
  - apply Hm in E as ->. by eapply Hk.
  - injection E' as _ <-. by eapply Hm.
  - injection E' as _ <-. by eapply Hm.
Qed.

Lemma reads_ret {A} (a : A) : reads (ret a).
Proof. by intros h r h' [= _ <-]. Qed.

Lemma reads_throw {A} e : reads (throw (A := A) e).
Proof. by intros h r h' [= _ <-]. Qed.

Lemma reads_get_object a : reads (get_object a).
Proof.
  apply reads_bind; [apply reads_get_cell|].
  intros [o|st]; [apply reads_ret|apply reads_throw].
Qed.

Lemma reads_get_state s : reads (get_state s).
Proof.
  apply reads_bind; [apply reads_get_cell|].
  intros [o|st]; [apply reads_throw|apply reads_ret].
Qed.

Lemma reads_get_scope sc : reads (get_scope sc).
Proof. intros h r h'. unfold get_scope. destruct (scopes h !! sc); by intros [= _ <-]. Qed.

Lemma reads_get_heap : reads get_heap.
Proof. by intros h r h' [= _ <-]. Qed.

Lemma reads_draft_state v : reads (draft_state v).
Proof. intros h r h'. apply draft_state_heap. Qed.

Lemma reads_isDraft v : reads (isDraft v).
Proof. intros h r h'. apply isDraft_heap. Qed.

Lemma reads_isDraftable v : reads (isDraftable v).
Proof. intros h r h'. apply isDraftable_heap. Qed.

Lemma reads_isArray v : reads (isArray v).
Proof. intros h r h'. apply isArray_heap. Qed.

Lemma reads_isFrozen v : reads (isFrozen v).
Proof.
  destruct v; try apply reads_ret.
  apply reads_bind; [apply reads_get_cell|].
  intros [o|st]; [apply reads_ret|].
  destruct (st_revoked st); [apply reads_throw|apply reads_ret].
Qed.

Lemma reads_isEnumerable a k : reads (isEnumerable a k).
Proof. apply reads_bind; [apply reads_get_object|]. intros o. apply reads_ret. Qed.

Lemma reads_state_assigned state prop : reads (state_assigned state prop).
Proof.
  destruct state; [|apply reads_throw].
  apply reads_bind; [apply reads_get_state|]. intros st. apply reads_ret.
Qed.

Lemma sound_assign_prop a k v : sound (assign_prop a k v).
Proof.
  intros h r h'. unfold assign_prop, bind.
  destruct (get_object a h) as [[o|e|] h1] eqn:E;
    pose proof (reads_get_object _ _ _ _ E) as ->; try (intros [= _ <-]; apply rtc_refl).
  destruct (o_frozen o) eqn:Ef; intros [= _ <-]; [apply rtc_refl|].
  apply rtc_once. unfold get_object, bind, get_cell in E.
  destruct (cells h !! a) as [[o'|]|] eqn:Ec; try discriminate.
  injection E as ->. by eapply step_write.
Qed.

Lemma sound_defineProperty a k v : sound (defineProperty a k v).
Proof.
  intros h r h'. unfold defineProperty, bind.
  destruct (get_object a h) as [[o|e|] h1] eqn:E;
    pose proof (reads_get_object _ _ _ _ E) as ->; try (intros [= _ <-]; apply rtc_refl).
  destruct (o_frozen o) eqn:Ef; intros [= _ <-]; [apply rtc_refl|].
  apply rtc_once. unfold get_object, bind, get_cell in E.
  destruct (cells h !! a) as [[o'|]|] eqn:Ec; try discriminate.
  injection E as ->. by eapply step_write.
Qed.

Lemma sound_alloc c : sound (alloc c).
Proof.
  intros h r h' E. apply rtc_once.
  replace h' with (alloc c h).2 by by rewrite E. apply step_alloc.
Qed.

Lemma sound_emit e :
  silent = false →
  (∀ l ps inv, e ≠ PatchListener l ps inv) → sound (emit e).
Proof. intros Hs He h r h' [= _ <-]. apply rtc_once. by apply step_event. Qed.

Lemma sound_update_scope sc f :
  (∀ s, scope_change sc s (f s)) → sound (update_scope sc f).
Proof.
  intros Hf h r h'. unfold update_scope, bind, get_scope.
  destruct (scopes h !! sc) as [s|] eqn:E; intros [= _ <-]; [|apply rtc_refl].
  apply rtc_once. by eapply step_scope.
Qed.

Lemma sound_set_finalized s : sound (update_state s (st_set_finalized true)).
Proof.
  intros h r h'. unfold update_state, bind, get_state, bind, get_cell.
  destruct (cells h !! s) as [[o|st]|] eqn:E; intros [= _ <-]; try apply rtc_refl.
  apply rtc_once. by eapply step_finalized.
Qed.

Lemma sound_set_cached s k d : sound (update_state s (st_set_cached k d)).
Proof.
  intros h r h'. unfold update_state, bind, get_state, bind, get_cell.
  destruct (cells h !! s) as [[o|st]|] eqn:E; intros [= _ <-]; try apply rtc_refl.
  apply rtc_once. by eapply step_cached.
Qed.

Lemma sound_createProxy base parent : sound (createProxy base parent).
Proof.
  unfold createProxy. apply sound_bind.
  { destruct parent.
    - apply sound_bind; [apply reads_sound, reads_get_state|]. intros st. apply sound_ret.
    - apply sound_bind; [apply reads_sound, reads_get_heap|]. intros h.
      destruct (current h); [apply sound_ret|apply sound_throw]. }
  intros sc. apply sound_bind; [apply reads_sound, reads_isArray|]. intros arr.
  apply sound_bind; [apply reads_sound, reads_get_heap|]. intros h.
  apply sound_bind; [apply sound_alloc|]. intros _.
  apply sound_bind; [|intros _; apply sound_ret].
  apply sound_update_scope. intros s. constructor.
Qed.

Lemma sound_read_with get s k :
  (∀ v k, sound (get v k)) → sound (read_with get s k).
Proof.
  intros Hget. unfold read_with.
  apply sound_bind; [apply reads_sound, reads_get_state|]. intros st.
  destruct (alist_get k (st_drafts st)); [apply sound_ret|].
  apply sound_bind.
  { destruct (st_copy st); [|apply Hget].
    apply sound_bind; [apply reads_sound, reads_get_object|]. intros o. apply sound_ret. }
  intros v. apply sound_bind; [apply reads_sound, reads_isDraftable|]. intros dr.
  apply sound_bind; [apply reads_sound, reads_isFrozen|]. intros fr.
  destruct (_ && _); [|apply sound_ret].
  apply sound_bind; [apply sound_createProxy|]. intros d.
  apply sound_bind; [apply sound_set_cached|]. intros _.
  apply sound_bind; [|intros _; apply sound_ret].
  destruct (st_copy st); [apply sound_assign_prop|apply sound_ret].
Qed.

Lemma sound_get_prop fuel v k : sound (get_prop fuel v k).
Proof.
  revert v k. induction fuel as [|f IH]; intros v k;
    (destruct v; cbn [get_prop]; try apply sound_ret; try apply sound_throw;
     apply sound_bind; [apply reads_sound, reads_get_cell|];
     intros [o|st]; [apply sound_ret|];
     destruct (st_revoked st); [apply sound_throw|]).
  - apply sound_out_of_fuel.
  - by apply sound_read_with.
Qed.

Lemma sound_read fuel s k : sound (read fuel s k).
Proof. apply sound_read_with. intros. apply sound_get_prop. Qed.

Lemma sound_state_base_prop fuel state prop : sound (state_base_prop fuel state prop).
Proof.
  destruct state; [|apply sound_throw].
  apply sound_bind; [apply reads_sound, reads_get_state|]. intros st.
  apply sound_get_prop.
Qed.

Lemma sound_describe fuel v : sound (describe fuel v).
Proof.
  revert v. induction fuel as [|f IH]; intros v;
    (destruct v; cbn [describe]; try apply sound_throw;
     apply sound_bind; [apply reads_sound, reads_get_cell|];
     intros [o|st]; [apply sound_ret|];
     destruct (st_revoked st); [apply sound_throw|]).
  - apply sound_out_of_fuel.
  - apply sound_bind.
    { destruct (st_copy st); [|apply IH].
      apply sound_bind; [apply reads_sound, reads_get_object|]. intros o. apply sound_ret. }
    intros src. apply sound_bind; [|intros; apply sound_ret].
    apply sound_map_each. intros e.
    apply sound_bind; [apply sound_read|]. intros x. apply sound_ret.
Qed.

Lemma within_app q l : within under q → within under (q ++ l).
Proof.
  unfold within. destruct under; [|done]. intros Hp. by apply prefix_app_r.
Qed.

Lemma sound_push_patch p inv :
  within under (path p) → within under (path inv) →
  sound (push_patch scope p inv).
Proof. intros Hp Hi. apply sound_update_scope. intros s. by constructor. Qed.

Lemma sound_generatePatches fuel s basePath :
  within under basePath → sound (generatePatches fuel s basePath scope).
Proof.
  intros Hq. unfold generatePatches.
  assert (∀ k, within under (basePath ++ [k])) as Hw
    by (intros k; by apply within_app).
  apply sound_bind; [apply reads_sound, reads_get_state|]. intros st.
  apply sound_bind; [apply sound_describe|]. intros old.
  apply sound_bind.
  { destruct (st_copy st); [|apply sound_throw].
    apply sound_bind; [apply reads_sound, reads_get_object|]. intros o. apply sound_ret. }
  intros new. destruct (st_kind st).
  - destruct (bool_decide _).
    + apply sound_bind; [apply sound_alloc|]. intros tail.
      apply sound_push_patch; apply Hw.
    + apply sound_for_each. intros i. cbn zeta.
      destruct (is_ _ _); [apply sound_ret|].
      destruct (bool_decide _); apply sound_push_patch; apply Hw.
  - apply sound_for_each. intros e. cbn zeta.
    destruct e.2; [destruct (alist_get _ _)|]; apply sound_push_patch; apply Hw.
Qed.

Lemma sound_each (v : value) (cb : key → value → addr → M unit) :
  (∀ k x a, sound (cb k x a)) → sound (each v cb).
Proof.
  intros Hcb. destruct v; try apply sound_throw. cbn [each].
  apply sound_bind; [apply reads_sound, reads_get_object|]. intros o.
  apply sound_for_each. intros k.
  apply sound_bind; [apply reads_sound, reads_get_object|]. intros o'. apply Hcb.
Qed.

End steps.

Section finalize_steps.

Variable this : Immer.
Variable scope : scope_id.
Variable under : option (list key).

Local Abbreviation sound := (sound scope under false).

(** The copy of a node is frozen only while the scope may auto-freeze. *)
Lemma sound_freeze_guarded {A} (b : bool) (s : addr) (k : Scope → M A) :
  (∀ sc, sound (k sc)) →
  sound (let* sc := get_scope scope in
         when (b && canAutoFreeze sc)
           (let* st' := get_state s in
            match st_copy st' with
            | Some c => freeze c
            | None => ret tt
            end) >>
         k sc).
Proof.
  intros Hk h r h'. unfold bind at 1.
  destruct (get_scope scope h) as [[sc|e|] h1] eqn:E;
    pose proof (reads_get_scope _ _ _ _ E) as ->;
    try (intros [= _ <-]; apply rtc_refl).
  unfold get_scope in E. destruct (scopes h !! scope) as [sc'|] eqn:Es; [|done].
  injection E as ->.
  destruct (b && canAutoFreeze sc) eqn:Eb; cbn [when];
    [|unfold bind at 1; cbn [ret]; apply Hk].
  apply andb_true_iff in Eb as [_ Eb].
  unfold bind at 1. unfold bind at 1.
  destruct (get_state s h) as [[st'|e|] h3] eqn:E;
    pose proof (reads_get_state _ _ _ _ E) as ->;
    try (intros [= _ <-]; apply rtc_refl).
  destruct (st_copy st') as [c|]; [|cbn [ret]; apply Hk].
  unfold freeze, bind at 1, get_object, bind at 1, get_cell.
  destruct (cells h !! c) as [[o|]|] eqn:Ec; cbn [throw ret];
    try (intros [= _ <-]; apply rtc_refl).
  cbn [put_cell modify_heap]. intros E'.
  etrans; [|by eapply Hk]. apply rtc_once. by eapply step_freeze.
Qed.

Lemma sound_finalizeProperty fin fuel state root rootPath needPatches prop v parent :
  (needPatches = true → path_within under rootPath) →
  (∀ v p, path_within under p → sound (fin v p scope)) →
  sound (finalizeProperty this fin fuel state root rootPath scope needPatches
           prop v parent).
Proof.
  intros Hnp Hfin. revert prop v parent.
  induction fuel as [|f IH]; intros prop v parent; cbn [finalizeProperty];
    (destruct (strict_eq v (VObj parent)); [apply sound_throw|];
     apply sound_bind; [apply reads_sound, reads_isDraft|]; intros isd;
     apply sound_bind;
     [|intros [v'|]; [destruct state; [apply sound_when, sound_emit; [done|by intros]|apply sound_ret]
                     |apply sound_ret]];
     destruct isd;
     [ apply sound_bind;
       [destruct (_ && _); [apply reads_sound, reads_state_assigned|apply sound_ret]|];
       intros assigned;
       apply sound_bind;
       [apply Hfin; destruct needPatches;
        [|by rewrite andb_false_r; intros q ?];
        destruct (_ && _ && _); [|by intros q ?];
        intros q Hq; destruct rootPath as [rp|]; [|done];
        injection Hq as <-; by apply within_app, Hnp|];
       intros v';
       apply sound_bind; [apply reads_sound, reads_isDraft|]; intros isd';
       apply sound_bind;
       [apply sound_when, sound_update_scope; intros s; by constructor|]; intros _;
       apply sound_bind; [apply reads_sound, reads_isArray|]; intros arr;
       apply sound_bind;
       [destruct arr; [apply sound_ret|apply reads_sound, reads_isEnumerable]|];
       intros enum;
       apply sound_bind;
       [destruct enum; [apply sound_assign_prop|apply sound_defineProperty]|]; intros _;
       apply sound_bind; [|intros; apply sound_ret];
       destruct (_ && _);
       [apply sound_bind; [apply sound_state_base_prop|intros; apply sound_ret]
       |apply sound_ret]
     | apply sound_bind;
       [destruct (_ && _);
        [apply sound_bind; [apply sound_state_base_prop|intros; apply sound_ret]
        |apply sound_ret]|];
       intros unchanged; destruct unchanged; [apply sound_ret|];
       apply sound_bind; [apply reads_sound, reads_isDraftable|]; intros draftable;
       apply sound_bind;
       [destruct draftable; [apply reads_sound, reads_isFrozen|apply sound_ret]|];
       intros frozen;
       apply sound_bind; [|intros; apply sound_ret];
       destruct (_ && _); [|apply sound_ret] ]).
  - apply sound_out_of_fuel.
  - apply sound_each. intros. apply IH.
Qed.

Lemma sound_finalizeTree fin fuel root rootPath :
  path_within under rootPath →
  (∀ v p, path_within under p → sound (fin v p scope)) →
  sound (finalizeTree this fin fuel root rootPath scope).
Proof.
  intros Hq Hfin. unfold finalizeTree.
  apply sound_bind; [apply reads_sound, reads_draft_state|]. intros state.
  apply sound_bind.
  { destruct state; [|apply sound_ret].
    apply sound_bind; [apply reads_sound, reads_get_state|]. intros st. apply sound_ret. }
  intros root'. apply sound_bind; [apply reads_sound, reads_get_scope|]. intros sc.
  apply sound_bind; [|intros; apply sound_ret].
  apply sound_each. intros. by apply sound_finalizeProperty.
Qed.

Lemma sound_finalize fuel draft path :
  path_within under path →
  sound (finalize this fuel draft path scope).
Proof.
  revert draft path. induction fuel as [|f IH]; intros draft path Hq;
    cbn [finalize];
    (apply sound_bind; [apply reads_sound, reads_draft_state|]; intros [s|];
     [ apply sound_bind; [apply reads_sound, reads_get_state|]; intros st;
       destruct (negb (bool_decide _)); [apply sound_ret|];
       destruct (negb (st_modified st)); [apply sound_ret|];
       apply sound_bind;
       [|intros _; apply sound_bind; [apply reads_sound, reads_get_state|];
         intros; apply sound_ret];
       destruct (negb (st_finalized st)); [|apply sound_ret]
     | apply sound_bind; [apply reads_sound, reads_isFrozen|]; intros frozen;
       destruct frozen; [apply sound_ret|] ]).
  - apply sound_out_of_fuel.
  - apply sound_out_of_fuel.
  - apply sound_bind; [apply sound_set_finalized|]. intros _.
    apply sound_bind; [by apply sound_finalizeTree|]. intros _.
    apply sound_bind.
    { apply sound_when. apply sound_bind; [apply reads_sound, reads_get_state|].
      intros st'. apply sound_for_each. intros e.
      apply sound_when, sound_emit; [done|by intros]. }
    intros _. apply sound_bind; [apply sound_when, sound_emit; [done|by intros]|]. intros _.
    apply sound_freeze_guarded. intros sc.
    destruct path as [p|]; [|apply sound_ret].
    apply sound_when, sound_generatePatches. by apply Hq.
  - apply sound_finalizeTree; [by intros q ?|]. intros. by apply IH.
Qed.

End finalize_steps.

(** Whatever [finalize] does to the heap is a sequence of steps, which
    record patches within the path given only. *)
Lemma finalize_steps this fuel draft path scope h r h' :
  finalize this fuel draft path scope h = (r, h') →
  steps scope path false h h'.
Proof. apply sound_finalize. intros q ->. by unfold within. Qed.

(** ** What steps preserve *)

#[global] Instance same_state_preorder : PreOrder same_state.
Proof.
  split.
  - intros st. by repeat split.
  - intros x y z Hxy Hyz. unfold same_state in *.
    destruct_and!. repeat split; try congruence. auto.
Qed.

Lemma fmap_app_nil {A} (o : option (list A)) : (λ l, l ++ []) <$> o = o.
Proof. destruct o as [l|]; [|done]. cbn. by rewrite app_nil_r. Qed.

Lemma fmap_app_app {A} (o : option (list A)) l1 l2 :
  (λ l, l ++ l2) <$> ((λ l, l ++ l1) <$> o) = (λ l, l ++ (l1 ++ l2)) <$> o.
Proof. destruct o as [l|]; [|done]. cbn. by rewrite app_assoc. Qed.

#[global] Instance same_scope_preorder under : PreOrder (same_scope under).
Proof.
  split.
  - intros s. unfold same_scope, recorded_within. split_and!; try done.
    exists [], []. by rewrite !fmap_app_nil.
  - intros x y z Hxy Hyz. unfold same_scope, recorded_within in *.
    destruct Hxy as (H1 & H2 & H3 & H4 & ps & invs & H5 & H6 & H7 & H8).
    destruct Hyz as (H1' & H2' & H3' & H4' & ps' & invs' & H5' & H6' & H7' & H8').
    split_and!; try congruence.
    + by etrans.
    + auto.
    + exists (ps ++ ps'), (invs ++ invs').
      rewrite H5', H5, H6', H6, !fmap_app_app.
      split_and!; try done; by apply Forall_app.
Qed.

(** A scope keeps having, or not having, its patch accumulators. *)
Lemma same_scope_patches under s s' :
  same_scope under s s' → is_Some (patches s') ↔ is_Some (patches s).
Proof.
  intros (_ & _ & _ & _ & ps & invs & -> & _). by rewrite fmap_is_Some.
Qed.

(** Without a path nothing is recorded. *)
Lemma same_scope_quiet s s' :
  same_scope None s s' →
  patches s' = patches s ∧ inversePatches s' = inversePatches s.
Proof.
  intros (_ & _ & _ & _ & ps & invs & -> & -> & Hps & Hinvs).
  destruct ps as [|p ps]; [|by apply Forall_cons_1 in Hps as [[] _]].
  destruct invs as [|p invs]; [|by apply Forall_cons_1 in Hinvs as [[] _]].
  by rewrite !fmap_app_nil.
Qed.

Section step_invariants.

Variable scope : scope_id.
Variable under : option (list key).
Variable silent : bool.

Lemma scope_change_same sc s s' :
  scope_change scope under sc s s' → same_scope under s s'.
Proof.
  intros [d | Hsc | p inv Hsc Hp Hinv]; unfold same_scope, recorded_within; cbn.
  - split_and!; try done; [by apply prefix_app_r|].
    exists [], []. by rewrite !fmap_app_nil.
  - split_and!; try done. exists [], []. by rewrite !fmap_app_nil.
  - split_and!; try done. exists [p], [inv].
    split_and!; try done; by apply Forall_singleton.
Qed.

Lemma step_fresh h h' : step scope under silent h h' → fresh_heap h → fresh_heap h'.
Proof.
  intros Hstep Hf. destruct Hstep; intros b Hb; cbn in *;
    try (rewrite lookup_insert_ne; [by apply Hf|]; intros ->;
         rewrite Hf in * by done; done);
    try by apply Hf.
  rewrite lookup_insert_ne by lia. apply Hf. lia.
Qed.

Lemma step_draft h h' d st :
  step scope under silent h h' → fresh_heap h →
  cells h !! d = Some (CDraft st) →
  ∃ st', cells h' !! d = Some (CDraft st') ∧ same_state st st'.
Proof.
  intros Hstep Hf Hd. destruct Hstep; cbn.
  - exists st. split; [|done]. rewrite lookup_insert_ne; [done|].
    intros <-. by rewrite Hf in Hd.
  - destruct (decide (s = d)) as [->|Hne].
    + rewrite lookup_insert_eq. simplify_eq. eexists. split; [done|]. by repeat split.
    + rewrite lookup_insert_ne by done. by exists st.
  - destruct (decide (s = d)) as [->|Hne].
    + rewrite lookup_insert_eq. simplify_eq. eexists. split; [done|]. by repeat split.
    + rewrite lookup_insert_ne by done. by exists st.
  - exists st. split; [|done]. rewrite lookup_insert_ne; [done|]. intros ->. congruence.
  - exists st. split; [|done]. rewrite lookup_insert_ne; [done|]. intros ->. congruence.
  - by exists st.
  - by exists st.
Qed.

Lemma step_object h h' a o :
  step scope under silent h h' → fresh_heap h →
  cells h !! a = Some (CObj o) →
  ∃ o', cells h' !! a = Some (CObj o') ∧ o_class o' = o_class o ∧
        (o_frozen o = true → o' = o) ∧
        ((∃ s, scopes h !! scope = Some s ∧ canAutoFreeze s = false) →
         o_frozen o' = o_frozen o).
Proof.
  intros Hstep Hf Ha. destruct Hstep as [h c|h s st Hs|h s st k d Hs|h b o1 k v e Hb Hfr
                                        |h b o1 s Hb Hs Hcaf|h sc s s' Hs Hch|h e Hsl He]; cbn.
  - exists o. split; [|done]. rewrite lookup_insert_ne; [done|].
    intros <-. by rewrite Hf in Ha.
  - exists o. split; [|done]. rewrite lookup_insert_ne; [done|]. intros ->. congruence.
  - exists o. split; [|done]. rewrite lookup_insert_ne; [done|]. intros ->. congruence.
  - destruct (decide (b = a)) as [->|Hne].
    + rewrite lookup_insert_eq. simplify_eq. eexists. split; [done|].
      split_and!; [done| |done]. congruence.
    + rewrite lookup_insert_ne by done. by exists o.
  - destruct (decide (b = a)) as [->|Hne].
    + rewrite lookup_insert_eq. simplify_eq. eexists. split; [done|].
      split_and!; [done| |].
      * intros Hfr. destruct o1; cbn in *. by subst.
      * intros (s' & Hs' & Hcaf'). congruence.
    + rewrite lookup_insert_ne by done. by exists o.
  - by exists o.
  - by exists o.
Qed.

Lemma step_scope_kept h h' sc s :
  step scope under silent h h' → scopes h !! sc = Some s →
  ∃ s', scopes h' !! sc = Some s' ∧ same_scope under s s'.
Proof.
  intros Hstep Hsc. destruct Hstep as [| | | | |h sc' s1 s1' Hs Hch|]; cbn;
    try by exists s.
  destruct (decide (sc' = sc)) as [->|Hne].
  - rewrite lookup_insert_eq. simplify_eq. eexists. split; [done|].
    by eapply scope_change_same.
  - rewrite lookup_insert_ne by done. by exists s.
Qed.

Lemma step_events h h' :
  step scope under silent h h' →
  ∃ evs, events h' = events h ++ evs ∧ Forall hook_event evs ∧
         (silent = true → evs = []).
Proof.
  intros Hstep. destruct Hstep; cbn; try (exists []; by rewrite app_nil_r).
  exists [e]. split_and!; [done|by constructor|congruence].
Qed.

Lemma steps_fresh h h' : steps scope under silent h h' → fresh_heap h → fresh_heap h'.
Proof. induction 1; [done|]. intros Hf. eauto using step_fresh. Qed.

Lemma steps_draft h h' d st :
  steps scope under silent h h' → fresh_heap h →
  cells h !! d = Some (CDraft st) →
  ∃ st', cells h' !! d = Some (CDraft st') ∧ same_state st st'.
Proof.
  intros Hsteps. revert st. induction Hsteps as [h|h1 h2 h3 Hstep _ IH]; intros st Hf Hd.
  - by exists st.
  - destruct (step_draft _ _ _ _ Hstep Hf Hd) as (st2 & Hd2 & Hsame).
    destruct (IH st2 (step_fresh _ _ Hstep Hf) Hd2) as (st3 & Hd3 & Hsame').
    exists st3. split; [done|]. by etrans.
Qed.

Lemma steps_scope_kept h h' sc s :
  steps scope under silent h h' → scopes h !! sc = Some s →
  ∃ s', scopes h' !! sc = Some s' ∧ same_scope under s s'.
Proof.
  intros Hsteps. revert s. induction Hsteps as [h|h1 h2 h3 Hstep _ IH]; intros s Hs.
  - by exists s.
  - destruct (step_scope_kept _ _ _ _ Hstep Hs) as (s2 & Hs2 & Hsame).
    destruct (IH s2 Hs2) as (s3 & Hs3 & Hsame').
    exists s3. split; [done|]. by etrans.
Qed.

Lemma steps_events h h' :
  steps scope under silent h h' →
  ∃ evs, events h' = events h ++ evs ∧ Forall hook_event evs ∧
         (silent = true → evs = []).
Proof.
  induction 1 as [h|h1 h2 h3 Hstep _ IH].
  - exists []. by rewrite app_nil_r.
  - destruct (step_events _ _ Hstep) as (e1 & E1 & F1 & S1).
    destruct IH as (e2 & E2 & F2 & S2). exists (e1 ++ e2).
    split_and!; [by rewrite E2, E1, app_assoc|by apply Forall_app|].
    intros Hs. by rewrite S1, S2.
Qed.

Lemma steps_silent h h' :
  silent = true → steps scope under silent h h' → events h' = events h.
Proof.
  intros Hs Hsteps. destruct (steps_events _ _ Hsteps) as (evs & E & _ & Hnil).
  by rewrite E, (Hnil Hs), app_nil_r.
Qed.

(** Once the scope may not auto-freeze, nothing is frozen any more. *)
Lemma steps_not_frozen h h' s a o :
  steps scope under silent h h' → fresh_heap h →
  scopes h !! scope = Some s → canAutoFreeze s = false →
  cells h !! a = Some (CObj o) →
  ∃ o', cells h' !! a = Some (CObj o') ∧ o_frozen o' = o_frozen o.
Proof.
  intros Hsteps. revert s o.
  induction Hsteps as [h|h1 h2 h3 Hstep _ IH]; intros s o Hf Hs Hcaf Ha.
  - by exists o.
  - destruct (step_object _ _ _ _ Hstep Hf Ha) as (o2 & Ha2 & _ & _ & Hfr).
    destruct (step_scope_kept _ _ _ _ Hstep Hs) as (s2 & Hs2 & Hsame).
    destruct (IH s2 o2 (step_fresh _ _ Hstep Hf) Hs2) as (o3 & Ha3 & Hfr'); [|done|].
    { by apply Hsame. }
    exists o3. split; [done|]. rewrite Hfr', Hfr; [done|]. eauto.
Qed.

End step_invariants.

(** ** Whole-value replacement *)

Lemma bind_assoc {A B C} (m : M A) (f : A → M B) (k : B → M C) h :
  bind (bind m f) k h = bind m (λ x, bind (f x) k) h.
Proof. unfold bind. by destruct (m h) as [[a|e|] h1]. Qed.

Lemma finalize_result_steps this fuel result scope h r h' :
  finalize_result this fuel result scope h = (r, h') →
  steps scope None false h h'.
Proof.
  revert h r h'. apply sound_bind; [apply reads_sound, reads_isDraftable|].
  intros [|]; [|apply sound_ret]. by apply sound_finalize.
Qed.

Section replacement.

Variable this : Immer.

Lemma processResult_replaced fuel sc d st s h result r' hB :
  root_of h sc d st s → listening s → st_modified st = false → fresh_heap h →
  result ≠ VUndefined → result ≠ VObj d →
  finalize_result this fuel result sc h = (Ok r', hB) →
  ∃ sB, scopes hB !! sc = Some sB ∧ same_scope None s sB ∧
    processResult this fuel result sc h
    = (Ok (if strict_eq r' VNothing then VUndefined else r'),
       notified (replaced_scope sB r' (st_base st))
         (ImmerScope.revoke_heap sc (record_replace sc sB r' (st_base st) hB))).
Proof.
  intros (Hl & Hs & Hd) Hls Hm Hf Hu Hr Hfin.
  pose proof (finalize_result_steps _ _ _ _ _ _ _ Hfin) as Hsteps.
  destruct (steps_scope_kept _ _ _ _ _ _ _ Hsteps Hs) as (sB & HsB & Hsame).
  destruct (steps_draft _ _ _ _ _ _ _ Hsteps Hf (proj1 Hl)) as (stB & HdB & HstB).
  assert (live_draft hB d stB) as HlB.
  { split; [done|]. destruct HstB as (_&_&_&_&_&_&_&_&->&_). apply Hl. }
  exists sB. split; [done|]. split; [done|].
  unfold processResult.
  unfold bind at 1. rewrite (get_scope_eq _ _ _ Hs).
  destruct (drafts s) as [|d' ds] eqn:Eds; [done|]. injection Hd as ->.
  rewrite strict_eq_undefined, strict_eq_obj, !bool_decide_eq_false_2 by done.
  cbn [negb andb]. unfold willFinalize.
  unfold bind at 1. cbn [ret]. unfold bind at 1. unfold bind at 1.
  rewrite (draft_state_live _ _ _ Hl).
  unfold bind at 1. rewrite (get_state_eq _ _ _ (proj1 Hl)), Hm.
  rewrite <- bind_assoc. fold (finalize_result this fuel result sc).
  unfold bind at 1. rewrite Hfin.
  unfold bind at 1. rewrite (get_scope_eq _ _ _ HsB).
  assert (st_base stB = st_base st) as Hbase by apply HstB.
  unfold record_replace, replaced_scope.
  destruct (bool_decide (is_Some (patches sB))) eqn:Ep; cbn [when].
  - unfold bind at 1. unfold bind at 1. rewrite (draft_state_live _ _ _ HlB).
    unfold bind at 1. rewrite (get_state_eq _ _ _ HdB).
    unfold push_patch, update_scope. unfold bind at 1.
    rewrite (get_scope_eq _ _ _ HsB). cbn [modify_heap]. unfold bind at 1. cbn [ret].
    rewrite Hbase. apply processResult_end.
    + cbn. by rewrite lookup_insert_eq.
    + unfold listening in *. cbn. intros _.
      pose proof (same_scope_patches _ _ _ Hsame) as Hp.
      destruct Hsame as (_ & _ & -> & _). apply Hls, Hp.
      by apply bool_decide_eq_true_1 in Ep.
  - unfold bind at 1. cbn [ret]. unfold bind at 1. cbn [ret].
    apply processResult_end; [done|].
    intros Hp. by apply bool_decide_eq_false_1 in Ep.
Qed.

End replacement.

(** The general case: whatever the finalization of the returned value does,
    so long as it completes. *)
Lemma produce_replaced (this : Immer) (fuel : nat) (base : value)
    (recipe : value → M returned) (l : nat) (h h2 hB : Heap)
    (result r' : value) (st : DraftState) :
  draftable_in h base →
  recipe (VObj (next_addr h)) (entered base h) = (Ok (Value result), h2) →
  kept_root base h h2 st → st_modified st = false → fresh_heap h2 →
  result ≠ VUndefined → result ≠ VObj (next_addr h) →
  finalize_result this fuel result (next_scope h) (ready (next_scope h) (Some l) h2)
    = (Ok r', hB) →
  ∃ h' evs,
    produce this fuel base recipe (Some l) h
      = (Ok (Value (if strict_eq r' VNothing then VUndefined else r')), h') ∧
    events hB = events h2 ++ evs ∧
    events h' = events h2 ++ evs ++
                [PatchListener l [Patch Replace [] (Some r')]
                                 [Patch Replace [] (Some base)]] ∧
    Forall hook_event evs.
Proof.
  intros Hd Hr Hk Hm Hf Hu Hp Hfin.
  destruct (kept_root_ready _ _ _ _ (Some l) Hk) as (s & Hroot & Hls & Hps & Hips & Hpl).
  assert (fresh_heap (ready (next_scope h) (Some l) h2)) as Hf'.
  { intros a Ha. rewrite ready_cells. apply Hf.
    unfold ready, ImmerScope.usePatches_heap, ImmerScope.leave_heap in Ha. cbn in Ha.
    destruct (scopes h2 !! next_scope h); [|done]. by destruct (decide _). }
  destruct (processResult_replaced this _ _ _ _ _ _ _ _ _ Hroot Hls Hm Hf' Hu Hp Hfin)
    as (sB & HsB & Hsame & E).
  pose proof (finalize_result_steps _ _ _ _ _ _ _ Hfin) as Hsteps.
  destruct (steps_events _ _ _ _ _ Hsteps) as (evs & Hev & Hhook & _).
  rewrite ready_events in Hev.
  destruct (same_scope_quiet _ _ Hsame) as [Hp1 Hp2].
  destruct Hsame as (_ & _ & Hl' & _).
  eexists _, evs. split_and!; [| done | |done].
  - rewrite (produce_returned _ _ _ _ _ _ _ _ Hd Hr). unfold bind at 1.
    rewrite E. reflexivity.
  - destruct Hk as (_ & _ & Hb & _).
    unfold notified, replaced_scope, record_replace.
    rewrite bool_decide_eq_true_2 by (rewrite Hp1, Hps; by eexists).
    cbn. rewrite Hp1, Hps, Hp2, Hips, Hl', Hpl. cbn.
    rewrite revoke_heap_events. cbn. rewrite Hev, Hb.
    by rewrite app_assoc.
Qed.

(** Freshness of a given heap can be checked cell by cell. *)
Lemma fresh_heap_check h :
  bool_decide (map_Forall (λ a _, a < next_addr h) (cells h)) = true → fresh_heap h.
Proof.
  intros Hc%bool_decide_eq_true_1 a Ha.
  destruct (cells h !! a) as [c|] eqn:E; [|done].
  apply Hc in E. lia.
Qed.

(** *** Plain data finalizes to itself *)

Lemma for_each_unchanged {A} (l : list A) (body : A → M unit) h :
  (∀ x, x ∈ l → body x h = (Ok tt, h)) → for_each l body h = (Ok tt, h).
Proof.
  induction l as [|x l IH]; intros Hb; cbn [for_each]; [done|].
  unfold bind. rewrite Hb by by left. apply IH. intros y Hy. apply Hb. by right.
Qed.

Lemma value_obj_or_scalar (v : value) : (∃ a, v = VObj a) ∨ (∀ a, v ≠ VObj a).
Proof. destruct v; eauto. Qed.

Section plain.

Variable this : Immer.

(** Outside a draft, a scalar property needs no work. *)
Lemma finalizeProperty_scalar fin fuel root rootPath scope needPatches prop v parent h :
  (∀ a, v ≠ VObj a) →
  finalizeProperty this fin fuel None root rootPath scope needPatches prop v parent h
  = (Ok tt, h).
Proof.
  intros Hv.
  assert (isDraft v h = (Ok false, h)) as Hd.
  { unfold isDraft. destruct v as [| |[]|[| |[]]|[]| |a]; try done.
    by destruct (Hv a). }
  assert (isDraftable v h = (Ok false, h)) as Hdr by by apply opaque_scalar.
  destruct fuel; cbn [finalizeProperty].
  all: rewrite strict_eq_obj, bool_decide_eq_false_2 by done.
  all: unfold bind at 1; rewrite Hd.
  all: assert (bool_decide (is_Some (@None addr)) = false) as -> by done.
  all: cbn [andb].
  all: unfold bind at 1; unfold bind at 1; cbn [ret].
  all: unfold bind at 1; rewrite Hdr; done.
Qed.

Lemma finalizeProperty_plain fin n fuel root rootPath scope needPatches prop v parent h :
  n ≤ fuel → plain_data h n v → v ≠ VObj parent →
  finalizeProperty this fin fuel None root rootPath scope needPatches prop v parent h
  = (Ok tt, h).
Proof.
  revert fuel prop v parent.
  induction n as [|n IH]; intros fuel prop v parent Hle Hp Hne.
  all: destruct (value_obj_or_scalar v) as [[a ->]|Hs];
    [|by apply finalizeProperty_scalar].
  all: cbn [plain_data] in Hp.
  all: destruct (cells h !! a) as [[o|]|] eqn:Ha; try done.
  all: assert (isDraft (VObj a) h = (Ok false, h)) as Hd
         by (unfold isDraft, bind; cbn; unfold bind, get_cell; by rewrite Ha).
  all: assert (isDraftable (VObj a) h
               = (Ok (bool_decide (o_class o ≠ COpaque)), h)) as Hdr
         by (cbn; unfold bind, get_cell; by rewrite Ha).
  all: assert (isFrozen (VObj a) h = (Ok (o_frozen o), h)) as Hfr
         by (cbn; unfold bind, get_cell; by rewrite Ha).
  all: destruct fuel as [|fuel]; cbn [finalizeProperty].
  all: rewrite strict_eq_obj, bool_decide_eq_false_2 by done.
  all: unfold bind at 1; rewrite Hd.
  all: assert (bool_decide (is_Some (@None addr)) = false) as -> by done.
  all: cbn [andb].
  all: unfold bind at 1; unfold bind at 1; cbn [ret].
  all: unfold bind at 1; rewrite Hdr.
  all: destruct (bool_decide (o_class o ≠ COpaque)) eqn:Ecl;
    [|unfold bind at 1; cbn [ret]; done].
  all: apply bool_decide_eq_true_1 in Ecl.
  all: unfold bind at 1; rewrite Hfr.
  all: destruct (o_frozen o) eqn:Efr; [unfold bind at 1; cbn [ret]; done|].
  all: destruct Hp as [?|[?|Hp]]; try done.
  all: try lia.
  cbn [andb negb]. unfold bind at 1. cbn [each]. unfold bind at 1.
  rewrite (get_object_eq _ _ _ Ha).
  rewrite for_each_unchanged; [done|].
  intros k Hk. unfold bind. rewrite (get_object_eq _ _ _ Ha).
  destruct (Hp k Hk) as [Hne' Hp']. apply IH; [lia|done|done].
Qed.

Lemma finalize_result_plain n scope s v h :
  scopes h !! scope = Some s → plain_data h n v →
  finalize_result this (S n) v scope h = (Ok v, h).
Proof.
  intros Hs Hp. unfold finalize_result.
  destruct (value_obj_or_scalar v) as [[a ->]|Hsc].
  2:{ unfold bind. by rewrite (opaque_scalar h v). }
  assert (∃ o, cells h !! a = Some (CObj o) ∧
               (o_class o = COpaque ∨ o_frozen o = true ∨
                ∃ n', n = S n' ∧
                      ∀ k, k ∈ each_keys o →
                           prop_value k o ≠ VObj a ∧ plain_data h n' (prop_value k o)))
    as (o & Ha & Hp').
  { destruct n as [|n']; cbn [plain_data] in Hp;
      destruct (cells h !! a) as [[o|]|]; try done;
      exists o; (split; [done|]); destruct Hp as [?|[?|Hp]]; eauto. }
  unfold bind at 1. cbn [isDraftable]. unfold bind at 1.
  unfold get_cell. rewrite Ha. cbn [ret].
  destruct (bool_decide (o_class o ≠ COpaque)) eqn:Ecl; [|done].
  apply bool_decide_eq_true_1 in Ecl.
  assert (draft_state (VObj a) h = (Ok None, h)) as Hds
    by (cbn; unfold bind, get_cell; by rewrite Ha).
  cbn [finalize]. unfold bind at 1. rewrite Hds.
  unfold bind at 1. cbn [isFrozen]. unfold bind at 1. unfold get_cell. rewrite Ha.
  cbn [ret]. destruct (o_frozen o) eqn:Efr; [done|].
  destruct Hp' as [?|[?|(n' & -> & Hp')]]; try done.
  unfold finalizeTree. unfold bind at 1. rewrite Hds.
  unfold bind at 1. cbn [ret]. unfold bind at 1. rewrite (get_scope_eq _ _ _ Hs).
  unfold bind at 1. cbn [each]. unfold bind at 1. rewrite (get_object_eq _ _ _ Ha).
  rewrite for_each_unchanged; [done|].
  intros k Hk. unfold bind. rewrite (get_object_eq _ _ _ Ha).
  destruct (Hp' k Hk) as [Hne Hpk].
  apply (finalizeProperty_plain _ n'); [lia|done|done].
Qed.

End plain.

(** C8.  With a patch listener, when the recipe returned a new value
    ([result], neither [undefined] nor the draft) and left the root draft
    unmodified, the listener is called once, with exactly one patch,
    [replace] at the root path with the new value, and exactly one inverse
    patch, [replace] at the root path with the original base; nothing else
    reaches the listener.  This holds whenever the finalization of the
    returned value completes, with [r'] as the new value and [evs] the calls
    of hooks it made; and it completes, changing nothing, when the returned
    value is plain data and the fuel exceeds its depth. *)
Theorem produce_replacement_patches (this : Immer) (base : value)
    (recipe : value → M returned) (l : nat) (h h2 : Heap)
    (result : value) (st : DraftState) :
  draftable_in h base →
  recipe (VObj (next_addr h)) (entered base h) = (Ok (Value result), h2) →
  kept_root base h h2 st → st_modified st = false → fresh_heap h2 →
  result ≠ VUndefined → result ≠ VObj (next_addr h) →
  (∀ fuel r' hB,
     finalize_result this fuel result (next_scope h) (ready (next_scope h) (Some l) h2)
       = (Ok r', hB) →
     ∃ h' evs,
       produce this fuel base recipe (Some l) h
         = (Ok (Value (if strict_eq r' VNothing then VUndefined else r')), h') ∧
       events h' = events h2 ++ evs ++
                   [PatchListener l [Patch Replace [] (Some r')]
                                    [Patch Replace [] (Some base)]] ∧
       Forall hook_event evs) ∧
  (∀ n,
     plain_data (ready (next_scope h) (Some l) h2) n result →
     ∃ h',
       produce this (S n) base recipe (Some l) h
         = (Ok (Value (if strict_eq result VNothing then VUndefined else result)), h') ∧
       events h' = events h2 ++
                   [PatchListener l [Patch Replace [] (Some result)]
                                    [Patch Replace [] (Some base)]]).
Proof.
  intros Hd Hr Hk Hm Hf Hu Hp. split.
  - intros fuel r' hB Hfin.
    destruct (produce_replaced this _ _ _ _ _ _ _ _ _ _ Hd Hr Hk Hm Hf Hu Hp Hfin)
      as (h' & evs & E & _ & Hev & Hhook).
    by exists h', evs.
  - intros n Hplain.
    destruct (kept_root_ready _ _ _ _ (Some l) Hk) as (s & (_ & Hs & _) & _).
    pose proof (finalize_result_plain this n _ _ _ _ Hs Hplain) as Hfin.
    destruct (produce_replaced this _ _ _ _ _ _ _ _ _ _ Hd Hr Hk Hm Hf Hu Hp Hfin)
      as (h' & evs & E & HevB & Hev & _).
    exists h'. split; [done|].
    rewrite ready_events in HevB.
    rewrite <- (app_nil_r (events h2)) in HevB at 1.
    apply app_inv_head in HevB. by subst evs.
Qed.

Lemma produce_replacement_patches_witness :
  (∃ h' evs,
     produce all_hooks 2 scenario_base recipe_return_child (Some 7) scenario_heap
       = (Ok (Value (VObj 0)), h') ∧
     events h' = [] ++ evs ++
                 [PatchListener 7 [Patch Replace [] (Some (VObj 0))]
                                  [Patch Replace [] (Some scenario_base)]] ∧
     Forall hook_event evs) ∧
  (∃ h',
     produce all_hooks 1 scenario_base (recipe_return (VNumber (Fin 7))) (Some 7)
       scenario_heap = (Ok (Value (VNumber (Fin 7))), h') ∧
     events h' = [] ++ [PatchListener 7 [Patch Replace [] (Some (VNumber (Fin 7)))]
                                        [Patch Replace [] (Some scenario_base)]]).
Proof.
  split.
  - refine (proj1 (produce_replacement_patches all_hooks scenario_base
                     recipe_return_child 7 scenario_heap
                     (recipe_return_child (VObj 2) (entered scenario_base scenario_heap)).2
                     (VObj 3)
                     (State 0 false false [] None scenario_base 2 [(KStr "b", VObj 3)]
                            None Mapping false false) _ _ _ _ _ _ _)
                  2 (VObj 0)
                  (finalize_result all_hooks 2 (VObj 3) 0
                     (ready 0 (Some 7)
                        (recipe_return_child (VObj 2)
                           (entered scenario_base scenario_heap)).2)).2 _).
    + reflexivity.
    + vm_compute. reflexivity.
    + repeat split. eexists. repeat split.
    + reflexivity.
    + apply fresh_heap_check. vm_compute. reflexivity.
    + done.
    + done.
    + vm_compute. reflexivity.
  - refine (proj2 (produce_replacement_patches all_hooks scenario_base
                     (recipe_return (VNumber (Fin 7))) 7 scenario_heap
                     (entered scenario_base scenario_heap)
                     (VNumber (Fin 7))
                     (fresh_state scenario_base scenario_heap Mapping) _ _ _ _ _ _ _)
                  0 _).
    + reflexivity.
    + reflexivity.
    + repeat split. eexists. repeat split.
    + reflexivity.
    + apply fresh_heap_check. vm_compute. reflexivity.
    + done.
    + done.
    + exact I.
Defined.

(** ** The two-phase API *)

Lemma usePatches_heap_cells sc l h : cells (ImmerScope.usePatches_heap sc l h) = cells h.
Proof. by destruct l. Qed.

Lemma usePatches_heap_fresh sc l h :
  fresh_heap h → fresh_heap (ImmerScope.usePatches_heap sc l h).
Proof. intros Hf a Ha. rewrite usePatches_heap_cells. apply Hf. by destruct l. Qed.

Lemma usePatches_heap_scope sc l h s :
  scopes h !! sc = Some s →
  ∃ s', scopes (ImmerScope.usePatches_heap sc l h) !! sc = Some s' ∧
        drafts s' = drafts s.
Proof.
  intros Hs. destruct l; cbn; [|by exists s].
  rewrite lookup_alter_eq, Hs. by eexists.
Qed.

Section finishDraft_twice.

Variable this : Immer.

(** After [processResult] has completed on the unreplaced draft, every draft
    the scope owned at the start is revoked. *)
Lemma processResult_revokes fuel sc s h v h' d st :
  fresh_heap h → scopes h !! sc = Some s →
  d ∈ drafts s → cells h !! d = Some (CDraft st) →
  processResult this fuel VUndefined sc h = (Ok v, h') →
  ∃ st', cells h' !! d = Some (CDraft st') ∧ st_revoked st' = true.
Proof.
  intros Hf Hs Hd Hc. unfold processResult.
  unfold bind at 1. rewrite (get_scope_eq _ _ _ Hs).
  cbn [strict_eq bool_decide negb andb]. rewrite bool_decide_eq_true_2 by done.
  cbn [negb andb]. unfold willFinalize. unfold bind at 1. cbn [ret]. unfold bind at 1.
  destruct (finalize this fuel _ (Some []) sc h) as [[r| |] hB] eqn:Efin; try done.
  apply finalize_steps in Efin.
  destruct (steps_scope_kept _ _ _ _ _ _ _ Efin Hs) as (sB & HsB & Hsame).
  destruct (steps_draft _ _ _ _ _ _ _ Efin Hf Hc) as (stB & HdB & HstB).
  assert (d ∈ drafts sB) as HdB'.
  { destruct Hsame as ([ds ->] & _). apply elem_of_app. by left. }
  unfold bind at 1. cbn [ImmerScope.revoke modify_heap].
  unfold bind at 1. rewrite (get_scope_eq _ _ sB) by by rewrite revoke_heap_scopes.
  assert (cells (ImmerScope.revoke_heap sc hB) !! d
          = Some (CDraft (st_set_revoked true stB))) as Hrev.
  { by rewrite (revoke_heap_lookup _ _ _ _ HsB), decide_True, HdB. }
  destruct (patches sB) as [ps|].
  - destruct (patchListener sB) as [l|]; [|done].
    unfold bind at 1. cbn. intros [= _ <-]. cbn. eauto.
  - unfold bind at 1. cbn. intros [= _ <-]. eauto.
Qed.

End finishDraft_twice.

(** C7, as amended.  [finishDraft] raises an error, and produces no result,
    on a value that is not a draft, on a draft that lacks the mark of
    [createDraft], and on a live draft whose state is already finalized: the
    AlreadyFinished error of line 101.  Once a call of [finishDraft] has
    completed on a draft, any further call on that draft raises an error as
    well, but another one: the first call revoked the draft, and reading
    the state of a revoked draft (line 98) raises a TypeError before the
    checks of lines 100 and 101 are reached. *)
Theorem finishDraft_errors (this : Immer) (fuel : nat) (listener : option nat)
    (h : Heap) :
  (∀ draft, isDraft draft h = (Ok false, h) →
     finishDraft this fuel draft listener h = (Throw NotADraft, h)) ∧
  (∀ d st, live_draft h d st → st_customDraft st = false →
     finishDraft this fuel (VObj d) listener h = (Throw NotCustomDraft, h)) ∧
  (∀ d st, live_draft h d st → st_customDraft st = true → st_finalized st = true →
     finishDraft this fuel (VObj d) listener h = (Throw AlreadyFinished, h)) ∧
  (∀ d st s v h',
     fresh_heap h → cells h !! d = Some (CDraft st) →
     scopes h !! st_scope st = Some s → d ∈ drafts s →
     finishDraft this fuel (VObj d) listener h = (Ok v, h') →
     ∀ fuel' listener',
       finishDraft this fuel' (VObj d) listener' h' = (Throw revoked_proxy, h')).
Proof.
  split_and!.
  - intros draft Hd. unfold finishDraft. unfold bind at 1. by rewrite Hd.
  - intros d st Hl Hc. unfold finishDraft. unfold bind at 1.
    rewrite (isDraft_live _ _ _ Hl). cbn [negb]. unfold bind at 1.
    rewrite (draft_state_live _ _ _ Hl). unfold bind at 1.
    by rewrite (get_state_eq _ _ _ (proj1 Hl)), Hc.
  - intros d st Hl Hc Hfin. unfold finishDraft. unfold bind at 1.
    rewrite (isDraft_live _ _ _ Hl). cbn [negb]. unfold bind at 1.
    rewrite (draft_state_live _ _ _ Hl). unfold bind at 1.
    by rewrite (get_state_eq _ _ _ (proj1 Hl)), Hc, Hfin.
  - intros d st s v h' Hf Hc Hs Hd E fuel' listener'.
    assert (∃ st', cells h' !! d = Some (CDraft st') ∧ st_revoked st' = true)
      as (st' & Hc' & Hr').
    { revert E. unfold finishDraft. unfold bind at 1.
      destruct (st_revoked st) eqn:Hr.
      { by rewrite (isDraft_revoked _ _ _ Hc Hr). }
      assert (live_draft h d st) as Hl by done.
      rewrite (isDraft_live _ _ _ Hl). cbn [negb]. unfold bind at 1.
      rewrite (draft_state_live _ _ _ Hl). unfold bind at 1.
      rewrite (get_state_eq _ _ _ Hc).
      destruct (st_customDraft st); [|done]. destruct (st_finalized st); [done|].
      cbn [negb]. unfold bind at 1. cbn [ImmerScope.usePatches modify_heap].
      destruct (usePatches_heap_scope (st_scope st) listener h s Hs) as (s' & Hs' & Hds).
      apply (processResult_revokes this _ _ s' _ _ _ d st).
      - by apply usePatches_heap_fresh.
      - done.
      - by rewrite Hds.
      - by rewrite usePatches_heap_cells. }
    unfold finishDraft. unfold bind at 1.
    by rewrite (isDraft_revoked _ _ _ Hc' Hr').
Qed.

Lemma finishDraft_errors_witness :
  finishDraft all_hooks 2 (VNumber (Fin 1)) None scenario_heap
    = (Throw NotADraft, scenario_heap) ∧
  ∃ d h1 v h2,
    createDraft scenario_base scenario_heap = (Ok (VObj d), h1) ∧
    finishDraft all_hooks 2 (VObj d) None h1 = (Ok v, h2) ∧
    finishDraft all_hooks 2 (VObj d) None h2 = (Throw revoked_proxy, h2).
Proof.
  pose proof (finishDraft_errors all_hooks 2 None scenario_heap) as (Ha & _).
  split; [by apply Ha|].
  exists 2, (createDraft scenario_base scenario_heap).2,
    scenario_base,
    (finishDraft all_hooks 2 (VObj 2) None
       (createDraft scenario_base scenario_heap).2).2.
  split; [by vm_compute|]. split; [by vm_compute|].
  pose proof (finishDraft_errors all_hooks 2 None
                (createDraft scenario_base scenario_heap).2)
    as (_ & _ & _ & Hd).
  eapply (Hd 2 (State 0 false false [] None scenario_base 2 [] None Mapping false true)
            (MkScope [2] None true None None None) scenario_base).
  - apply fresh_heap_check. vm_compute. reflexivity.
  - vm_compute. reflexivity.
  - vm_compute. reflexivity.
  - cbn. by left.
  - vm_compute. reflexivity.
Defined.

(** C7, as stated, fails in the error it names.  A second [finishDraft] on
    the draft of [createDraft] raises the TypeError of a revoked draft, not
    AlreadyFinished, whether the draft was changed in between or not: after
    the first call the state is revoked, and marked as finalized only if
    the draft had been modified. *)
Lemma finishDraft_twice_revoked :
  ∃ d h1 v h2 st c h3 h4 st',
    createDraft scenario_base scenario_heap = (Ok (VObj d), h1) ∧
    finishDraft all_hooks 2 (VObj d) None h1 = (Ok v, h2) ∧
    cells h2 !! d = Some (CDraft st) ∧ st_finalized st = false ∧
    finishDraft all_hooks 2 (VObj d) None h2 = (Throw revoked_proxy, h2) ∧
    set_prop 2 (VObj d) (KStr "a") (VNumber (Fin 2)) h1 = (Ok tt, h3) ∧
    finishDraft all_hooks 2 (VObj d) None h3 = (Ok (VObj c), h4) ∧
    cells h4 !! d = Some (CDraft st') ∧ st_finalized st' = true ∧
    finishDraft all_hooks 2 (VObj d) None h4 = (Throw revoked_proxy, h4) ∧
    revoked_proxy ≠ AlreadyFinished.
Proof.
  exists 2, (createDraft scenario_base scenario_heap).2.
  eexists _, _, _, _, _, _, _.
  split_and!; try (vm_compute; reflexivity). done.
Qed.

(** ** Drafts of another scope *)

Section foreign.

Variable this : Immer.
Variable scope : scope_id.

Lemma finalize_foreign fuel d st path h :
  live_draft h d st → st_scope st ≠ scope →
  finalize this fuel (VObj d) path scope h = (Ok (VObj d), h).
Proof.
  intros Hl Hsc.
  destruct fuel; cbn [finalize]; unfold bind at 1;
    rewrite (draft_state_live _ _ _ Hl); unfold bind at 1;
    rewrite (get_state_eq _ _ _ (proj1 Hl));
    by rewrite bool_decide_eq_false_2.
Qed.

Lemma bind_ok_inv {A B} (m : M A) (k : A → M B) h b h' :
  bind m k h = (Ok b, h') → ∃ a h1, m h = (Ok a, h1) ∧ k a h1 = (Ok b, h').
Proof. unfold bind. destruct (m h) as [[a|e|] h1]; [eauto|done|done]. Qed.

(** The visit of a property that holds a draft of another scope switches
    auto-freezing off for the scope being finalized. *)
Lemma finalizeProperty_foreign fuel fuel' state root rootPath needPatches prop parent
    d st h r h' :
  live_draft h d st → st_scope st ≠ scope →
  finalizeProperty this (finalize this fuel) fuel' state root rootPath scope
    needPatches prop (VObj d) parent h = (Ok r, h') →
  ∃ s', scopes h' !! scope = Some s' ∧ canAutoFreeze s' = false.
Proof.
  intros Hl Hsc E.
  assert (∃ h5 s, scopes h5 !! scope = Some s ∧ canAutoFreeze s = false ∧
                  steps scope (Some []) false h5 h') as (h5 & s & Hs & Hcaf & Hsteps).
  { destruct fuel'; cbn [finalizeProperty] in E;
      (destruct (strict_eq (VObj d) (VObj parent)); [done|];
       apply bind_ok_inv in E as (isd & h1 & E1 & E);
       rewrite (isDraft_live _ _ _ Hl) in E1; injection E1 as <- <-;
       apply bind_ok_inv in E as (r1 & h2 & E & Efinal);
       apply bind_ok_inv in E as (assigned & h3 & E3 & E);
       assert (h3 = h) as ->
         by (destruct (_ && _);
             [by eapply reads_state_assigned|by injection E3]);
       clear E3;
       apply bind_ok_inv in E as (v' & h4 & E4 & E);
       rewrite (finalize_foreign _ _ _ _ _ Hl Hsc) in E4; injection E4 as <- <-;
       apply bind_ok_inv in E as (isd' & h4 & E4 & E);
       rewrite (isDraft_live _ _ _ Hl) in E4; injection E4 as <- <-;
       apply bind_ok_inv in E as ([] & h5 & E5 & E);
       cbn [when] in E5; unfold update_scope in E5;
       apply bind_ok_inv in E5 as (s & h6 & E6 & E5);
       pose proof (reads_get_scope _ _ _ _ E6) as ->;
       unfold get_scope in E6;
       destruct (scopes h !! scope) as [s0|] eqn:Es; [|done];
       injection E6 as ->; injection E5 as <-;
       exists (set_scopes <[scope:=sc_set_canAutoFreeze false s]> h),
              (sc_set_canAutoFreeze false s);
       split; [cbn; apply lookup_insert_eq|]; split; [done|];
       unfold steps; apply (rtc_trans _ h2);
       [|match type of Efinal with
         | ?m _ = _ =>
             assert (sound scope (Some []) false m) as Hsound
               by (destruct r1; [destruct state;
                                 [apply sound_when, sound_emit; [done|by intros]
                                 |apply sound_ret]
                                |apply sound_ret])
         end; by eapply Hsound];
       clear Efinal;
       revert E; generalize (set_scopes <[scope:=sc_set_canAutoFreeze false s]> h);
       intros h0 E).
    all: revert h0 r1 h2 E.
    all: match goal with
         | |- ∀ h0 r1 h2, ?m h0 = (Ok r1, h2) → _ =>
             assert (sound scope (Some []) false m) as Hsound;
               [|intros h0 r1 h2; apply Hsound]
         end.
    all: apply sound_bind; [apply reads_sound, reads_isArray|]; intros arr;
         apply sound_bind;
         [destruct arr; [apply sound_ret|apply reads_sound, reads_isEnumerable]|];
         intros enum;
         apply sound_bind;
         [destruct enum; [apply sound_assign_prop|apply sound_defineProperty]|]; intros _;
         apply sound_bind; [|intros; apply sound_ret];
         destruct (_ && _);
         [apply sound_bind; [apply sound_state_base_prop|intros; apply sound_ret]
         |apply sound_ret]. }
  destruct (steps_scope_kept _ _ _ _ _ _ _ Hsteps Hs) as (s2 & Hs2 & Hsame).
  exists s2. split; [done|]. by apply Hsame.
Qed.

End foreign.

(** ** Circular references *)

Section circular.

Variable this : Immer.


End circular.

(** * Further properties of the engine *)

(** ** Computations that respect a relation *)

Section respects.

Context (R : relation Heap) `{!PreOrder R}.

Lemma respects_reads {A} (m : M A) : reads m → respects R m.
Proof using Type*. intros Hm h r h' E. by rewrite (Hm _ _ _ E). Qed.

Lemma respects_ret {A} (a : A) : respects R (ret a).
Proof using Type*. by intros h r h' [= _ <-]. Qed.

Lemma respects_throw {A} e : respects R (throw (A := A) e).
Proof using Type*. by intros h r h' [= _ <-]. Qed.

Lemma respects_out_of_fuel {A} : respects R (out_of_fuel (A := A)).
Proof using Type*. by intros h r h' [= _ <-]. Qed.

Lemma respects_bind {A B} (m : M A) (k : A → M B) :
  respects R m → (∀ a, respects R (k a)) → respects R (bind m k).
Proof using Type*.
  intros Hm Hk h r h'. unfold bind.
  destruct (m h) as [[a|e|] h1] eqn:E.
  - intros E'. etrans; [by eapply Hm|by eapply Hk].
  - intros [= _ <-]. by eapply Hm.
  - intros [= _ <-]. by eapply Hm.
Qed.

Lemma respects_when (b : bool) (m : M unit) : respects R m → respects R (when b m).
Proof using Type*. destruct b; [done|]. intros _. apply respects_ret. Qed.

Lemma respects_for_each {A} (l : list A) (body : A → M unit) :
  (∀ x, respects R (body x)) → respects R (for_each l body).
Proof using Type*.
  intros Hb. induction l as [|x l IH]; cbn [for_each]; [apply respects_ret|].
  apply respects_bind; [apply Hb|]. by intros _.
Qed.

Lemma respects_each (v : value) (cb : key → value → addr → M unit) :
  (∀ k x a, respects R (cb k x a)) → respects R (each v cb).
Proof using Type*.
  intros Hcb. destruct v; try apply respects_throw. cbn [each].
  apply respects_bind; [apply respects_reads, reads_get_object|]. intros o.
  apply respects_for_each. intros k.
  apply respects_bind; [apply respects_reads, reads_get_object|]. intros o'. apply Hcb.
Qed.

End respects.

#[global] Instance unheard_preorder sc : PreOrder (unheard sc).
Proof.
  split.
  - intros h. split; [exists []; by rewrite app_nil_r|]. intros s Hs. by exists s.
  - intros x y z [(e1 & E1 & F1) H1] [(e2 & E2 & F2) H2]. split.
    + exists (e1 ++ e2). rewrite E2, E1, app_assoc. split; [done|]. by apply Forall_app.
    + intros s Hs. destruct (H1 s Hs) as (s1 & Hs1 & Hl1 & Hd1 & Hp1).
      destruct (H2 s1 Hs1) as (s2 & Hs2 & Hl2 & Hd2 & Hp2).
      exists s2. split_and!; [done|congruence|by etrans|by rewrite Hp2].
Qed.

Lemma steps_unheard sc under silent h h' :
  steps sc under silent h h' → unheard sc h h'.
Proof.
  intros Hsteps. split.
  - destruct (steps_events _ _ _ _ _ Hsteps) as (evs & ? & ? & _). by exists evs.
  - intros s Hs.
    destruct (steps_scope_kept _ _ _ _ _ _ _ Hsteps Hs) as (s' & Hs' & Hsame).
    exists s'. split; [done|].
    pose proof (same_scope_patches _ _ _ Hsame) as Hp.
    destruct Hsame as (Hd & _ & Hl & _). done.
Qed.

Lemma respects_revoke sc : respects (unheard sc) (ImmerScope.revoke sc).
Proof.
  intros h r h' [= _ <-]. split.
  - exists []. by rewrite revoke_heap_events, app_nil_r.
  - intros s Hs. exists s. by rewrite revoke_heap_scopes.
Qed.

Lemma respects_settle this fuel result sc :
  respects (unheard sc) (settle this fuel result sc).
Proof.
  assert (∀ {A} (m : M A), sound sc (Some []) false m → respects (unheard sc) m) as Hsound.
  { intros A m Hm h r h' E. eapply steps_unheard, Hm, E. }
  unfold settle.
  apply (respects_bind _); [apply (respects_reads _), reads_get_scope|]. intros s.
  apply (respects_bind _); [apply (respects_ret _)|]. intros _.
  destruct (_ && _).
  - apply (respects_bind _); [apply (respects_reads _), reads_draft_state|]. intros o.
    apply (respects_bind _).
    { destruct o; [apply (respects_reads _), reads_get_state|apply (respects_throw _)]. }
    intros st. destruct (st_modified st).
    { apply (respects_bind _); [apply respects_revoke|]. intros _. apply (respects_throw _). }
    apply (respects_bind _); [apply (respects_reads _), reads_isDraftable|]. intros d.
    apply (respects_bind _).
    { destruct d; [|apply (respects_ret _)]. apply Hsound, sound_finalize. by intros q ?. }
    intros r. apply (respects_bind _); [apply (respects_reads _), reads_get_scope|]. intros s'.
    apply (respects_bind _); [|intros; apply (respects_ret _)].
    apply (respects_when _).
    apply (respects_bind _); [apply (respects_reads _), reads_draft_state|]. intros o'.
    apply (respects_bind _).
    { destruct o'; [apply (respects_reads _), reads_get_state|apply (respects_throw _)]. }
    intros st'. apply Hsound, sound_push_patch; cbn; apply prefix_nil.
  - apply Hsound, sound_finalize. intros q [= <-]. apply prefix_nil.
Qed.

Lemma bind_ext {A B} (m : M A) (k k' : A → M B) h :
  (∀ a h1, k a h1 = k' a h1) → bind m k h = bind m k' h.
Proof. intros Hk. unfold bind. destruct (m h) as [[a|e|] h1]; [apply Hk|done..]. Qed.

Lemma processResult_split this fuel result sc h :
  processResult this fuel result sc h
  = bind (settle this fuel result sc) (conclude sc) h.
Proof.
  unfold processResult, settle. rewrite bind_assoc.
  apply bind_ext. intros s h1. rewrite bind_assoc.
  apply bind_ext. intros _ h2. reflexivity.
Qed.

Lemma conclude_result sc s result h :
  scopes h !! sc = Some s →
  conclude sc result h
  = match patches s, patchListener s with
    | Some ps, None =>
        (Throw (TypeError "scope.patchListener is not a function"),
         ImmerScope.revoke_heap sc h)
    | _, _ => (Ok (if strict_eq result VNothing then VUndefined else result),
               notified s (ImmerScope.revoke_heap sc h))
    end.
Proof.
  intros Hs. unfold conclude, ImmerScope.revoke, modify_heap. unfold bind at 1.
  unfold bind at 1.
  rewrite (get_scope_eq _ _ s) by (by rewrite revoke_heap_scopes).
  unfold notified.
  destruct (patches s) as [ps|]; [destruct (patchListener s) as [l|]|]; done.
Qed.

Lemma notified_events s h :
  events (notified s h)
  = events h ++ match patches s, patchListener s with
                | Some ps, Some l => [PatchListener l ps (default [] (inversePatches s))]
                | _, _ => []
                end.
Proof.
  unfold notified. destruct (patches s), (patchListener s); cbn;
    by rewrite ?app_nil_r.
Qed.

Lemma notified_scopes s h : scopes (notified s h) = scopes h.
Proof. unfold notified. by destruct (patches s), (patchListener s). Qed.

(** ** Revocation after success *)

Lemma processResult_ok_revoked this fuel result sc h v h' :
  processResult this fuel result sc h = (Ok v, h') → all_revoked h' sc.
Proof.
  unfold processResult. intros E.
  apply bind_ok_inv in E as (s & h1 & _ & E).
  apply bind_ok_inv in E as (? & h2 & _ & E).
  apply bind_ok_inv in E as (r & h3 & _ & E).
  apply bind_ok_inv in E as ([] & h4 & E4 & E).
  apply bind_ok_inv in E as (s' & h5 & E5 & E).
  apply bind_ok_inv in E as ([] & h6 & E6 & E).
  injection E as _ <-. injection E4 as <-.
  pose proof (reads_get_scope _ _ _ _ E5) as ->.
  assert (cells h6 = cells (ImmerScope.revoke_heap sc h3) ∧
          scopes h6 = scopes (ImmerScope.revoke_heap sc h3)) as [Hc Hs].
  { destruct (patches s'); [destruct (patchListener s'); [|done]|];
      by injection E6 as <-. }
  intros s0 d st. rewrite Hc, Hs. apply revoke_heap_all_revoked.
Qed.

(** X1.  After a completed update every draft of its scope is revoked,
    whether the recipe returned a value or a promise that was fulfilled. *)
Theorem produce_success_revokes (this : Immer) (fuel : nat) (base : value)
    (recipe : value → M returned) (listener : option nat) (h : Heap) :
  draftable_in h base →
  (∀ v h', produce this fuel base recipe listener h = (Ok (Value v), h') →
           all_revoked h' (next_scope h)) ∧
  (∀ p' h', produce this fuel base recipe listener h = (Ok (Promise p'), h') →
            ∀ h3 v h4, p' h3 = (Ok v, h4) → all_revoked h4 (next_scope h)).
Proof.
  intros Hd. split.
  - intros v h'.
    destruct (recipe (VObj (next_addr h)) (entered base h)) as [[[x|p]|e|] h2] eqn:Er.
    + rewrite (produce_returned _ _ _ _ _ _ _ _ Hd Er). intros E.
      apply bind_ok_inv in E as (r & h3 & E & [= _ <-]).
      by eapply processResult_ok_revoked.
    + by rewrite (produce_promised _ _ _ _ _ _ _ _ Hd Er).
    + by rewrite (produce_threw _ _ _ _ _ _ _ _ Hd Er).
    + rewrite produce_draftable by done. unfold bind at 1, try_finally.
      by rewrite Er.
  - intros p' h'.
    destruct (recipe (VObj (next_addr h)) (entered base h)) as [[[x|p]|e|] h2] eqn:Er.
    + rewrite (produce_returned _ _ _ _ _ _ _ _ Hd Er). intros E.
      by apply bind_ok_inv in E as (r & h3 & E & [= _ <-]).
    + rewrite (produce_promised _ _ _ _ _ _ _ _ Hd Er). intros [= <- <-] h3 v h4.
      unfold then_. destruct (p h3) as [[x|e|] h5]; [|by unfold bind|done].
      intros E. apply bind_ok_inv in E as ([] & h6 & _ & E).
      by eapply processResult_ok_revoked.
    + by rewrite (produce_threw _ _ _ _ _ _ _ _ Hd Er).
    + rewrite produce_draftable by done. unfold bind at 1, try_finally.
      by rewrite Er.
Qed.

Lemma produce_success_revokes_witness :
  ∃ h', produce all_hooks 2 scenario_base (recipe_set (KStr "a") (VNumber (Fin 2))) None
          scenario_heap = (Ok (Value (VObj 3)), h') ∧
        all_revoked h' 0.
Proof.
  set (recipe := recipe_set (KStr "a") (VNumber (Fin 2))).
  set (h' := (produce all_hooks 2 scenario_base recipe None scenario_heap).2).
  assert (produce all_hooks 2 scenario_base recipe None scenario_heap
          = (Ok (Value (VObj 3)), h')) as E by (vm_compute; reflexivity).
  exists h'. split; [exact E|].
  destruct (produce_success_revokes all_hooks 2 scenario_base recipe None scenario_heap)
    as [Hv _].
  - reflexivity.
  - exact (Hv _ _ E).
Defined.

(** ** The two-phase interface *)

Lemma createDraft_draftable (base : value) (h : Heap) :
  draftable_in h base →
   ∃ h' st s,
     createDraft base h = (Ok (VObj (next_addr h)), h') ∧
     live_draft h' (next_addr h) st ∧
     st_customDraft st = true ∧ st_base st = base ∧
     st_modified st = false ∧ st_finalized st = false ∧
     st_scope st = next_scope h ∧
     scopes h' !! next_scope h = Some s ∧
     drafts s = [next_addr h] ∧ parent s = current h ∧ patches s = None ∧
     current h' = current h ∧ events h' = events h ∧
     ∀ a, a ≠ next_addr h → cells h' !! a = cells h !! a.
Proof.
  - intros Hd. destruct (enter_createProxy base h Hd) as [k Hk].
    unfold createDraft. unfold bind at 1. rewrite Hd. cbn [negb].
    unfold bind at 1 in Hk.
    unfold bind at 1. cbn [ImmerScope.enter] in *.
    unfold bind at 1. rewrite Hk.
    unfold bind at 1, ImmerScope.leave, modify_heap, ImmerScope.leave_heap.
    cbn [scopes current]. rewrite lookup_insert_eq.
    rewrite decide_True by done. unfold set_current.
    cbn [parent cells next_addr scopes next_scope events].
    unfold bind at 1. unfold bind at 1.
    unfold draft_state at 1. unfold bind at 1, get_cell. cbn [cells].
    rewrite lookup_insert_eq. cbn [fresh_state st_revoked ret].
    unfold update_state, bind at 1, get_state, bind at 1, get_cell. cbn [cells].
    rewrite lookup_insert_eq. cbn [ret put_cell modify_heap set_cells bind].
    eexists _, _, _. split; [reflexivity|].
    unfold live_draft, set_cells. cbn.
    rewrite lookup_insert_eq.
    split_and!; try done; [apply lookup_insert_eq|done..|].
    intros a Ha. rewrite insert_insert_eq. by rewrite lookup_insert_ne.
Qed.

(** X2.  [createDraft] refuses a value that is not draftable, before it
    enters a scope.  For a draftable base it hands out a new live draft,
    marked as made by [createDraft], unmodified, the only draft of a new
    scope that records no patches; the scope current before the call is
    current again after it, no hook is called and no other cell is
    touched. *)
Theorem createDraft_result (base : value) (h : Heap) :
  (opaque_in h base → createDraft base h = (Throw NotDraftable, h)) ∧
  (draftable_in h base →
   ∃ h' st s,
     createDraft base h = (Ok (VObj (next_addr h)), h') ∧
     live_draft h' (next_addr h) st ∧
     st_customDraft st = true ∧ st_base st = base ∧
     st_modified st = false ∧ st_finalized st = false ∧
     st_scope st = next_scope h ∧
     scopes h' !! next_scope h = Some s ∧
     drafts s = [next_addr h] ∧ parent s = current h ∧ patches s = None ∧
     current h' = current h ∧ events h' = events h ∧
     ∀ a, a ≠ next_addr h → cells h' !! a = cells h !! a).
Proof.
  split.
  - intros Ho. unfold createDraft, bind. by rewrite Ho.
  - apply createDraft_draftable.
Qed.

Lemma createDraft_result_witness :
  createDraft (VNumber (Fin 1)) scenario_heap = (Throw NotDraftable, scenario_heap) ∧
  ∃ h' st,
    createDraft scenario_base scenario_heap = (Ok (VObj 2), h') ∧
    live_draft h' 2 st ∧ st_customDraft st = true ∧ current h' = None.
Proof.
  pose proof (createDraft_result (VNumber (Fin 1)) scenario_heap) as [Ho _].
  split; [by apply Ho|].
  pose proof (createDraft_result scenario_base scenario_heap) as [_ Hd].
  destruct Hd as (h' & st & s & E & Hl & Hc & _ & _ & _ & _ & _ & _ & _ & _ & Hcur & _).
  - reflexivity.
  - by exists h', st.
Defined.

Lemma notified_cells s h : cells (notified s h) = cells h.
Proof. unfold notified. by destruct (patches s), (patchListener s). Qed.

Lemma notified_current s h : current (notified s h) = current h.
Proof. unfold notified. by destruct (patches s), (patchListener s). Qed.

(** X3.  A draft made by [createDraft] and finished untouched gives back the
    base itself.  The draft is revoked; a listener, if given, is still
    called, once, with no patches. *)
Theorem finishDraft_untouched (this : Immer) (fuel : nat) (base : value)
    (listener : option nat) (h : Heap) :
  draftable_in h base →
  ∃ h1 h2,
    createDraft base h = (Ok (VObj (next_addr h)), h1) ∧
    finishDraft this fuel (VObj (next_addr h)) listener h1 = (Ok base, h2) ∧
    events h2 = events h ++ match listener with
                            | Some l => [PatchListener l [] []]
                            | None => []
                            end ∧
    all_revoked h2 (next_scope h) ∧
    ∀ fuel' v, get_prop fuel' (VObj (next_addr h)) v h2 = (Throw revoked_proxy, h2).
Proof.
  intros Hd.
  destruct (createDraft_draftable base h Hd)
    as (h1 & st & s & E & Hl & Hc & Hb & Hm & Hf & Hsc & Hs & Hds & Hp & Hps & Hcur & Hev & _).
  exists h1. 
  assert (root_of h1 (next_scope h) (next_addr h) st s) as Hroot.
  { split; [done|]. split; [done|]. by rewrite Hds. }
  pose proof (root_of_usePatches listener _ _ _ _ _ Hroot) as Hroot'.
  set (s' := match listener with Some x => sc_use_patches x s | None => s end) in *.
  assert (listening s') as Hls.
  { unfold listening, s'. destruct listener; cbn; [by eexists|]. rewrite Hps. by intros []. }
  assert (st_scope st = next_scope h) as Hsc' by done.
  pose proof (processResult_unmodified this fuel _ _ _ _ _ VUndefined Hroot' Hls Hm Hsc'
                (or_introl eq_refl)) as E2.
  eexists. split; [done|].
  assert (finishDraft this fuel (VObj (next_addr h)) listener h1
          = processResult this fuel VUndefined (next_scope h)
              (ImmerScope.usePatches_heap (next_scope h) listener h1)) as ->.
  { unfold finishDraft. unfold bind at 1. rewrite (isDraft_live _ _ _ Hl). cbn [negb].
    unfold bind at 1. rewrite (draft_state_live _ _ _ Hl).
    unfold bind at 1. rewrite (get_state_eq _ _ _ (proj1 Hl)).
    rewrite Hc, Hf, Hsc. cbn [negb]. reflexivity. }
  rewrite E2, Hb.
  destruct (draftable_in_obj _ _ Hd) as [a ->]. cbn [strict_eq].
  split; [reflexivity|].
  split_and!.
  - rewrite notified_events, revoke_heap_events.
    unfold ImmerScope.usePatches_heap, s'.
    destruct listener; cbn; rewrite ?Hps, Hev; cbn; by rewrite ?app_nil_r.
  - intros s0 d0 st0. rewrite notified_cells, notified_scopes.
    apply revoke_heap_all_revoked.
  - intros fuel' k.
    destruct Hroot' as (Hl' & Hs' & Hhd).
    assert (next_addr h ∈ drafts s') as Hin.
    { destruct (drafts s') as [|d ds]; [done|]. injection Hhd as ->. by left. }
    set (h2 := notified _ _).
    assert (cells h2 !! next_addr h = Some (CDraft (st_set_revoked true st))) as Hcell.
    { unfold h2. rewrite notified_cells, (revoke_heap_lookup _ _ _ _ Hs').
      rewrite decide_True by done. by rewrite (proj1 Hl'). }
    destruct fuel'; cbn [get_prop]; unfold bind, get_cell; by rewrite Hcell.
Qed.

Lemma finishDraft_untouched_witness :
  ∃ h1 h2,
    createDraft scenario_base scenario_heap = (Ok (VObj 2), h1) ∧
    finishDraft all_hooks 0 (VObj 2) (Some 7) h1 = (Ok scenario_base, h2) ∧
    events h2 = [PatchListener 7 [] []].
Proof.
  destruct (finishDraft_untouched all_hooks 0 scenario_base (Some 7) scenario_heap)
    as (h1 & h2 & E1 & E2 & Hev & _).
  - reflexivity.
  - by exists h1, h2.
Defined.

(** ** Updates that change nothing *)

(** X4.  An update that changes nothing still reports to its listener: when
    the recipe leaves the root draft unmodified and returns [undefined] or
    the draft, the listener is called exactly once, with an empty list of
    patches and an empty list of inverse patches, and no hook is called. *)
Theorem produce_unmodified_notifies (this : Immer) (fuel : nat) (base : value)
    (recipe : value → M returned) (l : nat) (h h2 : Heap)
    (result : value) (st : DraftState) :
  draftable_in h base →
  recipe (VObj (next_addr h)) (entered base h) = (Ok (Value result), h2) →
  result = VUndefined ∨ result = VObj (next_addr h) →
  kept_root base h h2 st →
  st_modified st = false →
  ∃ h', produce this fuel base recipe (Some l) h = (Ok (Value base), h') ∧
        events h' = events h2 ++ [PatchListener l [] []].
Proof.
  intros Hd Hr Hres Hk Hm.
  destruct (kept_root_ready _ _ _ _ (Some l) Hk) as (s & Hroot & Hls & Hps & Hips & Hpl).
  destruct Hk as (_ & Hsc & Hb & _).
  rewrite (produce_returned _ _ _ _ _ _ _ _ Hd Hr). unfold bind at 1.
  rewrite (processResult_unmodified this fuel _ _ _ _ _ result Hroot Hls Hm Hsc Hres).
  rewrite Hb. destruct (draftable_in_obj _ _ Hd) as [a ->]. cbn [strict_eq ret].
  eexists. split; [reflexivity|].
  rewrite notified_events, revoke_heap_events, ready_events, Hps, Hpl, Hips.
  done.
Qed.

Lemma produce_unmodified_notifies_witness :
  ∃ h', produce all_hooks 0 scenario_base (recipe_return VUndefined) (Some 7)
          scenario_heap = (Ok (Value scenario_base), h') ∧
        events h' = [PatchListener 7 [] []].
Proof.
  apply (produce_unmodified_notifies all_hooks 0 scenario_base (recipe_return VUndefined)
           7 scenario_heap (entered scenario_base scenario_heap) VUndefined
           (fresh_state scenario_base scenario_heap Mapping)).
  - reflexivity.
  - reflexivity.
  - by left.
  - repeat split. eexists. repeat split.
  - reflexivity.
Defined.

Lemma log_events_nil h : log_events [] h = h.
Proof. destruct h. unfold log_events. cbn. by rewrite app_nil_r. Qed.

Lemma log_events_app evs1 evs2 h :
  log_events evs2 (log_events evs1 h) = log_events (evs1 ++ evs2) h.
Proof. unfold log_events. cbn. by rewrite app_assoc. Qed.

Lemma log_event_events e h : log_event e h = log_events [e] h.
Proof. done. Qed.

Lemma for_each_onDelete (s : addr) (l : list (key * bool)) h :
  for_each l (λ e, when (negb e.2) (emit (OnDelete s e.1))) h
  = (Ok tt, log_events ((λ e, OnDelete s e.1) <$> List.filter (λ e : key * bool, negb e.2) l) h).
Proof.
  revert h. induction l as [|[k b] l IH]; intros h; cbn [for_each List.filter fmap list_fmap].
  - by rewrite log_events_nil.
  - unfold bind. destruct b; cbn [negb when snd fst].
    + cbn [ret]. apply IH.
    + unfold emit, modify_heap. rewrite IH, log_event_events, log_events_app. done.
Qed.

Section stages.

Variable this : Immer.

(** The stages of the finalization of a modified draft that is not
    finalized yet (lines 177-214), when it completes. *)
Lemma finalize_stages f d st path scope h v h' :
  fresh_heap h → live_draft h d st → st_scope st = scope →
  st_modified st = true → st_finalized st = false →
  finalize this (S f) (VObj d) path scope h = (Ok v, h') →
  ∃ root h1 st1 sc h4,
    finalizeTree this (finalize this f) f (VObj (st_draft st)) path scope
      (set_cells <[d := CDraft (st_set_finalized true st)]> h) = (Ok root, h1) ∧
    cells h1 !! d = Some (CDraft st1) ∧ same_state (st_set_finalized true st) st1 ∧
    fresh_heap h1 ∧
    scopes h1 !! scope = Some sc ∧
    (if autoFreeze this && canAutoFreeze sc
     then match st_copy st with
          | Some c => ∃ o, cells h1 !! c = Some (CObj o) ∧
                           h4 = set_cells <[c := CObj (Object (o_class o) (o_props o) true)]>
                                  (log_events (hooks_called this d st) h1)
          | None => h4 = log_events (hooks_called this d st) h1
          end
     else h4 = log_events (hooks_called this d st) h1) ∧
    cells h4 !! d = Some (CDraft st1) ∧ fresh_heap h4 ∧
    match path with
    | Some p => when (bool_decide (is_Some (patches sc))) (generatePatches f d p scope)
    | None => ret tt
    end h4 = (Ok tt, h') ∧
    steps scope path true h4 h' ∧
    v = copy_value st.
Proof.
  intros Hf Hl Hsc Hm Hfin E.
  cbn [finalize] in E.
  apply bind_ok_inv in E as (o & h0 & E0 & E).
  rewrite (draft_state_live _ _ _ Hl) in E0. injection E0 as <- <-.
  apply bind_ok_inv in E as (st0 & h0 & E0 & E).
  rewrite (get_state_eq _ _ _ (proj1 Hl)) in E0. injection E0 as <- <-.
  rewrite Hsc, bool_decide_eq_true_2, Hm, Hfin in E by done. cbn [negb] in E.
  apply bind_ok_inv in E as ([] & hE & E & Eend).
  apply bind_ok_inv in E as ([] & h0 & E0 & E).
  unfold update_state, bind in E0. rewrite (get_state_eq _ _ _ (proj1 Hl)) in E0.
  injection E0 as <-.
  set (h0 := set_cells _ h) in *.
  assert (fresh_heap h0) as Hf0.
  { intros a Ha. unfold h0. cbn. rewrite lookup_insert_ne; [by apply Hf|].
    intros Heq. pose proof (Hf _ Ha) as Hn. destruct Hl as [Hl1 _].
    unfold addr in *. congruence. }
  assert (cells h0 !! d = Some (CDraft (st_set_finalized true st))) as Hd0.
  { unfold h0. cbn. apply lookup_insert_eq. }
  apply bind_ok_inv in E as (root & h1 & E1 & E).
  assert (steps scope path false h0 h1) as Hsteps1.
  { eapply (sound_finalizeTree this scope path); [| |exact E1].
    - intros q ->. by unfold within.
    - intros v0 p0 Hp0. by apply sound_finalize. }
  destruct (steps_draft _ _ _ _ _ _ _ Hsteps1 Hf0 Hd0) as (st1 & Hd1 & Hsame1).
  pose proof (steps_fresh _ _ _ _ _ Hsteps1 Hf0) as Hf1.
  assert (st_assigned st1 = st_assigned st) as Hassigned by apply Hsame1.
  assert (st_copy st1 = st_copy st) as Hcopy by apply Hsame1.
  apply bind_ok_inv in E as ([] & h2 & E2 & E).
  assert (h2 = log_events (if onDelete this
              then (λ e, OnDelete d e.1) <$> List.filter (λ e : key * bool, negb e.2) (st_assigned st)
              else []) h1) as ->.
  { destruct (onDelete this); cbn [when] in E2.
    - unfold bind in E2. rewrite (get_state_eq _ _ _ Hd1) in E2.
      rewrite for_each_onDelete, Hassigned in E2. by injection E2 as <-.
    - injection E2 as <-. by rewrite log_events_nil. }
  apply bind_ok_inv in E as ([] & h3 & E3 & E).
  assert (h3 = log_events (hooks_called this d st) h1) as ->.
  { unfold hooks_called. rewrite <- log_events_app.
    destruct (onCopy this); cbn [when] in E3.
    - by injection E3 as <-.
    - injection E3 as <-. by rewrite log_events_nil. }
  set (h3 := log_events _ h1) in *.
  apply bind_ok_inv in E as (sc & h3' & E3' & E).
  pose proof (reads_get_scope _ _ _ _ E3') as ->.
  unfold get_scope in E3'. cbn [scopes h3 log_events] in E3'.
  destruct (scopes h1 !! scope) as [sc'|] eqn:Hsc1; [|done]. injection E3' as ->.
  apply bind_ok_inv in E as ([] & h4 & E4 & E).
  exists root, h1, st1, sc, h4. split; [done|]. split; [done|]. split; [done|].
  split; [done|]. split; [done|].
  apply bind_ok_inv in Eend as (st' & hE' & Eg & Eend).
  pose proof (reads_get_state _ _ _ _ Eg) as ->. injection Eend as <- <-.
  assert ((if autoFreeze this && canAutoFreeze sc
     then match st_copy st with
          | Some c => ∃ o, cells h1 !! c = Some (CObj o) ∧
                           h4 = set_cells <[c := CObj (Object (o_class o) (o_props o) true)]> h3
          | None => h4 = h3
          end
     else h4 = h3)) as Hfreeze.
  { destruct (autoFreeze this && canAutoFreeze sc); cbn [when] in E4.
    + apply bind_ok_inv in E4 as (st3 & h3' & Eg3 & E4).
      pose proof (reads_get_state _ _ _ _ Eg3) as ->.
      unfold get_state, bind, get_cell in Eg3. cbn [cells h3 log_events] in Eg3.
      rewrite Hd1 in Eg3. injection Eg3 as <-. rewrite Hcopy in E4.
      destruct (st_copy st) as [c|]; [|by injection E4 as <-].
      unfold freeze in E4. apply bind_ok_inv in E4 as (o & h3' & Eo & E4).
      pose proof (reads_get_object _ _ _ _ Eo) as ->.
      unfold get_object, bind, get_cell in Eo. cbn [cells h3 log_events] in Eo.
      destruct (cells h1 !! c) as [[o'|]|] eqn:Hc; try done. injection Eo as ->.
      injection E4 as <-. by exists o.
    + by injection E4 as <-. }
  assert (cells h4 !! d = Some (CDraft st1) ∧ fresh_heap h4) as [Hd4 Hf4].
  { assert (fresh_heap h3) as Hf3 by done.
    assert (cells h3 !! d = Some (CDraft st1)) as Hd3 by done.
    destruct (autoFreeze this && canAutoFreeze sc); [|by subst h4].
    destruct (st_copy st) as [c|]; [|by subst h4].
    destruct Hfreeze as (o & Hc & ->). cbn [cells set_cells]. split.
    - rewrite lookup_insert_ne; [done|]. intros ->. unfold addr in *. congruence.
    - intros a Ha. cbn [cells set_cells]. rewrite lookup_insert_ne; [by apply Hf1|].
      intros ->. pose proof (Hf1 _ Ha). unfold addr in *. congruence. }
  assert (steps scope path true h4 hE) as Hsteps4.
  { assert (sound scope path true (match path with
       | Some p => when (bool_decide (is_Some (patches sc))) (generatePatches f d p scope)
       | None => ret tt end)) as Hsound; [|exact (Hsound _ _ _ E)].
    destruct path as [p|]; [|apply sound_ret].
    apply sound_when, sound_generatePatches. by unfold within. }
  split_and!; try done.
  destruct (steps_draft _ _ _ _ _ _ _ Hsteps4 Hf4 Hd4) as (stE & HdE & HsameE).
  unfold get_state, bind, get_cell in Eg. rewrite HdE in Eg. injection Eg as <-.
  unfold copy_value. 
  assert (st_copy stE = st_copy st) as -> by (etrans; [apply HsameE|done]). done.
Qed.

End stages.

Section finalize_results.

Variable this : Immer.

Lemma finalize_draft_result fuel d st path scope h v h' :
  fresh_heap h → live_draft h d st →
  finalize this fuel (VObj d) path scope h = (Ok v, h') →
  v = (if bool_decide (st_scope st = scope)
       then if st_modified st then copy_value st else st_base st
       else VObj d) ∧
  ∃ st', cells h' !! d = Some (CDraft st') ∧ same_state st st' ∧
         (st_scope st = scope → st_modified st = true → st_finalized st' = true) ∧
         (st_scope st ≠ scope ∨ st_modified st = false → h' = h).
Proof.
  intros Hf Hl E.
  pose proof (finalize_steps _ _ _ _ _ _ _ _ E) as Hsteps.
  destruct (steps_draft _ _ _ _ _ _ _ Hsteps Hf (proj1 Hl)) as (st' & Hd' & Hsame).
  destruct (decide (st_scope st = scope)) as [Hsc|Hsc].
  2:{ rewrite (finalize_foreign this scope fuel d st path h Hl Hsc) in E.
      injection E as <- <-. rewrite bool_decide_eq_false_2 by done.
      split; [done|]. exists st. rewrite (proj1 Hl). split_and!; try done. }
  rewrite bool_decide_eq_true_2 by done.
  destruct (st_modified st) eqn:Hm.
  2:{ assert (finalize this fuel (VObj d) path scope h = (Ok (st_base st), h)) as E'.
      { destruct fuel; cbn [finalize]; unfold bind;
          rewrite (draft_state_live _ _ _ Hl), (get_state_eq _ _ _ (proj1 Hl)), Hsc,
            bool_decide_eq_true_2, Hm by done; done. }
      rewrite E' in E. injection E as <- <-. split; [done|]. exists st.
      rewrite (proj1 Hl). split_and!; try done. }
  destruct (st_finalized st) eqn:Hfin.
  { assert (finalize this fuel (VObj d) path scope h = (Ok (copy_value st), h)) as E'.
    { destruct fuel; cbn [finalize]; unfold bind;
        rewrite (draft_state_live _ _ _ Hl), (get_state_eq _ _ _ (proj1 Hl)), Hsc,
          bool_decide_eq_true_2, Hm, Hfin by done; cbn;
        by rewrite (get_state_eq _ _ _ (proj1 Hl)). }
    rewrite E' in E. injection E as <- <-. split; [done|]. exists st.
    rewrite (proj1 Hl). split_and!; try done. }
  destruct fuel as [|f].
  { cbn [finalize] in E. unfold bind in E.
    by rewrite (draft_state_live _ _ _ Hl), (get_state_eq _ _ _ (proj1 Hl)), Hsc,
      bool_decide_eq_true_2, Hm, Hfin in E by done. }
  destruct (finalize_stages this f d st path scope h v h' Hf Hl Hsc Hm Hfin E)
    as (root & h1 & st1 & sc & h4 & _ & _ & Hsame1 & _ & _ & _ & Hd4 & Hf4 & _ & Hsteps4 & ->).
  split; [done|]. exists st'. split_and!; try done; [|by intros [|]].
  intros _ _.
  destruct (steps_draft _ _ _ _ _ _ _ Hsteps4 Hf4 Hd4) as (stE & HdE & HsameE).
  assert (stE = st') as <- by congruence.
  apply HsameE, Hsame1. done.
Qed.

End finalize_results.

(** X5.  What [finalize] returns, when it returns: a value that is not a
    draft is returned as it is (its tree has been finalized in place); a
    draft of another scope is returned as it is; an unmodified draft gives
    its base, a modified draft its copy. *)
Theorem finalize_returns (this : Immer) (fuel : nat) (v : value)
    (path : option (list key)) (scope : scope_id) (h : Heap) (r : value) (h' : Heap) :
  fresh_heap h →
  finalize this fuel v path scope h = (Ok r, h') →
  match v with
  | VObj a =>
      match cells h !! a with
      | Some (CDraft st) =>
          r = if bool_decide (st_scope st = scope)
              then if st_modified st then copy_value st else st_base st
              else v
      | _ => r = v
      end
  | _ => r = v
  end.
Proof.
  intros Hf E.
  assert (draft_state v h = (Ok None, h) →
          finalize this fuel v path scope h = (Ok r, h') → r = v) as Hplain.
  { clear E. intros Hds E.
    destruct fuel as [|f]; cbn [finalize] in E;
      apply bind_ok_inv in E as (o & h0 & E0 & E);
      rewrite Hds in E0; injection E0 as <- <-;
      apply bind_ok_inv in E as (fr & h0 & Efr & E);
      pose proof (reads_isFrozen _ _ _ _ Efr) as ->;
      (destruct fr; [by injection E as <-|]); [done|].
    unfold finalizeTree in E.
    apply bind_ok_inv in E as (o & h1 & E1 & E).
    rewrite Hds in E1. injection E1 as <- <-.
    apply bind_ok_inv in E as (root & h1 & [= <- <-] & E).
    apply bind_ok_inv in E as (sc & h1 & _ & E).
    apply bind_ok_inv in E as ([] & h2 & _ & E).
    by injection E as <-. }
  destruct v as [| | | | | |a]; try (apply Hplain; [|done]); try done.
  - destruct fuel; cbn [finalize] in E; by apply bind_ok_inv in E as (? & ? & ? & _).
  - destruct fuel; cbn [finalize] in E; by apply bind_ok_inv in E as (? & ? & ? & _).
  - destruct (cells h !! a) as [[o|st]|] eqn:Ha.
    + apply Hplain; [|done]. unfold draft_state, bind, get_cell. by rewrite Ha.
    + destruct (st_revoked st) eqn:Hrev.
      * destruct fuel; cbn [finalize] in E; apply bind_ok_inv in E as (? & ? & E0 & _);
          unfold draft_state, bind, get_cell in E0; by rewrite Ha, Hrev in E0.
      * by apply (finalize_draft_result this fuel a st path scope h r h' Hf).
    + destruct fuel; cbn [finalize] in E; apply bind_ok_inv in E as (? & ? & E0 & _);
        unfold draft_state, bind, get_cell in E0; by rewrite Ha in E0.
Qed.

Lemma finalize_returns_witness :
  ∃ h', finalize all_hooks 2 (VObj 2) (Some []) 0 scenario_A_heap = (Ok (VObj 5), h') ∧
        VObj 5 = copy_value (State 0 true false [] None scenario_base 2
                               [(KStr "b", VObj 3)] (Some 5) Mapping false false).
Proof.
  exists (finalize all_hooks 2 (VObj 2) (Some []) 0 scenario_A_heap).2.
  assert (finalize all_hooks 2 (VObj 2) (Some []) 0 scenario_A_heap
          = (Ok (VObj 5), (finalize all_hooks 2 (VObj 2) (Some []) 0 scenario_A_heap).2)) as E
    by (vm_compute; reflexivity).
  split; [exact E|].
  assert (fresh_heap scenario_A_heap) as Hf
    by (apply fresh_heap_check; vm_compute; reflexivity).
  exact (finalize_returns all_hooks 2 (VObj 2) (Some []) 0 scenario_A_heap _ _ Hf E).
Defined.

(** X6.  Finalizing a draft is idempotent: once [finalize] has returned for
    a draft, finalizing the same draft again, with whatever path, returns
    the same value and changes nothing: no hook is called and no patch
    recorded a second time. *)
Theorem finalize_twice (this : Immer) (fuel : nat) (d : addr) (st : DraftState)
    (path : option (list key)) (scope : scope_id) (h : Heap) (v : value) (h' : Heap) :
  fresh_heap h → live_draft h d st →
  finalize this fuel (VObj d) path scope h = (Ok v, h') →
  ∀ fuel' path', finalize this fuel' (VObj d) path' scope h' = (Ok v, h').
Proof.
  intros Hf Hl E fuel' path'.
  destruct (finalize_draft_result this fuel d st path scope h v h' Hf Hl E)
    as (-> & st' & Hd' & Hsame & Hfin & _).
  assert (live_draft h' d st') as Hl'.
  { split; [done|]. destruct Hsame as (_&_&_&_&_&_&_&_&->&_). apply Hl. }
  assert (st_scope st' = st_scope st) as Hsc by apply Hsame.
  assert (st_modified st' = st_modified st) as Hm by apply Hsame.
  assert (st_base st' = st_base st) as Hb by apply Hsame.
  assert (st_copy st' = st_copy st) as Hc by apply Hsame.
  destruct (decide (st_scope st = scope)) as [Hs|Hs].
  - rewrite bool_decide_eq_true_2 by done.
    destruct fuel'; cbn [finalize]; unfold bind;
      rewrite (draft_state_live _ _ _ Hl'), (get_state_eq _ _ _ Hd'), Hsc,
        bool_decide_eq_true_2, Hm by done;
      (destruct (st_modified st) eqn:Hmod; cbn [negb]; [|by rewrite Hb]);
      rewrite (Hfin Hs eq_refl); cbn; rewrite (get_state_eq _ _ _ Hd');
      unfold copy_value; by rewrite Hc.
  - rewrite bool_decide_eq_false_2 by done.
    apply finalize_foreign with st'; [done|congruence].
Qed.

Lemma finalize_twice_witness :
  ∃ v h', finalize all_hooks 2 (VObj 2) (Some []) 0 scenario_A_heap = (Ok v, h') ∧
          finalize all_hooks 0 (VObj 2) None 0 h' = (Ok v, h').
Proof.
  exists (VObj 5), (finalize all_hooks 2 (VObj 2) (Some []) 0 scenario_A_heap).2.
  assert (finalize all_hooks 2 (VObj 2) (Some []) 0 scenario_A_heap
          = (Ok (VObj 5), (finalize all_hooks 2 (VObj 2) (Some []) 0 scenario_A_heap).2)) as E
    by (vm_compute; reflexivity).
  split; [exact E|].
  apply (finalize_twice all_hooks 2 2
           (State 0 true false [] None scenario_base 2 [(KStr "b", VObj 3)]
                  (Some 5) Mapping false false)
           (Some []) 0 scenario_A_heap); [| |exact E].
  - apply fresh_heap_check. vm_compute. reflexivity.
  - split; vm_compute; reflexivity.
Defined.

(** X7.  The hooks that end the finalization of a modified draft come in a
    fixed order, after everything the finalization of its tree has done:
    [onDelete] once for each key marked as deleted, in the order of the
    [assigned] map, then [onCopy] once; freezing and the generation of
    patches call nothing. *)
Theorem finalize_hook_order (this : Immer) (f : nat) (d : addr) (st : DraftState)
    (path : option (list key)) (scope : scope_id) (h : Heap) (v : value) (h' : Heap) :
  fresh_heap h → live_draft h d st → st_scope st = scope →
  st_modified st = true → st_finalized st = false →
  finalize this (S f) (VObj d) path scope h = (Ok v, h') →
  ∃ root h1,
    finalizeTree this (finalize this f) f (VObj (st_draft st)) path scope
      (set_cells <[d := CDraft (st_set_finalized true st)]> h) = (Ok root, h1) ∧
    events h' = events h1 ++ hooks_called this d st.
Proof.
  intros Hf Hl Hsc Hm Hfin E.
  destruct (finalize_stages this f d st path scope h v h' Hf Hl Hsc Hm Hfin E)
    as (root & h1 & st1 & sc & h4 & E1 & _ & _ & _ & _ & Hfr & _ & _ & _ & Hsteps4 & _).
  exists root, h1. split; [done|].
  rewrite (steps_silent _ _ _ _ _ eq_refl Hsteps4).
  destruct (autoFreeze this && canAutoFreeze sc); [|by subst h4].
  destruct (st_copy st); [|by subst h4].
  by destruct Hfr as (o & _ & ->).
Qed.

Lemma finalize_hook_order_witness :
  ∃ root h1 v h',
    finalizeTree all_hooks (finalize all_hooks 1) 1 (VObj 2) (Some []) 0
      (set_cells <[2 := CDraft (st_set_finalized true
                     (State 0 true false [(KStr "a", false)] None scenario_base 2 []
                            (Some 3) Mapping false false))]>
         (ready 0 (Some 7)
            (recipe_delete (KStr "a") (VObj 2) (entered scenario_base scenario_heap)).2))
      = (Ok root, h1) ∧
    finalize all_hooks 2 (VObj 2) (Some []) 0
      (ready 0 (Some 7)
         (recipe_delete (KStr "a") (VObj 2) (entered scenario_base scenario_heap)).2)
      = (Ok v, h') ∧
    events h' = events h1 ++ [OnDelete 2 (KStr "a"); OnCopy 2].
Proof.
  set (h := ready 0 (Some 7)
              (recipe_delete (KStr "a") (VObj 2) (entered scenario_base scenario_heap)).2).
  destruct (finalize_hook_order all_hooks 1 2
              (State 0 true false [(KStr "a", false)] None scenario_base 2 []
                     (Some 3) Mapping false false)
              (Some []) 0 h (VObj 3) (finalize all_hooks 2 (VObj 2) (Some []) 0 h).2)
    as (root & h1 & E1 & Hev).
  - apply fresh_heap_check. vm_compute. reflexivity.
  - split; vm_compute; reflexivity.
  - reflexivity.
  - reflexivity.
  - reflexivity.
  - vm_compute. reflexivity.
  - exists root, h1, (VObj 3), (finalize all_hooks 2 (VObj 2) (Some []) 0 h).2.
    split; [exact E1|]. split; [vm_compute; reflexivity|]. exact Hev.
Defined.

Lemma steps_object_frozen scope under silent h h' a o :
  steps scope under silent h h' → fresh_heap h →
  cells h !! a = Some (CObj o) → o_frozen o = true →
  cells h' !! a = Some (CObj o).
Proof.
  intros Hsteps. induction Hsteps as [h|h1 h2 h3 Hstep _ IH]; intros Hf Ha Hfr; [done|].
  destruct (step_object _ _ _ _ _ _ _ Hstep Hf Ha) as (o2 & Ha2 & _ & Heq & _).
  rewrite (Heq Hfr) in Ha2.
  apply IH; [by eapply step_fresh|done..].
Qed.

Lemma ready_fresh sc l h : fresh_heap h → fresh_heap (ready sc l h).
Proof.
  intros Hf a Ha. rewrite ready_cells. apply Hf.
  unfold ready, ImmerScope.usePatches_heap, ImmerScope.leave_heap in Ha.
  destruct l; cbn in Ha; destruct (scopes h !! sc); try done; by destruct (decide _).
Qed.

Lemma settle_root this fuel sc d st s h result :
  root_of h sc d st s → result = VUndefined ∨ result = VObj d →
  settle this fuel result sc h = finalize this fuel (VObj d) (Some []) sc h.
Proof.
  intros (Hl & Hs & Hd) Hres. unfold settle.
  unfold bind at 1. rewrite (get_scope_eq _ _ _ Hs).
  destruct (drafts s) as [|d' ds]; [done|]. injection Hd as ->.
  assert (negb (strict_eq result VUndefined) && negb (strict_eq result (VObj d)) = false) as ->.
  { destruct Hres as [-> | ->]; [done|].
    rewrite strict_eq_obj, bool_decide_eq_true_2 by done. apply andb_false_r. }
  done.
Qed.

Lemma revoke_heap_object sc h a o :
  cells h !! a = Some (CObj o) →
  cells (ImmerScope.revoke_heap sc h) !! a = Some (CObj o).
Proof.
  intros Ha. unfold ImmerScope.revoke_heap.
  destruct (scopes (ImmerScope.leave_heap sc h) !! sc) as [s|] eqn:Hs;
    [|by rewrite leave_heap_cells].
  cbn [cells set_cells]. rewrite lookup_revoke_all, leave_heap_cells, Ha.
  by destruct (decide _).
Qed.

(** X8.  With [autoFreeze] on, the copy that an update returns for its
    modified root draft is frozen, provided the scope may still auto-freeze
    when the update ends (no draft of another scope was met). *)
Theorem produce_auto_freezes (this : Immer) (fuel : nat) (base : value)
    (recipe : value → M returned) (listener : option nat) (h h2 : Heap)
    (result : value) (st : DraftState) (c : addr) (v : value) (h' : Heap) (s' : Scope) :
  draftable_in h base →
  recipe (VObj (next_addr h)) (entered base h) = (Ok (Value result), h2) →
  result = VUndefined ∨ result = VObj (next_addr h) →
  kept_root base h h2 st → fresh_heap h2 →
  st_modified st = true → st_finalized st = false → st_copy st = Some c →
  autoFreeze this = true →
  produce this fuel base recipe listener h = (Ok (Value v), h') →
  scopes h' !! next_scope h = Some s' → canAutoFreeze s' = true →
  v = VObj c ∧ ∃ o, cells h' !! c = Some (CObj o) ∧ o_frozen o = true.
Proof.
  intros Hd Hr Hres Hk Hf Hm Hfin Hc Haf E Hs' Hcaf.
  destruct (kept_root_ready _ _ _ _ listener Hk) as (s & Hroot & Hls & _).
  destruct Hk as (_ & Hsc & _).
  rewrite (produce_returned _ _ _ _ _ _ _ _ Hd Hr) in E.
  apply bind_ok_inv in E as (r & h3 & E & [= -> ->]).
  rewrite processResult_split in E.
  apply bind_ok_inv in E as (x & hB & Eset & Econ).
  rewrite (settle_root _ _ _ _ _ _ _ _ Hroot Hres) in Eset.
  pose proof (ready_fresh (next_scope h) listener _ Hf) as Hf3.
  destruct Hroot as (Hl & Hs & _).
  destruct fuel as [|f].
  { cbn [finalize] in Eset. unfold bind in Eset.
    by rewrite (draft_state_live _ _ _ Hl), (get_state_eq _ _ _ (proj1 Hl)), Hsc,
      bool_decide_eq_true_2, Hm, Hfin in Eset by done. }
  destruct (finalize_stages this f _ st _ _ _ _ _ Hf3 Hl Hsc Hm Hfin Eset)
    as (root & h1 & st1 & sc1 & h4 & _ & _ & _ & Hf1 & Hsc1 & Hfr & _ & Hf4 & _ & Hsteps4 & ->).
  assert (scopes h4 !! next_scope h = Some sc1) as Hsc4.
  { destruct (autoFreeze this && canAutoFreeze sc1); [|by subst h4].
    destruct (st_copy st); [|by subst h4]. by destruct Hfr as (o & _ & ->). }
  destruct (steps_scope_kept _ _ _ _ _ _ _ Hsteps4 Hsc4) as (sB & HsB & Hsame).
  rewrite (conclude_result _ _ _ _ HsB) in Econ.
  assert (v = (if strict_eq (copy_value st) VNothing then VUndefined else copy_value st) ∧
          h' = notified sB (ImmerScope.revoke_heap (next_scope h) hB)) as [-> ->].
  { destruct (patches sB); [destruct (patchListener sB); [|done]|];
      by injection Econ as <- <-. }
  rewrite notified_scopes, revoke_heap_scopes, HsB in Hs'. injection Hs' as <-.
  assert (canAutoFreeze sc1 = true) as Hcaf1.
  { destruct (canAutoFreeze sc1) eqn:E1; [done|].
    destruct Hsame as (_ & _ & _ & Hmono & _). by rewrite Hmono in Hcaf. }
  rewrite Haf, Hcaf1, Hc in Hfr. cbn in Hfr. destruct Hfr as (o & Ho & ->).
  unfold copy_value. rewrite Hc. cbn [strict_eq]. split; [done|].
  exists (Object (o_class o) (o_props o) true). split; [|done].
  rewrite notified_cells. apply revoke_heap_object.
  eapply steps_object_frozen; [done|done| |done].
  cbn [cells set_cells]. apply lookup_insert_eq.
Qed.

Lemma produce_auto_freezes_witness :
  ∃ h' o,
    produce all_hooks 2 scenario_base (recipe_set (KStr "a") (VNumber (Fin 2))) (Some 7)
      scenario_heap = (Ok (Value (VObj 3)), h') ∧
    cells h' !! 3 = Some (CObj o) ∧ o_frozen o = true.
Proof.
  set (recipe := recipe_set (KStr "a") (VNumber (Fin 2))).
  set (h' := (produce all_hooks 2 scenario_base recipe (Some 7) scenario_heap).2).
  assert (produce all_hooks 2 scenario_base recipe (Some 7) scenario_heap
          = (Ok (Value (VObj 3)), h')) as E by (vm_compute; reflexivity).
  destruct (produce_auto_freezes all_hooks 2 scenario_base recipe (Some 7) scenario_heap
              (recipe (VObj 2) (entered scenario_base scenario_heap)).2
              VUndefined
              (State 0 true false [(KStr "a", true)] None scenario_base 2 []
                     (Some 3) Mapping false false)
              3 (VObj 3) h'
              (MkScope [2] None true
                 (Some [Patch Replace [KStr "a"] (Some (VNumber (Fin 2)))])
                 (Some [Patch Replace [KStr "a"] (Some (VNumber (Fin 1)))])
                 (Some 7)))
    as (_ & o & Ho & Hfr).
  - reflexivity.
  - reflexivity.
  - by left.
  - repeat split. eexists. repeat split.
  - apply fresh_heap_check. vm_compute. reflexivity.
  - reflexivity.
  - reflexivity.
  - reflexivity.
  - reflexivity.
  - exact E.
  - vm_compute. reflexivity.
  - reflexivity.
  - by exists h', o.
Defined.

(** X9.  A failure of finalization is not a failure of the recipe: when the
    finalization of the root draft raises an error, [produce] raises that
    error and stops there.  The scope is not revoked, the root draft stays
    live, and the listener is not called. *)
Theorem produce_finalize_failure (this : Immer) (fuel : nat) (base : value)
    (recipe : value → M returned) (listener : option nat) (h h2 : Heap)
    (result : value) (st : DraftState) (e : error) (hB : Heap) :
  draftable_in h base →
  recipe (VObj (next_addr h)) (entered base h) = (Ok (Value result), h2) →
  result = VUndefined ∨ result = VObj (next_addr h) →
  kept_root base h h2 st → fresh_heap h2 →
  finalize this fuel (VObj (next_addr h)) (Some []) (next_scope h)
    (ready (next_scope h) listener h2) = (Throw e, hB) →
  produce this fuel base recipe listener h = (Throw e, hB) ∧
  (∃ st', live_draft hB (next_addr h) st') ∧
  ∃ evs, events hB = events h2 ++ evs ∧ Forall hook_event evs.
Proof.
  intros Hd Hr Hres Hk Hf E.
  destruct (kept_root_ready _ _ _ _ listener Hk) as (s & Hroot & Hls & _).
  pose proof (ready_fresh (next_scope h) listener _ Hf) as Hf3.
  pose proof (finalize_steps _ _ _ _ _ _ _ _ E) as Hsteps.
  split_and!.
  - rewrite (produce_returned _ _ _ _ _ _ _ _ Hd Hr). unfold bind at 1.
    rewrite processResult_split. unfold bind at 1.
    by rewrite (settle_root _ _ _ _ _ _ _ _ Hroot Hres), E.
  - destruct Hroot as (Hl & _).
    destruct (steps_draft _ _ _ _ _ _ _ Hsteps Hf3 (proj1 Hl)) as (st' & Hd' & Hsame).
    exists st'. split; [done|]. destruct Hsame as (_&_&_&_&_&_&_&_&->&_). apply Hl.
  - destruct (steps_events _ _ _ _ _ Hsteps) as (evs & Hev & Hhook & _).
    exists evs. by rewrite Hev, ready_events.
Qed.

Lemma produce_finalize_failure_witness :
  ∃ hB st',
    produce all_hooks 3 scenario_base recipe_set_cycle (Some 7) scenario_heap
      = (Throw CircularReference, hB) ∧
    live_draft hB 2 st'.
Proof.
  set (h2 := (recipe_set_cycle (VObj 2) (entered scenario_base scenario_heap)).2).
  set (hB := (finalize all_hooks 3 (VObj 2) (Some []) 0 (ready 0 (Some 7) h2)).2).
  destruct (produce_finalize_failure all_hooks 3 scenario_base recipe_set_cycle (Some 7)
              scenario_heap h2 VUndefined
              (State 0 true false [(KStr "x", true)] None scenario_base 2 []
                     (Some 4) Mapping false false)
              CircularReference hB)
    as (E & (st' & Hl) & _).
  - reflexivity.
  - reflexivity.
  - by left.
  - repeat split. eexists. repeat split.
  - apply fresh_heap_check. vm_compute. reflexivity.
  - vm_compute. reflexivity.
  - by exists hB, st'.
Defined.

(** ** What the engine's own steps respect

    The engine changes the heap through a few primitives.  A relation that
    every primitive respects, the hooks as far as they are installed and
    freezing as far as it is switched on, is respected by [finalize]. *)

Section engine_respects.

Variable this : Immer.
Variable R : relation Heap.
Context `{!PreOrder R}.

Hypothesis R_alloc : ∀ c, respects R (alloc c).
Hypothesis R_assign : ∀ a k v, respects R (assign_prop a k v).
Hypothesis R_define : ∀ a k v, respects R (defineProperty a k v).
Hypothesis R_state : ∀ s f, respects R (update_state s f).
Hypothesis R_scope : ∀ sc f, respects R (update_scope sc f).
Hypothesis R_emit : ∀ e, installed this e → respects R (emit e).
Hypothesis R_freeze : autoFreeze this = true → ∀ a, respects R (freeze a).

Lemma respects_createProxy base parent : respects R (createProxy base parent).
Proof using Type*.
  unfold createProxy. apply (respects_bind _).
  { destruct parent.
    - apply (respects_bind _); [apply (respects_reads _), reads_get_state|].
      intros st. apply (respects_ret _).
    - apply (respects_bind _); [apply (respects_reads _), reads_get_heap|]. intros h.
      destruct (current h); [apply (respects_ret _)|apply (respects_throw _)]. }
  intros sc. apply (respects_bind _); [apply (respects_reads _), reads_isArray|]. intros arr.
  apply (respects_bind _); [apply (respects_reads _), reads_get_heap|]. intros h.
  apply (respects_bind _); [apply R_alloc|]. intros _.
  apply (respects_bind _); [|intros _; apply (respects_ret _)].
  apply R_scope.
Qed.

Lemma respects_read_with get s k :
  (∀ v k, respects R (get v k)) → respects R (read_with get s k).
Proof using Type*.
  intros Hget. unfold read_with.
  apply (respects_bind _); [apply (respects_reads _), reads_get_state|]. intros st.
  destruct (alist_get k (st_drafts st)); [apply (respects_ret _)|].
  apply (respects_bind _).
  { destruct (st_copy st); [|apply Hget].
    apply (respects_bind _); [apply (respects_reads _), reads_get_object|]. intros o.
    apply (respects_ret _). }
  intros v. apply (respects_bind _); [apply (respects_reads _), reads_isDraftable|]. intros dr.
  apply (respects_bind _); [apply (respects_reads _), reads_isFrozen|]. intros fr.
  destruct (_ && _); [|apply (respects_ret _)].
  apply (respects_bind _); [apply respects_createProxy|]. intros d.
  apply (respects_bind _); [apply R_state|]. intros _.
  apply (respects_bind _); [|intros _; apply (respects_ret _)].
  destruct (st_copy st); [apply R_assign|apply (respects_ret _)].
Qed.

Lemma respects_get_prop fuel v k : respects R (get_prop fuel v k).
Proof using Type*.
  revert v k. induction fuel as [|f IH]; intros v k;
    (destruct v; cbn [get_prop]; try apply (respects_ret _); try apply (respects_throw _);
     apply (respects_bind _); [apply (respects_reads _), reads_get_cell|];
     intros [o|st]; [apply (respects_ret _)|];
     destruct (st_revoked st); [apply (respects_throw _)|]).
  - apply (respects_out_of_fuel _).
  - by apply respects_read_with.
Qed.

Lemma respects_state_base_prop fuel state prop :
  respects R (state_base_prop fuel state prop).
Proof using Type*.
  destruct state; [|apply (respects_throw _)].
  apply (respects_bind _); [apply (respects_reads _), reads_get_state|]. intros st.
  apply respects_get_prop.
Qed.

Lemma respects_map_each {A B} (l : list A) (f : A → M B) :
  (∀ x, respects R (f x)) → respects R (map_each l f).
Proof using Type*.
  intros Hf. induction l as [|x l IH]; cbn.
  - apply (respects_ret _).
  - apply (respects_bind _); [apply Hf|]. intros y.
    apply (respects_bind _); [apply IH|]. intros ys. apply (respects_ret _).
Qed.

Lemma respects_describe fuel v : respects R (describe fuel v).
Proof using Type*.
  revert v. induction fuel as [|f IH]; intros v;
    (destruct v; cbn [describe]; try apply (respects_throw _);
     apply (respects_bind _); [apply (respects_reads _), reads_get_cell|];
     intros [o|st]; [apply (respects_ret _)|];
     destruct (st_revoked st); [apply (respects_throw _)|]).
  - apply (respects_out_of_fuel _).
  - apply (respects_bind _).
    { destruct (st_copy st); [|apply IH].
      apply (respects_bind _); [apply (respects_reads _), reads_get_object|].
      intros o. apply (respects_ret _). }
    intros src. apply (respects_bind _); [|intros; apply (respects_ret _)].
    apply respects_map_each. intros e.
    apply (respects_bind _); [|intros; apply (respects_ret _)].
    apply respects_read_with. intros. apply respects_get_prop.
Qed.

Lemma respects_generatePatches fuel s basePath sc :
  respects R (generatePatches fuel s basePath sc).
Proof using Type*.
  unfold generatePatches.
  apply (respects_bind _); [apply (respects_reads _), reads_get_state|]. intros st.
  apply (respects_bind _); [apply respects_describe|]. intros old.
  apply (respects_bind _).
  { destruct (st_copy st); [|apply (respects_throw _)].
    apply (respects_bind _); [apply (respects_reads _), reads_get_object|].
    intros o. apply (respects_ret _). }
  intros new. destruct (st_kind st).
  - destruct (bool_decide _).
    + apply (respects_bind _); [apply R_alloc|]. intros tail. apply R_scope.
    + apply (respects_for_each _). intros i. cbn zeta.
      destruct (is_ _ _); [apply (respects_ret _)|].
      destruct (bool_decide _); apply R_scope.
  - apply (respects_for_each _). intros e. cbn zeta.
    destruct e.2; [destruct (alist_get _ _)|]; apply R_scope.
Qed.

Lemma respects_finalizeProperty fin fuel state root rootPath scope needPatches prop v parent :
  (∀ v p, respects R (fin v p scope)) →
  respects R (finalizeProperty this fin fuel state root rootPath scope needPatches
                prop v parent).
Proof using Type*.
  intros Hfin. revert prop v parent.
  assert (∀ s p x b, respects R (when (b && onAssign this) (emit (OnAssign s p x)))) as Hon.
  { intros s p x b. destruct (onAssign this) eqn:E.
    - apply (respects_when _), R_emit. done.
    - rewrite andb_false_r. apply (respects_ret _). }
  induction fuel as [|f IH]; intros prop v parent; cbn [finalizeProperty];
    (destruct (strict_eq v (VObj parent)); [apply (respects_throw _)|];
     apply (respects_bind _); [apply (respects_reads _), reads_isDraft|]; intros isd;
     apply (respects_bind _);
     [|intros [v'|]; [destruct state; [apply Hon|apply (respects_ret _)]
                     |apply (respects_ret _)]];
     destruct isd;
     [ apply (respects_bind _);
       [destruct (_ && _); [apply (respects_reads _), reads_state_assigned
                           |apply (respects_ret _)]|];
       intros assigned;
       apply (respects_bind _); [apply Hfin|];
       intros v';
       apply (respects_bind _); [apply (respects_reads _), reads_isDraft|]; intros isd';
       apply (respects_bind _); [apply (respects_when _), R_scope|]; intros _;
       apply (respects_bind _); [apply (respects_reads _), reads_isArray|]; intros arr;
       apply (respects_bind _);
       [destruct arr; [apply (respects_ret _)|apply (respects_reads _), reads_isEnumerable]|];
       intros enum;
       apply (respects_bind _);
       [destruct enum; [apply R_assign|apply R_define]|]; intros _;
       apply (respects_bind _); [|intros; apply (respects_ret _)];
       destruct (_ && _);
       [apply (respects_bind _); [apply respects_state_base_prop|intros; apply (respects_ret _)]
       |apply (respects_ret _)]
     | apply (respects_bind _);
       [destruct (_ && _);
        [apply (respects_bind _); [apply respects_state_base_prop|intros; apply (respects_ret _)]
        |apply (respects_ret _)]|];
       intros unchanged; destruct unchanged; [apply (respects_ret _)|];
       apply (respects_bind _); [apply (respects_reads _), reads_isDraftable|];
       intros draftable;
       apply (respects_bind _);
       [destruct draftable; [apply (respects_reads _), reads_isFrozen|apply (respects_ret _)]|];
       intros frozen;
       apply (respects_bind _); [|intros; apply (respects_ret _)];
       destruct (_ && _); [|apply (respects_ret _)] ]).
  - apply (respects_out_of_fuel _).
  - apply (respects_each _). intros. apply IH.
Qed.

Lemma respects_finalizeTree fin fuel root rootPath scope :
  (∀ v p, respects R (fin v p scope)) →
  respects R (finalizeTree this fin fuel root rootPath scope).
Proof using Type*.
  intros Hfin. unfold finalizeTree.
  apply (respects_bind _); [apply (respects_reads _), reads_draft_state|]. intros state.
  apply (respects_bind _).
  { destruct state; [|apply (respects_ret _)].
    apply (respects_bind _); [apply (respects_reads _), reads_get_state|].
    intros st. apply (respects_ret _). }
  intros root'. apply (respects_bind _); [apply (respects_reads _), reads_get_scope|].
  intros sc.
  apply (respects_bind _); [|intros; apply (respects_ret _)].
  apply (respects_each _). intros. by apply respects_finalizeProperty.
Qed.

Lemma respects_finalize fuel draft path scope :
  respects R (finalize this fuel draft path scope).
Proof using Type*.
  revert draft path. induction fuel as [|f IH]; intros draft path;
    cbn [finalize];
    (apply (respects_bind _); [apply (respects_reads _), reads_draft_state|]; intros [s|];
     [ apply (respects_bind _); [apply (respects_reads _), reads_get_state|]; intros st;
       destruct (negb (bool_decide _)); [apply (respects_ret _)|];
       destruct (negb (st_modified st)); [apply (respects_ret _)|];
       apply (respects_bind _);
       [|intros _; apply (respects_bind _); [apply (respects_reads _), reads_get_state|];
         intros; apply (respects_ret _)];
       destruct (negb (st_finalized st)); [|apply (respects_ret _)]
     | apply (respects_bind _); [apply (respects_reads _), reads_isFrozen|]; intros frozen;
       destruct frozen; [apply (respects_ret _)|] ]).
  - apply (respects_out_of_fuel _).
  - apply (respects_out_of_fuel _).
  - apply (respects_bind _); [apply R_state|]. intros _.
    apply (respects_bind _); [by apply respects_finalizeTree|]. intros _.
    apply (respects_bind _).
    { destruct (onDelete this) eqn:E; [|apply (respects_ret _)]. cbn [when].
      apply (respects_bind _); [apply (respects_reads _), reads_get_state|].
      intros st'. apply (respects_for_each _). intros e.
      apply (respects_when _), R_emit. done. }
    intros _. apply (respects_bind _).
    { destruct (onCopy this) eqn:E; [|apply (respects_ret _)]. by apply R_emit. }
    intros _.
    apply (respects_bind _); [apply (respects_reads _), reads_get_scope|]. intros sc.
    apply (respects_bind _).
    { destruct (autoFreeze this) eqn:E; [|apply (respects_ret _)].
      apply (respects_when _).
      apply (respects_bind _); [apply (respects_reads _), reads_get_state|]. intros st'.
      destruct (st_copy st'); [by apply R_freeze|apply (respects_ret _)]. }
    intros _. destruct path as [p|]; [|apply (respects_ret _)].
    apply (respects_when _), respects_generatePatches.
  - by apply respects_finalizeTree.
Qed.

End engine_respects.

(** ** Hooks *)

#[global] Instance hooked_preorder this : PreOrder (hooked this).
Proof.
  split.
  - intros h. exists []. by rewrite app_nil_r.
  - intros x y z (e1 & E1 & F1) (e2 & E2 & F2).
    exists (e1 ++ e2). rewrite E2, E1, app_assoc. split; [done|]. by apply Forall_app.
Qed.

Lemma hooked_same_events this h h' : events h' = events h → hooked this h h'.
Proof. intros E. exists []. by rewrite E, app_nil_r. Qed.

Lemma installed_hook_event this e : installed this e → hook_event e.
Proof. intros He l ps inv ->. done. Qed.

Section hooked.

Variable this : Immer.

Lemma hooked_alloc c : respects (hooked this) (alloc c).
Proof. intros h r h' [= _ <-]. by apply hooked_same_events. Qed.

Lemma hooked_put_cell a c : respects (hooked this) (put_cell a c).
Proof. intros h r h' [= _ <-]. by apply hooked_same_events. Qed.

Lemma hooked_assign a k v : respects (hooked this) (assign_prop a k v).
Proof.
  unfold assign_prop.
  apply (respects_bind _); [apply (respects_reads _), reads_get_object|]. intros o.
  destruct (o_frozen o); [apply (respects_throw _)|apply hooked_put_cell].
Qed.

Lemma hooked_define a k v : respects (hooked this) (defineProperty a k v).
Proof.
  unfold defineProperty.
  apply (respects_bind _); [apply (respects_reads _), reads_get_object|]. intros o.
  destruct (o_frozen o); [apply (respects_throw _)|apply hooked_put_cell].
Qed.

Lemma hooked_state s f : respects (hooked this) (update_state s f).
Proof.
  unfold update_state.
  apply (respects_bind _); [apply (respects_reads _), reads_get_state|]. intros st.
  apply hooked_put_cell.
Qed.

Lemma hooked_scope sc f : respects (hooked this) (update_scope sc f).
Proof.
  unfold update_scope.
  apply (respects_bind _); [apply (respects_reads _), reads_get_scope|]. intros s.
  intros h r h' [= _ <-]. by apply hooked_same_events.
Qed.

Lemma hooked_emit e : installed this e → respects (hooked this) (emit e).
Proof. intros He h r h' [= _ <-]. exists [e]. split; [done|]. by apply Forall_singleton. Qed.

Lemma hooked_freeze a : respects (hooked this) (freeze a).
Proof.
  unfold freeze.
  apply (respects_bind _); [apply (respects_reads _), reads_get_object|]. intros o.
  apply hooked_put_cell.
Qed.

Lemma hooked_finalize fuel draft path scope :
  respects (hooked this) (finalize this fuel draft path scope).
Proof.
  apply (respects_finalize this (hooked this)).
  - apply hooked_alloc.
  - apply hooked_assign.
  - apply hooked_define.
  - apply hooked_state.
  - apply hooked_scope.
  - apply hooked_emit.
  - intros _. apply hooked_freeze.
Qed.

End hooked.

(** X10.  [finalize] calls no hook that is not installed, and never the patch
    listener: whatever its outcome, the events it adds are calls of
    [onAssign], [onDelete] and [onCopy], each only if the configuration has
    the hook. *)
Theorem finalize_calls_installed_hooks (this : Immer) (fuel : nat) (draft : value)
    (path : option (list key)) (scope : scope_id) (h : Heap)
    (r : outcome value) (h' : Heap) :
  finalize this fuel draft path scope h = (r, h') →
  ∃ evs, events h' = events h ++ evs ∧ Forall (installed this) evs.
Proof. apply hooked_finalize. Qed.

Lemma finalize_calls_installed_hooks_witness :
  ∃ evs, events (finalize (MkImmer true false false true) 2 (VObj 2) (Some []) 0
                   scenario_A_heap).2
         = events scenario_A_heap ++ evs ∧
         Forall (installed (MkImmer true false false true)) evs.
Proof.
  apply (finalize_calls_installed_hooks (MkImmer true false false true) 2 (VObj 2)
           (Some []) 0 scenario_A_heap
           (finalize (MkImmer true false false true) 2 (VObj 2) (Some []) 0
              scenario_A_heap).1).
  by destruct (finalize _ _ _ _ _ _).
Defined.

(** ** What an update respects *)

Section update_respects.

Variable this : Immer.
Variable sc : scope_id.
Variable R : relation Heap.
Context `{!PreOrder R}.

Hypothesis R_finalize : ∀ fuel v p, respects R (finalize this fuel v p sc).
Hypothesis R_revoke : respects R (ImmerScope.revoke sc).
Hypothesis R_scope : ∀ f, respects R (update_scope sc f).

Lemma respects_settle_with fuel result : respects R (settle this fuel result sc).
Proof using Type*.
  unfold settle.
  apply (respects_bind _); [apply (respects_reads _), reads_get_scope|]. intros s.
  apply (respects_bind _); [apply (respects_ret _)|]. intros _.
  destruct (_ && _); [|apply R_finalize].
  apply (respects_bind _); [apply (respects_reads _), reads_draft_state|]. intros o.
  apply (respects_bind _).
  { destruct o; [apply (respects_reads _), reads_get_state|apply (respects_throw _)]. }
  intros st. destruct (st_modified st).
  { apply (respects_bind _); [apply R_revoke|]. intros _. apply (respects_throw _). }
  apply (respects_bind _); [apply (respects_reads _), reads_isDraftable|]. intros d.
  apply (respects_bind _).
  { destruct d; [apply R_finalize|apply (respects_ret _)]. }
  intros r. apply (respects_bind _); [apply (respects_reads _), reads_get_scope|]. intros s'.
  apply (respects_bind _); [|intros; apply (respects_ret _)].
  apply (respects_when _).
  apply (respects_bind _); [apply (respects_reads _), reads_draft_state|]. intros o'.
  apply (respects_bind _).
  { destruct o'; [apply (respects_reads _), reads_get_state|apply (respects_throw _)]. }
  intros st'. apply R_scope.
Qed.

Hypothesis R_notify : ∀ l ps inv, respects R (emit (PatchListener l ps inv)).

Lemma respects_conclude_with result : respects R (conclude sc result).
Proof using Type*.
  unfold conclude.
  apply (respects_bind _); [apply R_revoke|]. intros _.
  apply (respects_bind _); [apply (respects_reads _), reads_get_scope|]. intros s.
  apply (respects_bind _); [|intros; apply (respects_ret _)].
  destruct (patches s); [|apply (respects_ret _)].
  destruct (patchListener s); [apply R_notify|apply (respects_throw _)].
Qed.

Lemma respects_processResult_with fuel result :
  respects R (processResult this fuel result sc).
Proof using Type*.
  intros h r h'. rewrite processResult_split. revert h r h'.
  apply (respects_bind _); [apply respects_settle_with|].
  intros x. apply respects_conclude_with.
Qed.

End update_respects.

(** ** Freezing *)

#[global] Instance frozen_kept_preorder : PreOrder frozen_kept.
Proof.
  split.
  - intros h Hf. split; [done|]. intros a o Ha. by exists o.
  - intros x y z Hxy Hyz Hf. destruct (Hxy Hf) as [Hfy Hy].
    destruct (Hyz Hfy) as [Hfz Hz]. split; [done|].
    intros a o Ha. destruct (Hy a o Ha) as (o1 & Ha1 & Hc1 & Hfr1).
    destruct (Hz a o1 Ha1) as (o2 & Ha2 & Hc2 & Hfr2).
    exists o2. split_and!; [done|congruence..].
Qed.

Lemma frozen_kept_same_cells h h' :
  cells h' = cells h → next_addr h' = next_addr h → frozen_kept h h'.
Proof.
  intros Hc Hn Hf. split.
  - intros a Ha. rewrite Hc. apply Hf. by rewrite <- Hn.
  - intros a o Ha. exists o. by rewrite Hc.
Qed.

Lemma frozen_kept_put h a c c' :
  cells h !! a = Some c →
  (∀ o, c = CObj o → ∃ o', c' = CObj o' ∧ o_class o' = o_class o ∧ o_frozen o' = o_frozen o) →
  frozen_kept h (set_cells <[a := c']> h).
Proof.
  intros Ha Hc Hf. split.
  - intros b Hb. cbn. rewrite lookup_insert_ne; [by apply Hf|].
    intros ->. pose proof (Hf _ Hb). unfold addr in *. congruence.
  - intros b o Hb. cbn. destruct (decide (a = b)) as [->|Hne].
    + rewrite lookup_insert_eq. assert (c = CObj o) as Hco by (unfold addr in *; congruence).
      destruct (Hc o Hco) as (o' & -> & ? & ?). by exists o'.
    + rewrite lookup_insert_ne by done. by exists o.
Qed.

Lemma frozen_kept_alloc c : respects frozen_kept (alloc c).
Proof.
  intros h r h' [= _ <-] Hf. split.
  - intros a Ha. cbn in *. rewrite lookup_insert_ne by lia. apply Hf. lia.
  - intros a o Ha. exists o. cbn. split; [|done].
    rewrite lookup_insert_ne; [done|]. intros <-.
    rewrite Hf in Ha by done. done.
Qed.

Lemma frozen_kept_assign a k v : respects frozen_kept (assign_prop a k v).
Proof.
  intros h r h'. unfold assign_prop, bind, get_object, bind, get_cell.
  destruct (cells h !! a) as [[o|st]|] eqn:Ha; cbn [ret throw];
    try (by intros [= _ <-]).
  destruct (o_frozen o); intros [= _ <-]; [done|].
  eapply frozen_kept_put; [done|]. intros o0 [= <-]. by eexists.
Qed.

Lemma frozen_kept_define a k v : respects frozen_kept (defineProperty a k v).
Proof.
  intros h r h'. unfold defineProperty, bind, get_object, bind, get_cell.
  destruct (cells h !! a) as [[o|st]|] eqn:Ha; cbn [ret throw];
    try (by intros [= _ <-]).
  destruct (o_frozen o); intros [= _ <-]; [done|].
  eapply frozen_kept_put; [done|]. intros o0 [= <-]. by eexists.
Qed.

Lemma frozen_kept_state s f : respects frozen_kept (update_state s f).
Proof.
  intros h r h'. unfold update_state, bind, get_state, bind, get_cell.
  destruct (cells h !! s) as [[o|st]|] eqn:Ha; cbn [ret throw];
    try (by intros [= _ <-]).
  intros [= _ <-]. eapply frozen_kept_put; [done|]. by intros o0.
Qed.

Lemma frozen_kept_scope sc f : respects frozen_kept (update_scope sc f).
Proof.
  intros h r h'. unfold update_scope, bind, get_scope.
  destruct (scopes h !! sc); intros [= _ <-]; by apply frozen_kept_same_cells.
Qed.

Lemma frozen_kept_emit e : respects frozen_kept (emit e).
Proof. intros h r h' [= _ <-]. by apply frozen_kept_same_cells. Qed.

Lemma frozen_kept_revoke sc : respects frozen_kept (ImmerScope.revoke sc).
Proof.
  intros h r h' [= _ <-] Hf. split.
  - intros a Ha. unfold ImmerScope.revoke_heap in *.
    destruct (scopes (ImmerScope.leave_heap sc h) !! sc) as [s|] eqn:Hs.
    + cbn [cells set_cells next_addr] in *.
      rewrite lookup_revoke_all, leave_heap_cells.
      assert (cells h !! a = None) as Hn.
      { apply Hf. unfold ImmerScope.leave_heap in Ha.
        destruct (scopes h !! sc); [|done]. by destruct (decide _). }
      unfold addr in *. rewrite Hn. by destruct (decide _).
    + rewrite leave_heap_cells. apply Hf. unfold ImmerScope.leave_heap in Ha.
      destruct (scopes h !! sc); [|done]. by destruct (decide _).
  - intros a o Ha. exists o. split; [|done]. by apply revoke_heap_object.
Qed.

Section no_freeze.

Variable this : Immer.
Hypothesis Hoff : autoFreeze this = false.

Lemma frozen_kept_finalize fuel draft path scope :
  respects frozen_kept (finalize this fuel draft path scope).
Proof using Type*.
  apply (respects_finalize this frozen_kept).
  - apply frozen_kept_alloc.
  - apply frozen_kept_assign.
  - apply frozen_kept_define.
  - apply frozen_kept_state.
  - apply frozen_kept_scope.
  - intros e _. apply frozen_kept_emit.
  - by rewrite Hoff.
Qed.

Lemma frozen_kept_processResult fuel result sc :
  respects frozen_kept (processResult this fuel result sc).
Proof using Type*.
  apply (respects_processResult_with this sc frozen_kept).
  - intros. apply frozen_kept_finalize.
  - apply frozen_kept_revoke.
  - apply frozen_kept_scope.
  - intros. apply frozen_kept_emit.
Qed.

End no_freeze.

(** X11.  After [setAutoFreeze(false)] an update freezes nothing: whatever
    [produce] does once the recipe has returned, every object that exists
    then, the copies made for the drafts among them, is still an object
    afterwards, with the frozen flag it had. *)
Theorem produce_without_autoFreeze (this : Immer) (fuel : nat) (base : value)
    (recipe : value → M returned) (listener : option nat) (h h2 : Heap)
    (result : value) (r : outcome returned) (h' : Heap) :
  draftable_in h base →
  recipe (VObj (next_addr h)) (entered base h) = (Ok (Value result), h2) →
  fresh_heap h2 →
  produce (setAutoFreeze false this) fuel base recipe listener h = (r, h') →
  ∀ a o, cells h2 !! a = Some (CObj o) →
         ∃ o', cells h' !! a = Some (CObj o') ∧ o_frozen o' = o_frozen o.
Proof.
  intros Hd Hr Hf E a o Ha.
  rewrite (produce_returned _ _ _ _ _ _ _ _ Hd Hr) in E.
  assert (frozen_kept (ready (next_scope h) listener h2) h') as Hk.
  { revert E. generalize (ready (next_scope h) listener h2) r h'.
    apply (respects_bind _); [|intros; apply (respects_ret _)].
    by apply frozen_kept_processResult. }
  destruct (Hk (ready_fresh _ _ _ Hf)) as [_ Hobj].
  destruct (Hobj a o) as (o' & Ha' & _ & Hfr); [by rewrite ready_cells|].
  by exists o'.
Qed.

Lemma produce_without_autoFreeze_witness :
  ∃ h' o,
    produce (setAutoFreeze false all_hooks) 2 scenario_base
      (recipe_set (KStr "a") (VNumber (Fin 2))) None scenario_heap
      = (Ok (Value (VObj 3)), h') ∧
    cells h' !! 3 = Some (CObj o) ∧ o_frozen o = false.
Proof.
  set (recipe := recipe_set (KStr "a") (VNumber (Fin 2))).
  set (h' := (produce (setAutoFreeze false all_hooks) 2 scenario_base recipe None
                scenario_heap).2).
  assert (produce (setAutoFreeze false all_hooks) 2 scenario_base recipe None scenario_heap
          = (Ok (Value (VObj 3)), h')) as E by (vm_compute; reflexivity).
  destruct (produce_without_autoFreeze all_hooks 2 scenario_base recipe None scenario_heap
              (recipe (VObj 2) (entered scenario_base scenario_heap)).2
              VUndefined (Ok (Value (VObj 3))) h') with
    (a := 3)
    (o := Object CPlain [(KStr "a", Prop_ (VNumber (Fin 2)) true);
                         (KStr "b", Prop_ (VObj 0) true)] false)
    as (o' & Ho' & Hfr).
  - reflexivity.
  - reflexivity.
  - apply fresh_heap_check. vm_compute. reflexivity.
  - exact E.
  - vm_compute. reflexivity.
  - by exists h', o'.
Defined.

Lemma hooked_revoke this sc : respects (hooked this) (ImmerScope.revoke sc).
Proof. intros h r h' [= _ <-]. apply hooked_same_events, revoke_heap_events. Qed.

Lemma hooked_settle this fuel result sc :
  respects (hooked this) (settle this fuel result sc).
Proof.
  apply (respects_settle_with this sc (hooked this)).
  - intros. apply hooked_finalize.
  - apply hooked_revoke.
  - apply hooked_scope.
Qed.

(** X12.  The patch listener is called at most once in an update, and only
    as its last act: when the recipe has returned a value, whatever
    [produce] does next, it calls only installed hooks, and then, if a
    listener was given and the update succeeds, the listener, once, with the
    patches the scope holds.  A failed update, or one without a listener,
    never calls it. *)
Theorem produce_notifies_last (this : Immer) (fuel : nat) (base : value)
    (recipe : value → M returned) (listener : option nat) (h h2 : Heap)
    (result : value) (s : Scope) (r : outcome returned) (h' : Heap) :
  draftable_in h base →
  recipe (VObj (next_addr h)) (entered base h) = (Ok (Value result), h2) →
  scopes h2 !! next_scope h = Some s → patches s = None →
  produce this fuel base recipe listener h = (r, h') →
  ∃ evs, Forall (installed this) evs ∧
    match r, listener with
    | Ok _, Some l =>
        ∃ s' ps, scopes h' !! next_scope h = Some s' ∧ patches s' = Some ps ∧
                 events h' = events h2 ++ evs ++
                             [PatchListener l ps (default [] (inversePatches s'))]
    | _, _ => events h' = events h2 ++ evs
    end.
Proof.
  intros Hd Hr Hs Hps.
  rewrite (produce_returned _ _ _ _ _ _ _ _ Hd Hr).
  set (sc := next_scope h). set (h3 := ready sc listener h2).
  set (s3 := match listener with Some l => sc_use_patches l s | None => s end).
  assert (scopes h3 !! sc = Some s3) as Hs3.
  { unfold h3, ready, ImmerScope.usePatches_heap, s3.
    destruct listener as [l|]; cbn.
    - rewrite lookup_alter_eq, leave_heap_scopes. fold sc. unfold sc. by rewrite Hs.
    - rewrite leave_heap_scopes. done. }
  unfold bind at 1. rewrite processResult_split. unfold bind at 1.
  destruct (settle this fuel result sc h3) as [x hB] eqn:Eset.
  destruct (respects_settle _ _ _ _ _ _ _ Eset) as [_ Hkept].
  destruct (hooked_settle _ _ _ _ _ _ _ Eset) as (evs & Hev & Hhook).
  destruct (Hkept _ Hs3) as (sB & HsB & HlB & _ & HpB).
  unfold h3 in Hev. rewrite ready_events in Hev.
  intros E. exists evs. split; [done|].
  destruct x as [v|e|].
  - rewrite (conclude_result _ _ _ _ HsB) in E.
    destruct listener as [l|]; cbn in s3.
    + destruct (proj2 HpB) as [ps Hp]; [by eexists|].
      rewrite Hp, HlB in E. cbn in E. injection E as <- <-.
      exists sB, ps. rewrite notified_scopes, revoke_heap_scopes.
      split; [done|]. split; [done|].
      rewrite notified_events, revoke_heap_events, Hp, HlB, Hev. cbn.
      by rewrite app_assoc.
    + assert (patches sB = None) as Hp.
      { destruct (patches sB) eqn:E'; [|done].
        destruct (proj1 HpB) as [? Hx]; [by eexists|]. unfold s3 in Hx. congruence. }
      rewrite Hp in E. cbn in E. injection E as <- <-.
      rewrite notified_events, revoke_heap_events, Hp, Hev. by rewrite app_nil_r.
  - injection E as <- <-. by destruct listener.
  - injection E as <- <-. by destruct listener.
Qed.

Lemma produce_notifies_last_witness :
  ∃ h' evs s' ps,
    produce all_hooks 2 scenario_base (recipe_set (KStr "a") (VNumber (Fin 2))) (Some 7)
      scenario_heap = (Ok (Value (VObj 3)), h') ∧
    Forall (installed all_hooks) evs ∧
    scopes h' !! 0 = Some s' ∧ patches s' = Some ps ∧
    events h' = [] ++ evs ++ [PatchListener 7 ps (default [] (inversePatches s'))].
Proof.
  set (recipe := recipe_set (KStr "a") (VNumber (Fin 2))).
  set (h' := (produce all_hooks 2 scenario_base recipe (Some 7) scenario_heap).2).
  assert (produce all_hooks 2 scenario_base recipe (Some 7) scenario_heap
          = (Ok (Value (VObj 3)), h')) as E by (vm_compute; reflexivity).
  destruct (produce_notifies_last all_hooks 2 scenario_base recipe (Some 7) scenario_heap
              (recipe (VObj 2) (entered scenario_base scenario_heap)).2
              VUndefined (MkScope [2] None true None None None)
              (Ok (Value (VObj 3))) h')
    as (evs & Hhook & s' & ps & Hs' & Hps & Hev).
  - reflexivity.
  - reflexivity.
  - vm_compute. reflexivity.
  - reflexivity.
  - exact E.
  - by exists h', evs, s', ps.
Defined.

(** X13.  A fulfilled promise is processed as a synchronous return.  Take a
    recipe that returns a value and a recipe that, after the same changes,
    returns a promise already fulfilled with that value: for the second
    [produce] returns a promise, and awaiting that promise gives the outcome
    and the heap that [produce] gives for the first. *)
Theorem produce_async_as_sync (this : Immer) (fuel : nat) (base : value)
    (recipe_sync recipe_async : value → M returned) (listener : option nat)
    (h h2 : Heap) (v : value) :
  draftable_in h base →
  recipe_sync (VObj (next_addr h)) (entered base h) = (Ok (Value v), h2) →
  recipe_async (VObj (next_addr h)) (entered base h) = (Ok (Promise (resolved v)), h2) →
  ∃ p h1,
    produce this fuel base recipe_async listener h = (Ok (Promise p), h1) ∧
    produce this fuel base recipe_sync listener h
    = (let* x := p in ret (Value x)) h1.
Proof.
  intros Hd Hs Ha.
  rewrite (produce_promised _ _ _ _ _ _ _ _ Hd Ha).
  rewrite (produce_returned _ _ _ _ _ _ _ _ Hd Hs).
  eexists _, _. split; [reflexivity|].
  unfold then_, resolved, ret at 2. cbn beta iota. unfold ready.
  unfold bind at 3. unfold ImmerScope.usePatches at 1, modify_heap at 1. reflexivity.
Qed.

Lemma produce_async_as_sync_witness :
  ∃ p h1,
    produce all_hooks 2 scenario_base
      (recipe_set_async (KStr "a") (VNumber (Fin 2))) (Some 7) scenario_heap
      = (Ok (Promise p), h1) ∧
    produce all_hooks 2 scenario_base
      (recipe_set (KStr "a") (VNumber (Fin 2))) (Some 7) scenario_heap
    = (let* x := p in ret (Value x)) h1.
Proof.
  apply (produce_async_as_sync all_hooks 2 scenario_base
           (recipe_set (KStr "a") (VNumber (Fin 2)))
           (recipe_set_async (KStr "a") (VNumber (Fin 2)))
           (Some 7) scenario_heap
           (recipe_set (KStr "a") (VNumber (Fin 2)) (VObj 2)
              (entered scenario_base scenario_heap)).2
           VUndefined).
  - reflexivity.
  - reflexivity.
  - vm_compute. reflexivity.
Defined.

(** X14.  Returning the draft is returning nothing: a recipe that returns its
    draft and a recipe that returns [undefined] after the same changes give
    the same outcome and the same heap. *)
Theorem produce_returning_draft (this : Immer) (fuel : nat) (base : value)
    (recipe recipe' : value → M returned) (listener : option nat)
    (h h2 : Heap) (st : DraftState) (s : Scope) :
  draftable_in h base →
  recipe (VObj (next_addr h)) (entered base h) = (Ok (Value VUndefined), h2) →
  recipe' (VObj (next_addr h)) (entered base h) = (Ok (Value (VObj (next_addr h))), h2) →
  live_draft h2 (next_addr h) st →
  scopes h2 !! next_scope h = Some s → head (drafts s) = Some (next_addr h) →
  produce this fuel base recipe' listener h = produce this fuel base recipe listener h.
Proof.
  intros Hd Hr Hr' Hl Hs Hhd.
  rewrite (produce_returned _ _ _ _ _ _ _ _ Hd Hr), (produce_returned _ _ _ _ _ _ _ _ Hd Hr').
  assert (∃ s', root_of (ready (next_scope h) listener h2) (next_scope h) (next_addr h) st s')
    as [s' Hroot].
  { eexists. apply root_of_usePatches, root_of_leave. by split_and!. }
  assert (processResult this fuel (VObj (next_addr h)) (next_scope h)
            (ready (next_scope h) listener h2)
          = processResult this fuel VUndefined (next_scope h)
              (ready (next_scope h) listener h2)) as Heq.
  { rewrite !processResult_split. unfold bind.
    by rewrite (settle_root _ _ _ _ _ _ _ _ Hroot (or_introl eq_refl)),
      (settle_root _ _ _ _ _ _ _ _ Hroot (or_intror eq_refl)). }
  unfold bind. by rewrite Heq.
Qed.

Lemma produce_returning_draft_witness :
  produce all_hooks 2 scenario_base
    (recipe_set_return (KStr "a") (VNumber (Fin 2)) (VObj 2)) (Some 7) scenario_heap
  = produce all_hooks 2 scenario_base
      (recipe_set (KStr "a") (VNumber (Fin 2))) (Some 7) scenario_heap.
Proof.
  apply (produce_returning_draft all_hooks 2 scenario_base
           (recipe_set (KStr "a") (VNumber (Fin 2)))
           (recipe_set_return (KStr "a") (VNumber (Fin 2)) (VObj 2))
           (Some 7) scenario_heap
           (recipe_set (KStr "a") (VNumber (Fin 2)) (VObj 2)
              (entered scenario_base scenario_heap)).2
           (State 0 true false [(KStr "a", true)] None scenario_base 2 []
                  (Some 3) Mapping false false)
           (MkScope [2] None true None None None)).
  - reflexivity.
  - reflexivity.
  - vm_compute. reflexivity.
  - split; vm_compute; reflexivity.
  - vm_compute. reflexivity.
  - reflexivity.
Defined.

(** X15.  A recipe may return a part of its draft.  When it returns an
    unmodified draft of its own update other than the root, the result is
    the base that draft stands for, itself and not a copy; no hook is called,
    and a listener is told of one replacement of the whole value. *)
Theorem produce_returns_child_base (this : Immer) (fuel : nat) (base : value)
    (recipe : value → M returned) (listener : option nat) (h h2 : Heap)
    (st : DraftState) (d' : addr) (st' : DraftState) :
  draftable_in h base →
  recipe (VObj (next_addr h)) (entered base h) = (Ok (Value (VObj d')), h2) →
  kept_root base h h2 st → st_modified st = false → fresh_heap h2 →
  d' ≠ next_addr h → live_draft h2 d' st' →
  st_scope st' = next_scope h → st_modified st' = false →
  st_base st' ≠ VNothing →
  ∃ h', produce this fuel base recipe listener h = (Ok (Value (st_base st')), h') ∧
        events h' = events h2 ++
                    match listener with
                    | Some l => [PatchListener l [Patch Replace [] (Some (st_base st'))]
                                                 [Patch Replace [] (Some base)]]
                    | None => []
                    end.
Proof.
  intros Hd Hr Hk Hm Hf Hne Hl' Hsc' Hm' Hnn.
  destruct (kept_root_ready _ _ _ _ listener Hk) as (s & Hroot & Hls & Hps & Hips & Hpl).
  pose proof (ready_fresh (next_scope h) listener _ Hf) as Hf3.
  set (h3 := ready (next_scope h) listener h2) in *.
  assert (live_draft h3 d' st') as Hl3 by (unfold h3, live_draft; by rewrite ready_cells).
  assert (finalize_result this fuel (VObj d') (next_scope h) h3 = (Ok (st_base st'), h3)) as Efin.
  { unfold finalize_result, bind.
    assert (isDraftable (VObj d') h3 = (Ok true, h3)) as ->.
    { unfold isDraftable, bind, get_cell. rewrite (proj1 Hl3). cbn.
      by rewrite (proj2 Hl3). }
    destruct fuel; cbn [finalize]; unfold bind;
      rewrite (draft_state_live _ _ _ Hl3), (get_state_eq _ _ _ (proj1 Hl3)), Hsc',
        bool_decide_eq_true_2, Hm' by done; done. }
  destruct (processResult_replaced this fuel _ _ _ _ _ (VObj d') _ _ Hroot Hls Hm Hf3
              ltac:(done) ltac:(congruence) Efin) as (sB & HsB & _ & E).
  destruct Hroot as (_ & Hs & _). assert (sB = s) as -> by congruence.
  destruct Hk as (_ & _ & Hb & _).
  rewrite (produce_returned _ _ _ _ _ _ _ _ Hd Hr). unfold bind at 1. fold h3.
  rewrite E. cbn [ret].
  assert (strict_eq (st_base st') VNothing = false) as ->.
  { rewrite strict_eq_nothing. by apply bool_decide_eq_false_2. }
  eexists. split; [reflexivity|].
  rewrite notified_events, revoke_heap_events.
  unfold replaced_scope, record_replace.
  destruct listener as [l|]; rewrite Hps; cbn;
    rewrite ?Hps, ?Hips, ?Hpl, ?leave_heap_events, ?Hb; cbn;
    by rewrite ?app_nil_r.
Qed.

Lemma produce_returns_child_base_witness :
  ∃ h', produce all_hooks 0 scenario_base recipe_return_child (Some 7) scenario_heap
        = (Ok (Value (VObj 0)), h') ∧
        events h' = [] ++ [PatchListener 7 [Patch Replace [] (Some (VObj 0))]
                                           [Patch Replace [] (Some scenario_base)]].
Proof.
  apply (produce_returns_child_base all_hooks 0 scenario_base recipe_return_child (Some 7)
           scenario_heap
           (recipe_return_child (VObj 2) (entered scenario_base scenario_heap)).2
           (State 0 false false [] None scenario_base 2 [(KStr "b", VObj 3)] None
                  Mapping false false)
           3
           (State 0 false false [] (Some 2) (VObj 0) 3 [] None Mapping false false)).
  - reflexivity.
  - vm_compute. reflexivity.
  - repeat split. eexists. repeat split.
  - reflexivity.
  - apply fresh_heap_check. vm_compute. reflexivity.
  - done.
  - split; vm_compute; reflexivity.
  - reflexivity.
  - reflexivity.
  - done.
Defined.

(** ** Objects out of the engine's reach *)

Section spares.

Variable a : addr.
Variable o : object.

#[global] Instance spares_preorder : PreOrder (spares a o).
Proof.
  split.
  - intros h Hu. split; [done|]. intros d st Hd. by exists st.
  - intros x y z Hxy Hyz Hu. destruct (Hxy Hu) as [Hu1 Hc1].
    destruct (Hyz Hu1) as [Hu2 Hc2]. split; [done|].
    intros d st Hd. destruct (Hc1 d st Hd) as (st1 & Hd1 & E1).
    destruct (Hc2 d st1 Hd1) as (st2 & Hd2 & E2). exists st2. split; [done|congruence].
Qed.

Lemma spares_same_cells h h' :
  cells h' = cells h → next_addr h' = next_addr h → spares a o h h'.
Proof.
  intros Hc Hn (Hf & Ha & Hr & Hnc). split.
  - split_and!.
    + intros x Hx. rewrite Hc. apply Hf. by rewrite <- Hn.
    + by rewrite Hc.
    + intros k x Hk. rewrite Hc. by eapply Hr.
    + intros d st. rewrite Hc. apply Hnc.
  - intros d st Hd. exists st. by rewrite Hc.
Qed.

Lemma spares_alloc c :
  (∀ st, c = CDraft st → st_copy st ≠ Some a) → respects (spares a o) (alloc c).
Proof.
  intros Hc h r h' [= _ <-] (Hf & Ha & Hr & Hnc).
  assert (∀ x y, cells h !! x = Some y → x ≠ next_addr h) as Hne.
  { intros x y Hx ->. rewrite Hf in Hx by done. done. }
  split.
  - split_and!; cbn.
    + intros x Hx. cbn in *. rewrite lookup_insert_ne by lia. apply Hf. lia.
    + rewrite lookup_insert_ne; [done|]. intros E. by eapply Hne.
    + intros k x Hk. destruct (Hr k x Hk) as [o' Ho']. exists o'.
      rewrite lookup_insert_ne; [done|]. intros E. by eapply Hne.
    + intros d st. destruct (decide (next_addr h = d)) as [<-|Hd].
      * rewrite lookup_insert_eq. intros [= ->]. by apply Hc.
      * rewrite lookup_insert_ne by done. apply Hnc.
  - intros d st Hd. exists st. split; [|done]. cbn.
    rewrite lookup_insert_ne; [done|]. intros E. by eapply Hne.
Qed.

(** Writing to an object other than the one watched. *)
Lemma spares_replace h p op op' :
  cells h !! p = Some (CObj op) → p ≠ a →
  spares a o h (set_cells <[p := CObj op']> h).
Proof.
  intros Hp Hpa (Hf & Ha & Hr & Hnc). split.
  - split_and!; cbn.
    + intros x Hx. cbn in *. rewrite lookup_insert_ne; [by apply Hf|].
      intros ->. rewrite Hf in Hp by done. done.
    + by rewrite lookup_insert_ne.
    + intros k x Hk. destruct (decide (p = x)) as [->|Hne].
      * rewrite lookup_insert_eq. by eexists.
      * rewrite lookup_insert_ne by done. by eapply Hr.
    + intros d st. destruct (decide (p = d)) as [->|Hne].
      * by rewrite lookup_insert_eq.
      * rewrite lookup_insert_ne by done. apply Hnc.
  - intros d st Hd. exists st. split; [|done]. cbn.
    rewrite lookup_insert_ne; [done|]. intros ->. unfold addr in *. congruence.
Qed.

Lemma spares_assign p k v : p ≠ a → respects (spares a o) (assign_prop p k v).
Proof.
  intros Hpa h r h'. unfold assign_prop, bind, get_object, bind, get_cell.
  destruct (cells h !! p) as [[op|st]|] eqn:Hp; cbn [ret throw];
    try (by intros [= _ <-]).
  destruct (o_frozen op); intros [= _ <-]; [done|]. by eapply spares_replace.
Qed.

Lemma spares_define p k v : p ≠ a → respects (spares a o) (defineProperty p k v).
Proof.
  intros Hpa h r h'. unfold defineProperty, bind, get_object, bind, get_cell.
  destruct (cells h !! p) as [[op|st]|] eqn:Hp; cbn [ret throw];
    try (by intros [= _ <-]).
  destruct (o_frozen op); intros [= _ <-]; [done|]. by eapply spares_replace.
Qed.

Lemma spares_freeze p : p ≠ a → respects (spares a o) (freeze p).
Proof.
  intros Hpa h r h'. unfold freeze, bind, get_object, bind, get_cell.
  destruct (cells h !! p) as [[op|st]|] eqn:Hp; cbn [ret throw];
    try (by intros [= _ <-]).
  intros [= _ <-]. by eapply spares_replace.
Qed.

Lemma spares_state s f :
  (∀ st, st_copy (f st) = st_copy st) → respects (spares a o) (update_state s f).
Proof.
  intros Hcopy h r h'. unfold update_state, bind, get_state, bind, get_cell.
  destruct (cells h !! s) as [[os|st]|] eqn:Hs; cbn [ret throw];
    try (by intros [= _ <-]).
  intros [= _ <-] (Hf & Ha & Hr & Hnc). split.
  - split_and!; cbn.
    + intros x Hx. cbn in *. rewrite lookup_insert_ne; [by apply Hf|].
      intros ->. rewrite Hf in Hs by done. done.
    + rewrite lookup_insert_ne; [done|]. intros ->. unfold addr in *. congruence.
    + intros k x Hk. destruct (Hr k x Hk) as [o' Ho']. exists o'.
      rewrite lookup_insert_ne; [done|]. intros ->. unfold addr in *. congruence.
    + intros d st'. destruct (decide (s = d)) as [->|Hne].
      * rewrite lookup_insert_eq. intros [= <-]. rewrite Hcopy. by eapply Hnc.
      * rewrite lookup_insert_ne by done. apply Hnc.
  - intros d st' Hd. cbn. destruct (decide (s = d)) as [->|Hne].
    + rewrite lookup_insert_eq. exists (f st). split; [done|].
      rewrite Hcopy. unfold addr in *. congruence.
    + rewrite lookup_insert_ne by done. by exists st'.
Qed.

Lemma spares_scope sc f : respects (spares a o) (update_scope sc f).
Proof.
  intros h r h'. unfold update_scope, bind, get_scope.
  destruct (scopes h !! sc); intros [= _ <-]; by apply spares_same_cells.
Qed.

Lemma spares_emit e : respects (spares a o) (emit e).
Proof. intros h r h' [= _ <-]. by apply spares_same_cells. Qed.

Lemma spares_revoke sc : respects (spares a o) (ImmerScope.revoke sc).
Proof.
  intros h r h' [= _ <-] (Hf & Ha & Hr & Hnc).
  assert (∀ x : nat, cells (ImmerScope.revoke_heap sc h) !! x = cells h !! x ∨
               ∃ st, cells h !! x = Some (CDraft st) ∧
                     cells (ImmerScope.revoke_heap sc h) !! x
                     = Some (CDraft (st_set_revoked true st))) as Hcases.
  { intros x. unfold ImmerScope.revoke_heap.
    destruct (scopes (ImmerScope.leave_heap sc h) !! sc) as [s|] eqn:Hs;
      [|left; by rewrite leave_heap_cells].
    cbn [cells set_cells]. rewrite lookup_revoke_all, leave_heap_cells.
    destruct (decide _); [|by left].
    destruct (cells h !! x) as [[ox|st]|] eqn:Hx; unfold addr in *; rewrite ?Hx; cbn;
      [by left| |by left].
    right. by exists st. }
  assert (next_addr (ImmerScope.revoke_heap sc h) = next_addr h) as Hn.
  { assert (next_addr (ImmerScope.leave_heap sc h) = next_addr h) as Hl.
    { unfold ImmerScope.leave_heap. destruct (scopes h !! sc); [|done].
      by destruct (decide _). }
    unfold ImmerScope.revoke_heap.
    by destruct (scopes (ImmerScope.leave_heap sc h) !! sc). }
  split.
  - split_and!.
    + intros x Hx. unfold addr in *. rewrite Hn in Hx.
      destruct (Hcases x) as [->|(st & Hst & _)]; [by apply Hf|].
      rewrite Hf in Hst by done. done.
    + unfold addr in *.
      destruct (Hcases a) as [->|(st & Hst & _)]; [done|]. congruence.
    + intros k x Hk. destruct (Hr k x Hk) as [o' Ho']. exists o'. unfold addr in *.
      destruct (Hcases x) as [->|(st & Hst & _)]; [done|]. congruence.
    + intros d st. unfold addr in *.
      destruct (Hcases d) as [->|(st0 & Hst & ->)]; [apply Hnc|].
      intros [= <-]. cbn. by eapply Hnc.
  - intros d st Hd. unfold addr in *.
    destruct (Hcases d) as [->|(st0 & Hst & ->)]; [by exists st|].
    eexists. split; [done|]. cbn. congruence.
Qed.

(** *** Computations started with some knowledge of the heap *)

Lemma under_respects {A} P (m : M A) :
  respects (spares a o) m → respects_under P (spares a o) m.
Proof. intros Hm h r h' _. apply Hm. Qed.

Lemma under_bind {A B} (P : Heap → Prop) (m : M A) (k : A → M B) :
  (∀ h h', untouchable a o h → spares a o h h' → P h → P h') →
  respects_under P (spares a o) m →
  (∀ x, respects_under P (spares a o) (k x)) →
  respects_under P (spares a o) (bind m k).
Proof.
  intros Hstable Hm Hk h r h' HP. unfold bind.
  destruct (m h) as [[x|e|] h1] eqn:E.
  - intros E' Hu. pose proof (Hm _ _ _ HP E) as H1.
    destruct (H1 Hu) as [Hu1 Hc1].
    pose proof (Hk x _ _ _ (Hstable _ _ Hu H1 HP) E') as H2.
    destruct (H2 Hu1) as [Hu2 Hc2]. split; [done|].
    intros d st Hd. destruct (Hc1 d st Hd) as (st1 & Hd1 & E1).
    destruct (Hc2 d st1 Hd1) as (st2 & Hd2 & E2). exists st2. split; [done|congruence].
  - intros [= _ <-]. by eapply Hm.
  - intros [= _ <-]. by eapply Hm.
Qed.

Lemma has_copy_stable s c h h' :
  untouchable a o h → spares a o h h' → has_copy s c h → has_copy s c h'.
Proof.
  intros Hu Hs (st & Hst & Hc). destruct (Hs Hu) as [_ Hk].
  destruct (Hk s st Hst) as (st' & Hst' & Hc'). exists st'. split; [done|congruence].
Qed.

Lemma under_get_state {B} s (k : DraftState → M B) :
  (∀ st, respects_under (has_copy s (st_copy st)) (spares a o) (k st)) →
  respects (spares a o) (bind (get_state s) k).
Proof.
  intros Hk h r h'. unfold bind.
  destruct (get_state s h) as [[st|e|] h1] eqn:E;
    pose proof (reads_get_state _ _ _ _ E) as ->; try (by intros [= _ <-]).
  apply Hk. exists st. split; [|done].
  unfold get_state, bind, get_cell in E.
  destruct (cells h !! s) as [[os|st']|]; try done. by injection E as ->.
Qed.

(** A write to the copy of a draft is not a write to the object watched. *)
Lemma under_copy_write {A} s c (m : M A) :
  (c ≠ a → respects (spares a o) m) →
  respects_under (has_copy s (Some c)) (spares a o) m.
Proof.
  intros Hm h r h' (st & Hst & Hc) E Hu. apply (Hm) with r; [|done..].
  intros ->. destruct Hu as (_ & _ & _ & Hnc). by eapply Hnc.
Qed.

(** *** The engine *)

Lemma isDraft_true_inv v h h' :
  isDraft v h = (Ok true, h') → ∃ d st, v = VObj d ∧ cells h !! d = Some (CDraft st).
Proof.
  unfold isDraft. destruct (truthy v); [|done].
  unfold bind. destruct (draft_state v h) as [[[d|]|e|] h1] eqn:E; try done.
  intros _. destruct v; try done. unfold draft_state, bind, get_cell in E.
  destruct (cells h !! a0) as [[ox|st]|] eqn:Ha; try done.
  destruct (st_revoked st); [done|]. injection E as <- _. by exists a0, st.
Qed.

Lemma spares_createProxy base parent : respects (spares a o) (createProxy base parent).
Proof.
  unfold createProxy. apply (respects_bind _).
  { destruct parent.
    - apply (respects_bind _); [apply (respects_reads _), reads_get_state|].
      intros st. apply (respects_ret _).
    - apply (respects_bind _); [apply (respects_reads _), reads_get_heap|]. intros h.
      destruct (current h); [apply (respects_ret _)|apply (respects_throw _)]. }
  intros sc. apply (respects_bind _); [apply (respects_reads _), reads_isArray|]. intros arr.
  apply (respects_bind _); [apply (respects_reads _), reads_get_heap|]. intros h.
  apply (respects_bind _); [apply spares_alloc; by intros st [= <-]|]. intros _.
  apply (respects_bind _); [|intros _; apply (respects_ret _)].
  apply spares_scope.
Qed.

Lemma spares_read_with get s k :
  (∀ v k, respects (spares a o) (get v k)) → respects (spares a o) (read_with get s k).
Proof.
  intros Hget. unfold read_with. apply under_get_state. intros st.
  destruct (alist_get k (st_drafts st)); [apply under_respects, (respects_ret _)|].
  apply under_bind; [apply has_copy_stable| |].
  { apply under_respects. destruct (st_copy st); [|apply Hget].
    apply (respects_bind _); [apply (respects_reads _), reads_get_object|]. intros ob.
    apply (respects_ret _). }
  intros v. apply under_bind; [apply has_copy_stable| |].
  { apply under_respects, (respects_reads _), reads_isDraftable. }
  intros dr. apply under_bind; [apply has_copy_stable| |].
  { apply under_respects, (respects_reads _), reads_isFrozen. }
  intros fr. destruct (_ && _); [|apply under_respects, (respects_ret _)].
  apply under_bind; [apply has_copy_stable| |].
  { apply under_respects, spares_createProxy. }
  intros d. apply under_bind; [apply has_copy_stable| |].
  { apply under_respects, spares_state. done. }
  intros _. apply under_bind; [apply has_copy_stable| |].
  - destruct (st_copy st) as [c|]; [|apply under_respects, (respects_ret _)].
    apply under_copy_write. intros Hc. by apply spares_assign.
  - intros _. apply under_respects, (respects_ret _).
Qed.

Lemma spares_get_prop fuel v k : respects (spares a o) (get_prop fuel v k).
Proof.
  revert v k. induction fuel as [|f IH]; intros v k;
    (destruct v; cbn [get_prop]; try apply (respects_ret _); try apply (respects_throw _);
     apply (respects_bind _); [apply (respects_reads _), reads_get_cell|];
     intros [ob|st]; [apply (respects_ret _)|];
     destruct (st_revoked st); [apply (respects_throw _)|]).
  - apply (respects_out_of_fuel _).
  - by apply spares_read_with.
Qed.

Lemma spares_state_base_prop fuel state prop :
  respects (spares a o) (state_base_prop fuel state prop).
Proof.
  destruct state; [|apply (respects_throw _)].
  apply (respects_bind _); [apply (respects_reads _), reads_get_state|]. intros st.
  apply spares_get_prop.
Qed.

Lemma spares_map_each {A B} (l : list A) (f : A → M B) :
  (∀ x, respects (spares a o) (f x)) → respects (spares a o) (map_each l f).
Proof.
  intros Hf. induction l as [|x l IH]; cbn.
  - apply (respects_ret _).
  - apply (respects_bind _); [apply Hf|]. intros y.
    apply (respects_bind _); [apply IH|]. intros ys. apply (respects_ret _).
Qed.

Lemma spares_describe fuel v : respects (spares a o) (describe fuel v).
Proof.
  revert v. induction fuel as [|f IH]; intros v;
    (destruct v; cbn [describe]; try apply (respects_throw _);
     apply (respects_bind _); [apply (respects_reads _), reads_get_cell|];
     intros [ob|st]; [apply (respects_ret _)|];
     destruct (st_revoked st); [apply (respects_throw _)|]).
  - apply (respects_out_of_fuel _).
  - apply (respects_bind _).
    { destruct (st_copy st); [|apply IH].
      apply (respects_bind _); [apply (respects_reads _), reads_get_object|].
      intros ob. apply (respects_ret _). }
    intros src. apply (respects_bind _); [|intros; apply (respects_ret _)].
    apply spares_map_each. intros e.
    apply (respects_bind _); [|intros; apply (respects_ret _)].
    apply spares_read_with. intros. apply spares_get_prop.
Qed.

Lemma spares_generatePatches fuel s basePath sc :
  respects (spares a o) (generatePatches fuel s basePath sc).
Proof.
  unfold generatePatches.
  apply (respects_bind _); [apply (respects_reads _), reads_get_state|]. intros st.
  apply (respects_bind _); [apply spares_describe|]. intros old.
  apply (respects_bind _).
  { destruct (st_copy st); [|apply (respects_throw _)].
    apply (respects_bind _); [apply (respects_reads _), reads_get_object|].
    intros ob. apply (respects_ret _). }
  intros new. destruct (st_kind st).
  - destruct (bool_decide _).
    + apply (respects_bind _); [by apply spares_alloc|]. intros tail. apply spares_scope.
    + apply (respects_for_each _). intros i. cbn zeta.
      destruct (is_ _ _); [apply (respects_ret _)|].
      destruct (bool_decide _); apply spares_scope.
  - apply (respects_for_each _). intros e. cbn zeta.
    destruct e.2; [destruct (alist_get _ _)|]; apply spares_scope.
Qed.

(** The callback of [each] is called with the value the object holds. *)
Lemma spares_each (v : value) (cb : key → value → addr → M unit) :
  (∀ k x p, respects_under (holds p k x) (spares a o) (cb k x p)) →
  respects (spares a o) (each v cb).
Proof.
  intros Hcb. destruct v; try apply (respects_throw _). cbn [each].
  apply (respects_bind _); [apply (respects_reads _), reads_get_object|]. intros ob.
  apply (respects_for_each _). intros k h r h'. unfold bind.
  destruct (get_object a0 h) as [[ob'|e|] h1] eqn:E;
    pose proof (reads_get_object _ _ _ _ E) as ->; try (by intros [= _ <-]).
  apply Hcb. exists ob'. split; [|done].
  unfold get_object, bind, get_cell in E.
  destruct (cells h !! a0) as [[ox|st]|]; try done. by injection E as ->.
Qed.

Section finalize_spares.

Variable this : Immer.

Lemma spares_finalizeProperty fin fuel state root rootPath scope needPatches prop v parent :
  (∀ v p, respects (spares a o) (fin v p scope)) →
  respects_under (holds parent prop v) (spares a o)
    (finalizeProperty this fin fuel state root rootPath scope needPatches prop v parent).
Proof.
  intros Hfin. revert prop v parent.
  assert (∀ s p x b, respects (spares a o)
            (when (b && onAssign this) (emit (OnAssign s p x)))) as Hon.
  { intros. apply (respects_when _), spares_emit. }
  induction fuel as [|f IH]; intros prop v parent h r h' Hlink E Hu;
    cbn [finalizeProperty] in E;
    (destruct (strict_eq v (VObj parent));
     [injection E as <- <-; by apply (reflexivity (R := spares a o))|]);
    unfold bind at 1 in E;
    (destruct (isDraft v h) as [[isd|e|] h0] eqn:Eisd;
     pose proof (reads_isDraft _ _ _ _ Eisd) as ->;
     [|injection E as <- <-; by apply (reflexivity (R := spares a o))..]);
    (assert (isd = true → parent ≠ a) as Hpa;
     [ intros -> ->; destruct (isDraft_true_inv _ _ _ Eisd) as (d & st & -> & Hd);
       destruct Hlink as (o1 & Ho1 & Hv); destruct Hu as (_ & Ha & Hr & _);
       assert (o1 = o) as -> by (unfold addr in *; congruence);
       destruct (Hr _ _ Hv) as [o' Ho']; unfold addr in *; congruence |]);
    (match type of E with
     | ?m h = _ =>
         assert (respects (spares a o) m) as Hm;
         [clear E Eisd Hlink Hu|by apply (Hm _ _ _ E)]
     end);
    (apply (respects_bind _);
     [|intros [v'|]; [destruct state; [apply Hon|apply (respects_ret _)]
                     |apply (respects_ret _)]];
     destruct isd;
     [ specialize (Hpa eq_refl);
       apply (respects_bind _);
       [destruct (_ && _); [apply (respects_reads _), reads_state_assigned
                           |apply (respects_ret _)]|];
       intros assigned;
       apply (respects_bind _); [apply Hfin|];
       intros v';
       apply (respects_bind _); [apply (respects_reads _), reads_isDraft|]; intros isd';
       apply (respects_bind _); [apply (respects_when _), spares_scope|]; intros _;
       apply (respects_bind _); [apply (respects_reads _), reads_isArray|]; intros arr;
       apply (respects_bind _);
       [destruct arr; [apply (respects_ret _)|apply (respects_reads _), reads_isEnumerable]|];
       intros enum;
       apply (respects_bind _);
       [destruct enum; [by apply spares_assign|by apply spares_define]|]; intros _;
       apply (respects_bind _); [|intros; apply (respects_ret _)];
       destruct (_ && _);
       [apply (respects_bind _); [apply spares_state_base_prop|intros; apply (respects_ret _)]
       |apply (respects_ret _)]
     | apply (respects_bind _);
       [destruct (_ && _);
        [apply (respects_bind _); [apply spares_state_base_prop|intros; apply (respects_ret _)]
        |apply (respects_ret _)]|];
       intros unchanged; destruct unchanged; [apply (respects_ret _)|];
       apply (respects_bind _); [apply (respects_reads _), reads_isDraftable|];
       intros draftable;
       apply (respects_bind _);
       [destruct draftable; [apply (respects_reads _), reads_isFrozen|apply (respects_ret _)]|];
       intros frozen;
       apply (respects_bind _); [|intros; apply (respects_ret _)];
       destruct (_ && _); [|apply (respects_ret _)] ]).
  - apply (respects_out_of_fuel _).
  - apply spares_each. intros. apply IH.
Qed.

Lemma spares_finalizeTree fin fuel root rootPath scope :
  (∀ v p, respects (spares a o) (fin v p scope)) →
  respects (spares a o) (finalizeTree this fin fuel root rootPath scope).
Proof.
  intros Hfin. unfold finalizeTree.
  apply (respects_bind _); [apply (respects_reads _), reads_draft_state|]. intros state.
  apply (respects_bind _).
  { destruct state; [|apply (respects_ret _)].
    apply (respects_bind _); [apply (respects_reads _), reads_get_state|].
    intros st. apply (respects_ret _). }
  intros root'. apply (respects_bind _); [apply (respects_reads _), reads_get_scope|].
  intros sc.
  apply (respects_bind _); [|intros; apply (respects_ret _)].
  apply spares_each. intros. by apply spares_finalizeProperty.
Qed.

Lemma spares_finalize fuel draft path scope :
  respects (spares a o) (finalize this fuel draft path scope).
Proof.
  revert draft path. induction fuel as [|f IH]; intros draft path;
    cbn [finalize];
    (apply (respects_bind _); [apply (respects_reads _), reads_draft_state|]; intros [s|];
     [ apply (respects_bind _); [apply (respects_reads _), reads_get_state|]; intros st;
       destruct (negb (bool_decide _)); [apply (respects_ret _)|];
       destruct (negb (st_modified st)); [apply (respects_ret _)|];
       apply (respects_bind _);
       [|intros _; apply (respects_bind _); [apply (respects_reads _), reads_get_state|];
         intros; apply (respects_ret _)];
       destruct (negb (st_finalized st)); [|apply (respects_ret _)]
     | apply (respects_bind _); [apply (respects_reads _), reads_isFrozen|]; intros frozen;
       destruct frozen; [apply (respects_ret _)|] ]).
  - apply (respects_out_of_fuel _).
  - apply (respects_out_of_fuel _).
  - apply (respects_bind _); [by apply spares_state|]. intros _.
    apply (respects_bind _); [by apply spares_finalizeTree|]. intros _.
    apply (respects_bind _).
    { apply (respects_when _).
      apply (respects_bind _); [apply (respects_reads _), reads_get_state|].
      intros st'. apply (respects_for_each _). intros e.
      apply (respects_when _), spares_emit. }
    intros _. apply (respects_bind _); [apply (respects_when _), spares_emit|].
    intros _.
    apply (respects_bind _); [apply (respects_reads _), reads_get_scope|]. intros sc.
    apply (respects_bind _).
    { apply (respects_when _). apply under_get_state. intros st'.
      destruct (st_copy st') as [c|]; [|apply under_respects, (respects_ret _)].
      apply under_copy_write. intros Hc. by apply spares_freeze. }
    intros _. destruct path as [p|]; [|apply (respects_ret _)].
    apply (respects_when _), spares_generatePatches.
  - by apply spares_finalizeTree.
Qed.

Lemma spares_processResult fuel result sc :
  respects (spares a o) (processResult this fuel result sc).
Proof.
  apply (respects_processResult_with this sc (spares a o)).
  - intros. apply spares_finalize.
  - apply spares_revoke.
  - apply spares_scope.
  - intros. apply spares_emit.
Qed.

End finalize_spares.

End spares.

Lemma ready_untouchable a o sc l h : untouchable a o h → untouchable a o (ready sc l h).
Proof.
  intros (Hf & Ha & Hr & Hnc). split_and!.
  - by apply ready_fresh.
  - by rewrite ready_cells.
  - intros k x Hk. rewrite ready_cells. by eapply Hr.
  - intros d st. rewrite ready_cells. apply Hnc.
Qed.

(** Whether a given object of a given heap is out of reach can be
    checked. *)
Lemma untouchable_check a o h :
  bool_decide (map_Forall (λ x _, x < next_addr h) (cells h)) = true →
  cells h !! a = Some (CObj o) →
  forallb (λ e : key * property,
             match p_value e.2 with
             | VObj x => match cells h !! x with
                         | Some (CObj _) => true
                         | _ => false
                         end
             | _ => true
             end) (o_props o) = true →
  bool_decide (map_Forall (λ _ c, match c with
                                  | CDraft st => bool_decide (st_copy st ≠ Some a)
                                  | CObj _ => true
                                  end = true) (cells h)) = true →
  untouchable a o h.
Proof.
  intros Hf Ha Hr Hnc. split_and!; [by apply fresh_heap_check|done| |].
  - intros k x Hk. unfold prop_value in Hk.
    destruct (alist_get k (o_props o)) as [p|] eqn:Ek; [|done].
    assert ((k, p) ∈ o_props o) as Hin.
    { clear -Ek. induction (o_props o) as [|[k' p'] l IH]; [done|].
      cbn in Ek. destruct (decide (k = k')) as [->|_].
      - injection Ek as ->. by left.
      - right. by apply IH. }
    rewrite forallb_forall in Hr. apply list_elem_of_In in Hin.
    specialize (Hr _ Hin). cbn in Hr. rewrite Hk in Hr.
    destruct (cells h !! x) as [[o'|]|]; try done. by exists o'.
  - intros d st Hd. apply bool_decide_eq_true_1 in Hnc.
    specialize (Hnc d _ Hd). cbn in Hnc. by apply bool_decide_eq_true_1 in Hnc.
Qed.

(** X16.  Finalization writes to drafts' copies and to objects that hold
    drafts, and to nothing else.  An object that holds no draft and is no
    draft's copy when the recipe returns is left exactly as it is by
    everything [produce] does afterwards, whatever the outcome, and is still
    such an object then. *)
Theorem produce_spares_base (this : Immer) (fuel : nat) (base : value)
    (recipe : value → M returned) (listener : option nat) (h h2 : Heap)
    (result : value) (r : outcome returned) (h' : Heap) (a : addr) (o : object) :
  draftable_in h base →
  recipe (VObj (next_addr h)) (entered base h) = (Ok (Value result), h2) →
  untouchable a o h2 →
  produce this fuel base recipe listener h = (r, h') →
  cells h' !! a = Some (CObj o) ∧ untouchable a o h'.
Proof.
  intros Hd Hr Hu E.
  rewrite (produce_returned _ _ _ _ _ _ _ _ Hd Hr) in E.
  assert (spares a o (ready (next_scope h) listener h2) h') as Hs.
  { revert E. generalize (ready (next_scope h) listener h2) r h'.
    apply (respects_bind _); [|intros; apply (respects_ret _)].
    apply spares_processResult. }
  destruct (Hs (ready_untouchable _ _ _ _ _ Hu)) as [Hu' _].
  split; [apply Hu'|done].
Qed.

Lemma produce_spares_base_witness :
  ∃ h', produce all_hooks 2 scenario_base recipe_scenario_A (Some 7) scenario_heap
        = (Ok (Value (VObj 5)), h') ∧
        cells h' !! 1 = cells scenario_heap !! 1.
Proof.
  set (h' := (produce all_hooks 2 scenario_base recipe_scenario_A (Some 7)
                scenario_heap).2).
  assert (produce all_hooks 2 scenario_base recipe_scenario_A (Some 7) scenario_heap
          = (Ok (Value (VObj 5)), h')) as E by (vm_compute; reflexivity).
  exists h'. split; [exact E|].
  destruct (produce_spares_base all_hooks 2 scenario_base recipe_scenario_A (Some 7)
              scenario_heap
              (recipe_scenario_A (VObj 2) (entered scenario_base scenario_heap)).2
              VUndefined (Ok (Value (VObj 5))) h' 1
              (Object CPlain [(KStr "a", Prop_ (VNumber (Fin 1)) true);
                              (KStr "b", Prop_ (VObj 0) true)] false))
    as [Hc _].
  - vm_compute. reflexivity.
  - vm_compute. reflexivity.
  - apply untouchable_check; vm_compute; reflexivity.
  - exact E.
  - etrans; [apply Hc|]. vm_compute. reflexivity.
Defined.

(** ** The current scope *)

#[global] Instance keeps_current_preorder sc : PreOrder (keeps_current sc).
Proof.
  split.
  - by intros h.
  - intros x y z Hxy Hyz Hx. rewrite Hyz; [by apply Hxy|]. by rewrite Hxy.
Qed.

Lemma keeps_current_same sc h h' : current h' = current h → keeps_current sc h h'.
Proof. by intros E _. Qed.

Section keeps_current.

Variable this : Immer.
Variable sc : scope_id.

Lemma keeps_current_put a c : respects (keeps_current sc) (put_cell a c).
Proof. intros h r h' [= _ <-]. by apply keeps_current_same. Qed.

Lemma keeps_current_object {A} a (k : object → M A) :
  (∀ o, respects (keeps_current sc) (k o)) →
  respects (keeps_current sc) (bind (get_object a) k).
Proof.
  intros Hk. apply (respects_bind _); [apply (respects_reads _), reads_get_object|]. done.
Qed.

Lemma keeps_current_finalize fuel draft path scope :
  respects (keeps_current sc) (finalize this fuel draft path scope).
Proof.
  apply (respects_finalize this (keeps_current sc)).
  - intros c h r h' [= _ <-]. by apply keeps_current_same.
  - intros a k v. apply keeps_current_object. intros o.
    destruct (o_frozen o); [apply (respects_throw _)|apply keeps_current_put].
  - intros a k v. apply keeps_current_object. intros o.
    destruct (o_frozen o); [apply (respects_throw _)|apply keeps_current_put].
  - intros s f. unfold update_state.
    apply (respects_bind _); [apply (respects_reads _), reads_get_state|]. intros st.
    apply keeps_current_put.
  - intros sc' f. unfold update_scope.
    apply (respects_bind _); [apply (respects_reads _), reads_get_scope|]. intros s.
    intros h r h' [= _ <-]. by apply keeps_current_same.
  - intros e _ h r h' [= _ <-]. by apply keeps_current_same.
  - intros _ a. apply keeps_current_object. intros o. apply keeps_current_put.
Qed.

Lemma keeps_current_revoke : respects (keeps_current sc) (ImmerScope.revoke sc).
Proof.
  intros h r h' [= _ <-] Hne. unfold ImmerScope.revoke_heap.
  assert (current (ImmerScope.leave_heap sc h) = current h) as Hl.
  { unfold ImmerScope.leave_heap. destruct (scopes h !! sc); [|done].
    by rewrite decide_False. }
  by destruct (scopes (ImmerScope.leave_heap sc h) !! sc).
Qed.

Lemma keeps_current_processResult fuel result :
  respects (keeps_current sc) (processResult this fuel result sc).
Proof.
  apply (respects_processResult_with this sc (keeps_current sc)).
  - intros. apply keeps_current_finalize.
  - apply keeps_current_revoke.
  - intros f. unfold update_scope.
    apply (respects_bind _); [apply (respects_reads _), reads_get_scope|]. intros s.
    intros h r h' [= _ <-]. by apply keeps_current_same.
  - intros l ps inv h r h' [= _ <-]. by apply keeps_current_same.
Qed.

End keeps_current.

Lemma leave_heap_current sc h s :
  scopes h !! sc = Some s → current h = Some sc →
  current (ImmerScope.leave_heap sc h) = parent s.
Proof.
  intros Hs Hc. unfold ImmerScope.leave_heap. rewrite Hs. by rewrite decide_True.
Qed.

Lemma revoke_heap_current sc h :
  current (ImmerScope.revoke_heap sc h) = current (ImmerScope.leave_heap sc h).
Proof.
  unfold ImmerScope.revoke_heap.
  by destruct (scopes (ImmerScope.leave_heap sc h) !! sc).
Qed.

(** X17.  [produce] leaves the current scope as it found it.  When the recipe
    ends with the scope of its own update current again, whether it returns
    a value, returns a promise or raises an error, the scope that was
    current before the call is current after it: updates nest. *)
Theorem produce_restores_scope (this : Immer) (fuel : nat) (base : value)
    (recipe : value → M returned) (listener : option nat) (h h2 : Heap)
    (r0 : outcome returned) (s : Scope) (r : outcome returned) (h' : Heap) :
  draftable_in h base → current h ≠ Some (next_scope h) →
  recipe (VObj (next_addr h)) (entered base h) = (r0, h2) → r0 ≠ OutOfFuel →
  current h2 = Some (next_scope h) →
  scopes h2 !! next_scope h = Some s → parent s = current h →
  produce this fuel base recipe listener h = (r, h') →
  current h' = current h.
Proof.
  intros Hd Hne Hr Hr0 Hc Hs Hp E.
  pose proof (leave_heap_current _ _ _ Hs Hc) as Hl.
  destruct r0 as [[v|p]|e|]; [| | |done].
  - rewrite (produce_returned _ _ _ _ _ _ _ _ Hd Hr) in E.
    assert (current (ready (next_scope h) listener h2) = current h) as Hready.
    { unfold ready, ImmerScope.usePatches_heap. destruct listener; cbn; congruence. }
    assert (keeps_current (next_scope h) (ready (next_scope h) listener h2) h') as Hk.
    { revert E. generalize (ready (next_scope h) listener h2) r h'.
      apply (respects_bind _); [|intros; apply (respects_ret _)].
      apply keeps_current_processResult. }
    rewrite Hk; [done|]. by rewrite Hready.
  - rewrite (produce_promised _ _ _ _ _ _ _ _ Hd Hr) in E. injection E as _ <-. congruence.
  - rewrite (produce_threw _ _ _ _ _ _ _ _ Hd Hr) in E. injection E as _ <-.
    rewrite revoke_heap_current. congruence.
Qed.

Lemma produce_restores_scope_witness :
  current (produce all_hooks 2 scenario_base (recipe_set (KStr "a") (VNumber (Fin 2)))
             (Some 7) scenario_heap).2 = current scenario_heap.
Proof.
  set (recipe := recipe_set (KStr "a") (VNumber (Fin 2))).
  apply (produce_restores_scope all_hooks 2 scenario_base recipe (Some 7) scenario_heap
           (recipe (VObj 2) (entered scenario_base scenario_heap)).2
           (Ok (Value VUndefined)) (MkScope [2] None true None None None)
           (produce all_hooks 2 scenario_base recipe (Some 7) scenario_heap).1).
  - reflexivity.
  - done.
  - vm_compute. reflexivity.
  - done.
  - vm_compute. reflexivity.
  - vm_compute. reflexivity.
  - reflexivity.
  - by destruct (produce _ _ _ _ _ _).
Defined.

(** * Finalization, property by property *)

(** ** Objects that hold themselves *)





Section circular_search.

Variable this : Immer.







End circular_search.

Section circular_updates.

Variable this : Immer.




End circular_updates.




(** The check compares the value of a property with the object visited.  A
    draft assigned to a property of itself is held there as a draft, while
    the object visited is its copy: the check does not fire, and the update
    completes with a result that holds itself. *)
Lemma draft_self_assignment_not_detected :
  ∃ c h' o,
    produce all_hooks 2 scenario_base recipe_self None scenario_heap
      = (Ok (Value (VObj c)), h') ∧
    cells h' !! c = Some (CObj o) ∧ prop_value (KStr "self") o = VObj c.
Proof. eexists _, _, _. split_and!; by vm_compute. Qed.

(** ** Patch paths of nested drafts *)




Section nested_paths.

Variable this : Immer.






End nested_paths.




(** ** Copies that enclose a draft of another scope *)

Section on_success.

Context (R : relation Heap) `{!PreOrder R}.

Lemma on_success_reads {A} (m : M A) : reads m → on_success R m.
Proof using Type*. intros Hm h a h' E. by rewrite (Hm _ _ _ E). Qed.

Lemma on_success_ret {A} (a : A) : on_success R (ret a).
Proof using Type*. by intros h r h' [= _ <-]. Qed.

Lemma on_success_fails {A} (m : M A) : (∀ h a h', m h ≠ (Ok a, h')) → on_success R m.
Proof. intros Hm h a h' E. by destruct (Hm h a h'). Qed.

Lemma on_success_bind {A B} (m : M A) (k : A → M B) :
  on_success R m → (∀ a, on_success R (k a)) → on_success R (bind m k).
Proof using Type*.
  intros Hm Hk h b h' E. apply bind_ok_inv in E as (a & h1 & E1 & E2).
  etrans; [by eapply Hm|by eapply Hk].
Qed.

Lemma on_success_when (b : bool) (m : M unit) : on_success R m → on_success R (when b m).
Proof using Type*. destruct b; [done|]. intros _. apply on_success_ret. Qed.

Lemma on_success_for_each {A} (l : list A) (body : A → M unit) :
  (∀ x, on_success R (body x)) → on_success R (for_each l body).
Proof using Type*.
  intros Hb. induction l as [|x l IH]; cbn [for_each]; [apply on_success_ret|].
  apply on_success_bind; [apply Hb|]. by intros _.
Qed.

Lemma on_success_map_each {A B} (l : list A) (f : A → M B) :
  (∀ x, on_success R (f x)) → on_success R (map_each l f).
Proof using Type*.
  intros Hf. induction l as [|x l IH]; cbn [map_each].
  - apply on_success_ret.
  - apply on_success_bind; [apply Hf|]. intros y.
    apply on_success_bind; [apply IH|]. intros ys. apply on_success_ret.
Qed.

End on_success.

Lemma on_success_weaken (R R' : relation Heap) {A} (m : M A) :
  (∀ h h', R h h' → R' h h') → on_success R m → on_success R' m.
Proof. intros HR Hm h a h' E. apply HR. by eapply Hm. Qed.

#[global] Instance flag_kept_preorder scope : PreOrder (flag_kept scope).
Proof.
  split.
  - intros h s Hs. by exists s.
  - intros x y z Hxy Hyz s Hs. destruct (Hxy s Hs) as (s1 & Hs1 & E1).
    destruct (Hyz s1 Hs1) as (s2 & Hs2 & E2). exists s2. split; [done|congruence].
Qed.

#[global] Instance reads_around_preorder scope c k : PreOrder (reads_around scope c k).
Proof.
  split.
  - intros h. split; [reflexivity|]. by intros Hu.
  - intros x y z [Hf1 H1] [Hf2 H2]. split; [by etrans|]. intros Hu.
    destruct (H1 Hu) as [Hu1 He1]. destruct (H2 Hu1) as [Hu2 He2]. split; [done|auto].
Qed.

Lemma flag_kept_disabled scope h h' :
  flag_kept scope h h' → disabled scope h → disabled scope h'.
Proof.
  intros Hf (s & Hs & Hc). destruct (Hf s Hs) as (s' & Hs' & E).
  exists s'. split; [done|congruence].
Qed.

#[global] Instance walks_around_preorder scope c k : PreOrder (walks_around scope c k).
Proof.
  split.
  - intros h. split; [done|]. intros Hu. split; [done|]. by right.
  - intros x y z [Hd1 H1] [Hd2 H2]. split; [auto|]. intros Hu.
    destruct (H1 Hu) as [Hu1 He1]. destruct (H2 Hu1) as [Hu2 He2]. split; [done|].
    intros He. destruct (He1 He) as [Hd|He']; [left; auto|auto].
Qed.

Lemma reads_walks scope c k h h' : reads_around scope c k h h' → walks_around scope c k h h'.
Proof.
  intros [Hf H]. split; [by apply flag_kept_disabled|]. intros Hu.
  destruct (H Hu) as [Hu' He]. split; [done|]. intros Henc. right. auto.
Qed.

Section unfrozen.

Variable scope : scope_id.
Variable c : addr.
Variable k : key.

Local Abbreviation reads_around := (reads_around scope c k).
Local Abbreviation walks_around := (walks_around scope c k).

Lemma yields_draft_kept h h' v :
  (∀ s st, cells h !! s = Some (CDraft st) →
           ∃ st', cells h' !! s = Some (CDraft st') ∧ same_state st st') →
  yields_draft scope h v → yields_draft scope h' v.
Proof.
  intros Hk (x & stx & -> & Hx & Hr & Hcase).
  destruct (Hk x stx Hx) as (stx' & Hx' & Hsame).
  exists x, stx'. split_and!; [done|done| |].
  - destruct Hsame as (_&_&_&_&_&_&_&_&->&_). done.
  - destruct Hcase as [Hsc|(Hm & y & sty & Hb & Hy & Hry)].
    + left. destruct Hsame as (->&_). done.
    + right. destruct (Hk y sty Hy) as (sty' & Hy' & Hsamey).
      split; [destruct Hsame as (_&->&_); done|].
      exists y, sty'. split_and!; [|done|].
      * destruct Hsame as (_&_&_&_&->&_). done.
      * destruct Hsamey as (_&_&_&_&_&_&_&_&->&_). done.
Qed.

(** The core of the primitive steps: what a change of the cells has to keep. *)
Lemma around_cells h h' :
  flag_kept scope h h' →
  (fresh_heap h →
   fresh_heap h' ∧
   (∀ o, cells h !! c = Some (CObj o) →
         ∃ o', cells h' !! c = Some (CObj o') ∧ o_frozen o' = o_frozen o ∧
               prop_value k o' = prop_value k o) ∧
   (∀ s st, cells h !! s = Some (CDraft st) →
            ∃ st', cells h' !! s = Some (CDraft st') ∧ same_state st st') ∧
   (∀ s st', cells h' !! s = Some (CDraft st') → st_copy st' = Some c →
             ∃ st, cells h !! s = Some (CDraft st) ∧ same_state st st')) →
  reads_around h h'.
Proof.
  intros Hflag H. split; [done|]. intros (Hf & (o & Hc & Hfr) & Hfin).
  destruct (H Hf) as (Hf' & Hobj & Hkept & Hfrom).
  destruct (Hobj o Hc) as (o' & Hc' & Hfr' & Hv').
  split.
  - split_and!; [done|exists o'; split; [done|congruence]|].
    intros s st' Hs Hcopy. destruct (Hfrom s st' Hs Hcopy) as (st & Hst & Hsame).
    assert (st_copy st = Some c) as Hcopy0.
    { destruct Hsame as (_&_&_&_&_&_&E&_). congruence. }
    apply Hsame. by eapply Hfin.
  - intros (o0 & Hc0 & Hy). assert (o0 = o) as -> by (unfold addr in *; congruence).
    exists o'. split; [done|]. rewrite Hv'. by eapply yields_draft_kept.
Qed.

Lemma around_scopes h h' :
  cells h' = cells h → next_addr h' = next_addr h → flag_kept scope h h' →
  reads_around h h'.
Proof.
  intros Hc Hn Hflag. apply around_cells; [done|]. intros Hf. rewrite Hc. split_and!.
  - intros a Ha. rewrite Hc. apply Hf. by rewrite <- Hn.
  - intros o Ho. by exists o.
  - intros s st Hs. by exists st.
  - intros s st Hs _. by exists st.
Qed.

Lemma around_alloc cell :
  (∀ st, cell = CDraft st → st_copy st ≠ Some c) → on_success reads_around (alloc cell).
Proof.
  intros Hcell h a h' [= _ <-]. apply around_cells; [by intros s Hs; exists s|].
  intros Hf. cbn [cells next_addr].
  assert (∀ x y, cells h !! x = Some y → x ≠ next_addr h) as Hne.
  { intros x y Hx ->. rewrite Hf in Hx by done. done. }
  split_and!.
  - intros x Hx. cbn in *. rewrite lookup_insert_ne by lia. apply Hf. lia.
  - intros o Ho. exists o. rewrite lookup_insert_ne; [done|]. intros E. by eapply Hne.
  - intros s st Hs. exists st. rewrite lookup_insert_ne; [done|]. intros E. by eapply Hne.
  - intros s st'. destruct (decide (next_addr h = s)) as [<-|Hs].
    + rewrite lookup_insert_eq. intros [= ->] Hcopy. by destruct (Hcell st').
    + rewrite lookup_insert_ne by done. intros Hs' _. by exists st'.
Qed.

(** An object is replaced: another object than [c], or [c] with the same
    frozen flag and the same value at [k]. *)
Lemma around_replace h p op op' :
  cells h !! p = Some (CObj op) →
  (p = c → o_frozen op' = o_frozen op ∧ prop_value k op' = prop_value k op) →
  reads_around h (set_cells <[p := CObj op']> h).
Proof.
  intros Hp Hpc. apply around_cells; [by intros s Hs; exists s|].
  intros Hf. cbn [cells set_cells]. split_and!.
  - intros x Hx. cbn in *. rewrite lookup_insert_ne; [by apply Hf|].
    intros ->. rewrite Hf in Hp by done. done.
  - intros o Ho. destruct (decide (p = c)) as [->|Hne].
    + rewrite lookup_insert_eq. exists op'. assert (o = op) as -> by congruence.
      by destruct Hpc.
    + rewrite lookup_insert_ne by done. by exists o.
  - intros s st Hs. exists st. rewrite lookup_insert_ne; [done|]. intros ->.
    unfold addr in *. congruence.
  - intros s st'. destruct (decide (p = s)) as [->|Hne].
    + by rewrite lookup_insert_eq.
    + rewrite lookup_insert_ne by done. intros Hs _. by exists st'.
Qed.

Lemma prop_value_write k' v e o :
  k' ≠ k → prop_value k (write_prop k' v e o) = prop_value k o.
Proof.
  intros Hne. unfold prop_value, write_prop. cbn [o_props].
  generalize (Prop_ v match alist_get k' (o_props o) with
                      | Some p => p_enumerable p
                      | None => e
                      end).
  intros x. induction (o_props o) as [|[k1 p1] l IH]; cbn [alist_set alist_get].
  - by rewrite decide_False.
  - destruct (decide (k' = k1)) as [->|Hk1]; cbn [alist_get].
    + by rewrite !decide_False by done.
    + destruct (key_before k' k1); cbn [alist_get].
      * by rewrite (decide_False (P := k = k')) by done.
      * destruct (decide (k = k1)); [done|]. apply IH.
Qed.

Lemma around_assign p k' v : p ≠ c ∨ k' ≠ k → on_success reads_around (assign_prop p k' v).
Proof.
  intros Hpk h a h'. unfold assign_prop, bind, get_object, bind, get_cell.
  destruct (cells h !! p) as [[op|st]|] eqn:Hp; cbn [ret throw]; try done.
  destruct (o_frozen op) eqn:Hfr; intros [= _ <-]. eapply around_replace; [done|].
  intros ->. destruct Hpk as [?|Hk]; [done|]. split; [done|]. by apply prop_value_write.
Qed.

Lemma around_define p k' v : p ≠ c ∨ k' ≠ k → on_success reads_around (defineProperty p k' v).
Proof.
  intros Hpk h a h'. unfold defineProperty, bind, get_object, bind, get_cell.
  destruct (cells h !! p) as [[op|st]|] eqn:Hp; cbn [ret throw]; try done.
  destruct (o_frozen op) eqn:Hfr; intros [= _ <-]. eapply around_replace; [done|].
  intros ->. destruct Hpk as [?|Hk]; [done|]. split; [done|]. by apply prop_value_write.
Qed.

Lemma around_freeze p : p ≠ c → on_success reads_around (freeze p).
Proof.
  intros Hpc h a h'. unfold freeze, bind, get_object, bind, get_cell.
  destruct (cells h !! p) as [[op|st]|] eqn:Hp; cbn [ret throw]; try done.
  intros [= _ <-]. by eapply around_replace.
Qed.

Lemma around_state s f :
  (∀ st, same_state st (f st)) → on_success reads_around (update_state s f).
Proof.
  intros Hsame h a h'. unfold update_state, bind, get_state, bind, get_cell.
  destruct (cells h !! s) as [[os|st]|] eqn:Hs; cbn [ret throw]; try done.
  intros [= _ <-]. apply around_cells; [by intros s0 Hs0; exists s0|].
  intros Hf. cbn [cells set_cells]. split_and!.
  - intros x Hx. cbn in *. rewrite lookup_insert_ne; [by apply Hf|].
    intros ->. rewrite Hf in Hs by done. done.
  - intros o Ho. exists o. rewrite lookup_insert_ne; [done|]. intros ->.
    unfold addr in *. congruence.
  - intros s0 st0 Hs0. destruct (decide (s = s0)) as [->|Hne].
    + rewrite lookup_insert_eq. exists (f st). split; [done|].
      assert (st0 = st) as -> by (unfold addr in *; congruence). apply Hsame.
    + rewrite lookup_insert_ne by done. by exists st0.
  - intros s0 st'. destruct (decide (s = s0)) as [->|Hne].
    + rewrite lookup_insert_eq. intros [= <-] _. exists st. split; [done|apply Hsame].
    + rewrite lookup_insert_ne by done. intros Hs0 _. by exists st'.
Qed.

Lemma around_scope sc f :
  (∀ s, canAutoFreeze (f s) = canAutoFreeze s) → on_success reads_around (update_scope sc f).
Proof.
  intros Hflag h a h'. unfold update_scope, bind, get_scope.
  destruct (scopes h !! sc) as [s|] eqn:Hs; [|done]. intros [= _ <-].
  apply around_scopes; [done|done|]. intros s0 Hs0. cbn.
  destruct (decide (sc = scope)) as [->|Hne].
  - rewrite lookup_insert_eq. exists (f s). split; [done|].
    rewrite Hflag. unfold scope_id in *. congruence.
  - rewrite lookup_insert_ne by done. by exists s0.
Qed.

Lemma around_emit e : on_success reads_around (emit e).
Proof.
  intros h a h' [= _ <-]. apply around_scopes; [done|done|].
  intros s Hs. by exists s.
Qed.

Lemma get_object_inv a h o h' :
  get_object a h = (Ok o, h') → cells h !! a = Some (CObj o) ∧ h' = h.
Proof.
  unfold get_object, bind, get_cell.
  destruct (cells h !! a) as [[o0|?]|]; cbn; intros [= ]; by subst.
Qed.

Lemma get_state_inv s h st h' :
  get_state s h = (Ok st, h') → cells h !! s = Some (CDraft st) ∧ h' = h.
Proof.
  unfold get_state, bind, get_cell.
  destruct (cells h !! s) as [[o0|?]|]; cbn; intros [= ]; by subst.
Qed.

Lemma prop_value_written k' v e o : prop_value k' (write_prop k' v e o) = v.
Proof.
  unfold prop_value, write_prop. cbn [o_props].
  generalize (match alist_get k' (o_props o) with
              | Some p => p_enumerable p
              | None => e
              end).
  intros b. induction (o_props o) as [|[k1 p1] l IH]; cbn [alist_set alist_get].
  - by rewrite decide_True.
  - destruct (decide (k' = k1)) as [->|Hk1]; cbn [alist_get].
    + by rewrite decide_True.
    + destruct (key_before k' k1); cbn [alist_get].
      * by rewrite decide_True.
      * by rewrite decide_False.
Qed.

(** Writing a property of an unfrozen object keeps the copy unfrozen. *)
Lemma unfrozen_copy_written h p op k' v e :
  cells h !! p = Some (CObj op) →
  unfrozen_copy c h → unfrozen_copy c (set_cells <[p := CObj (write_prop k' v e op)]> h).
Proof.
  intros Hp (Hf & (o & Hc & Hfr) & Hfin). split_and!.
  - intros x Hx. cbn in *. rewrite lookup_insert_ne; [by apply Hf|].
    intros ->. rewrite Hf in Hp by done. done.
  - cbn. destruct (decide (p = c)) as [->|Hne].
    + rewrite lookup_insert_eq. eexists. split; [done|].
      assert (o = op) as -> by congruence. done.
    + rewrite lookup_insert_ne by done. by exists o.
  - intros s st. cbn. destruct (decide (p = s)) as [->|Hne].
    + by rewrite lookup_insert_eq.
    + rewrite lookup_insert_ne by done. apply Hfin.
Qed.

Lemma assign_prop_written p k' v h a h' :
  assign_prop p k' v h = (Ok a, h') →
  ∃ op, cells h !! p = Some (CObj op) ∧ o_frozen op = false ∧
        h' = set_cells <[p := CObj (write_prop k' v true op)]> h.
Proof.
  unfold assign_prop, bind, get_object, bind, get_cell.
  destruct (cells h !! p) as [[op|st]|] eqn:Hp; cbn [ret throw]; try done.
  destruct (o_frozen op) eqn:Hfr; intros [= _ <-]. by exists op.
Qed.

Lemma defineProperty_written p k' v h a h' :
  defineProperty p k' v h = (Ok a, h') →
  ∃ op, cells h !! p = Some (CObj op) ∧ o_frozen op = false ∧
        h' = set_cells <[p := CObj (write_prop k' v false op)]> h.
Proof.
  unfold defineProperty, bind, get_object, bind, get_cell.
  destruct (cells h !! p) as [[op|st]|] eqn:Hp; cbn [ret throw]; try done.
  destruct (o_frozen op) eqn:Hfr; intros [= _ <-]. by exists op.
Qed.

Lemma same_state_cached k' d st : same_state st (st_set_cached k' d st).
Proof. by repeat split. Qed.

Lemma same_state_finalized st : same_state st (st_set_finalized true st).
Proof. by repeat split. Qed.

(** *** Reading through drafts *)

Lemma around_createProxy base parent : on_success reads_around (createProxy base parent).
Proof.
  unfold createProxy. apply (on_success_bind _).
  { destruct parent.
    - apply (on_success_bind _); [apply (on_success_reads _), reads_get_state|].
      intros st. apply (on_success_ret _).
    - apply (on_success_bind _); [apply (on_success_reads _), reads_get_heap|]. intros h.
      destruct (current h); [apply (on_success_ret _)|by apply on_success_fails]. }
  intros sc. apply (on_success_bind _); [apply (on_success_reads _), reads_isArray|].
  intros arr. apply (on_success_bind _); [apply (on_success_reads _), reads_get_heap|].
  intros h. apply (on_success_bind _); [by apply around_alloc; intros st [= <-]|]. intros _.
  apply (on_success_bind _); [|intros _; apply (on_success_ret _)].
  by apply around_scope.
Qed.

(** The draft [createProxy] makes for a child. *)
Lemma createProxy_child v s h d h1 :
  createProxy v (Some s) h = (Ok d, h1) →
  ∃ stn, d = VObj (next_addr h) ∧ cells h1 !! next_addr h = Some (CDraft stn) ∧
         st_modified stn = false ∧ st_base stn = v ∧ st_revoked stn = false.
Proof.
  unfold createProxy. intros E.
  apply bind_ok_inv in E as (sc & h0 & E0 & E).
  apply bind_ok_inv in E0 as (st & h0' & E0 & E0').
  pose proof (reads_get_state _ _ _ _ E0) as ->. injection E0' as <- <-.
  apply bind_ok_inv in E as (arr & h0 & E1 & E).
  pose proof (reads_isArray _ _ _ _ E1) as ->.
  apply bind_ok_inv in E as (h0 & h0' & E2 & E). injection E2 as <- <-.
  apply bind_ok_inv in E as (n & h2 & E2 & E). injection E2 as <- <-.
  apply bind_ok_inv in E as ([] & h3 & E3 & E). injection E as <- <-.
  unfold update_scope in E3. apply bind_ok_inv in E3 as (s0 & h4 & E4 & E3).
  pose proof (reads_get_scope _ _ _ _ E4) as ->.
  injection E3 as <-. eexists. split; [done|]. cbn. rewrite lookup_insert_eq. done.
Qed.

Lemma around_read_with get s k' :
  (∀ v k0, on_success reads_around (get v k0)) → on_success reads_around (read_with get s k').
Proof.
  intros Hget h a h' E. unfold read_with in E.
  apply bind_ok_inv in E as (st & h0 & E0 & E).
  pose proof (reads_get_state _ _ _ _ E0) as ->.
  destruct (alist_get k' (st_drafts st)) as [d0|]; [by injection E as _ <-|].
  destruct (decide (st_copy st = Some c ∧ k' = k)) as [[Hcopy ->]|Hno].
  - rewrite Hcopy in E.
    apply bind_ok_inv in E as (v & h0 & Ev & E).
    apply bind_ok_inv in Ev as (o & h0' & Eo & Ev).
    apply get_object_inv in Eo as [Hc ->]. injection Ev as <- <-.
    apply bind_ok_inv in E as (dr & h0 & E1 & E).
    pose proof (reads_isDraftable _ _ _ _ E1) as ->.
    apply bind_ok_inv in E as (fr & h0 & E2 & E).
    pose proof (reads_isFrozen _ _ _ _ E2) as ->.
    destruct (_ && _); [|by injection E as _ <-].
    apply bind_ok_inv in E as (d & h1 & Ed & E).
    apply bind_ok_inv in E as ([] & h2 & Es & E).
    apply bind_ok_inv in E as ([] & h3 & Ea & Eret). injection Eret as <- <-.
    pose proof (around_createProxy _ _ _ _ _ Ed) as R1.
    pose proof (around_state _ _ (same_state_cached k d) _ _ _ Es) as R2.
    assert (reads_around h h2) as [Hflag H2] by (by etrans).
    destruct (assign_prop_written _ _ _ _ _ _ Ea) as (o2 & Hc2 & Hfr2 & ->).
    split; [done|]. intros Hu. destruct (H2 Hu) as [Hu2 _].
    split; [by apply unfrozen_copy_written|].
    intros (o0 & Hc0 & x & stx & Hv & Hx & Hrx & _).
    assert (o0 = o) as -> by congruence.
    destruct (createProxy_child _ _ _ _ _ Ed) as (stn & -> & Hn & Hmn & Hbn & Hrn).
    assert (fresh_heap h) as Hf by apply Hu.
    assert (steps scope (Some []) false h h1) as S1 by (by eapply sound_createProxy).
    assert (steps scope (Some []) false h1 (set_cells <[c:=CObj (write_prop k (VObj (next_addr h)) true o2)]> h2))
      as S2.
    { etrans; [by eapply sound_set_cached|by eapply sound_assign_prop]. }
    assert (fresh_heap h1) as Hf1 by (by eapply steps_fresh).
    destruct (steps_draft _ _ _ _ _ _ _ S2 Hf1 Hn) as (stn' & Hn' & Hsn).
    assert (steps scope (Some []) false h
              (set_cells <[c:=CObj (write_prop k (VObj (next_addr h)) true o2)]> h2)) as S3
      by (by etrans).
    destruct (steps_draft _ _ _ _ _ _ _ S3 Hf Hx) as (stx' & Hx' & Hsx).
    eexists. split; [cbn; apply lookup_insert_eq|]. rewrite prop_value_written.
    exists (next_addr h), stn'. split_and!; [done|done| |].
    + destruct Hsn as (_&_&_&_&_&_&_&_&->&_). done.
    + right. split; [destruct Hsn as (_&->&_); done|].
      exists x, stx'. split_and!; [|done|].
      * destruct Hsn as (_&_&_&_&->&_). congruence.
      * destruct Hsx as (_&_&_&_&_&_&_&_&->&_). done.
  - match type of E with
    | ?m _ = _ => assert (on_success reads_around m) as Hm; [|by eapply Hm]
    end.
    clear E.
    apply (on_success_bind _).
    { destruct (st_copy st); [|apply Hget].
      apply (on_success_bind _); [apply (on_success_reads _), reads_get_object|]. intros o.
      apply (on_success_ret _). }
    intros v. apply (on_success_bind _); [apply (on_success_reads _), reads_isDraftable|].
    intros dr. apply (on_success_bind _); [apply (on_success_reads _), reads_isFrozen|].
    intros fr. destruct (_ && _); [|apply (on_success_ret _)].
    apply (on_success_bind _); [apply around_createProxy|]. intros d.
    apply (on_success_bind _); [apply around_state, same_state_cached|]. intros _.
    apply (on_success_bind _); [|intros _; apply (on_success_ret _)].
    destruct (st_copy st) as [c0|] eqn:Hc0; [|apply (on_success_ret _)].
    apply around_assign. destruct (decide (c0 = c)) as [->|]; [|by left].
    right. intros ->. by apply Hno.
Qed.

Lemma around_get_prop fuel v k' : on_success reads_around (get_prop fuel v k').
Proof.
  revert v k'. induction fuel as [|f IH]; intros v k';
    (destruct v; cbn [get_prop]; try apply (on_success_ret _);
     try (by apply on_success_fails);
     apply (on_success_bind _); [apply (on_success_reads _), reads_get_cell|];
     intros [o|st]; [apply (on_success_ret _)|];
     destruct (st_revoked st); [by apply on_success_fails|]).
  - by apply on_success_fails.
  - by apply around_read_with.
Qed.

Lemma around_state_base_prop fuel state prop :
  on_success reads_around (state_base_prop fuel state prop).
Proof.
  destruct state; [|by apply on_success_fails].
  apply (on_success_bind _); [apply (on_success_reads _), reads_get_state|]. intros st.
  apply around_get_prop.
Qed.

Lemma around_describe fuel v : on_success reads_around (describe fuel v).
Proof.
  revert v. induction fuel as [|f IH]; intros v;
    (destruct v; cbn [describe]; try (by apply on_success_fails);
     apply (on_success_bind _); [apply (on_success_reads _), reads_get_cell|];
     intros [o|st]; [apply (on_success_ret _)|];
     destruct (st_revoked st); [by apply on_success_fails|]).
  - by apply on_success_fails.
  - apply (on_success_bind _).
    { destruct (st_copy st); [|apply IH].
      apply (on_success_bind _); [apply (on_success_reads _), reads_get_object|]. intros o.
      apply (on_success_ret _). }
    intros src. apply (on_success_bind _); [|intros; apply (on_success_ret _)].
    apply (on_success_map_each _). intros e.
    apply (on_success_bind _); [|intros; apply (on_success_ret _)].
    apply around_read_with. intros. apply around_get_prop.
Qed.

Lemma around_push_patch p inv : on_success reads_around (push_patch scope p inv).
Proof. by apply around_scope. Qed.

Lemma around_generatePatches fuel s basePath :
  on_success reads_around (generatePatches fuel s basePath scope).
Proof.
  unfold generatePatches.
  apply (on_success_bind _); [apply (on_success_reads _), reads_get_state|]. intros st.
  apply (on_success_bind _); [apply around_describe|]. intros old.
  apply (on_success_bind _).
  { destruct (st_copy st); [|by apply on_success_fails].
    apply (on_success_bind _); [apply (on_success_reads _), reads_get_object|]. intros o.
    apply (on_success_ret _). }
  intros new. destruct (st_kind st).
  - destruct (bool_decide _).
    + apply (on_success_bind _); [by apply around_alloc|]. intros tail.
      apply around_push_patch.
    + apply (on_success_for_each _). intros i. cbn zeta.
      destruct (is_ _ _); [apply (on_success_ret _)|].
      destruct (bool_decide _); apply around_push_patch.
  - apply (on_success_for_each _). intros e. cbn zeta.
    destruct e.2; [destruct (alist_get _ _)|]; apply around_push_patch.
Qed.

(** *** The walk of the finalizer *)

Lemma yields_isDraft h v : yields_draft scope h v → isDraft v h = (Ok true, h).
Proof. intros (x & stx & -> & Hx & Hr & _). by eapply isDraft_live. Qed.

Lemma steps_disabled under silent h h' :
  steps scope under silent h h' → disabled scope h → disabled scope h'.
Proof.
  intros Hsteps (s & Hs & Hc).
  destruct (steps_scope_kept _ _ _ _ _ _ _ Hsteps Hs) as (s' & Hs' & Hsame).
  exists s'. split; [done|]. by apply Hsame.
Qed.

Lemma disable_disabled h a h' :
  update_scope scope (sc_set_canAutoFreeze false) h = (Ok a, h') →
  disabled scope h' ∧ cells h' = cells h ∧ next_addr h' = next_addr h.
Proof.
  unfold update_scope. intros E. apply bind_ok_inv in E as (s & h0 & E0 & E).
  pose proof (reads_get_scope _ _ _ _ E0) as ->. destruct a. injection E as <-.
  split; [|done]. eexists. split; [cbn; apply lookup_insert_eq|done].
Qed.

Lemma unfrozen_copy_cells h h' :
  cells h' = cells h → next_addr h' = next_addr h → unfrozen_copy c h → unfrozen_copy c h'.
Proof.
  intros Hc Hn (Hf & Ho & Hfin). unfold unfrozen_copy, fresh_heap. rewrite Hc, Hn. done.
Qed.

Lemma walks_disable : on_success walks_around (update_scope scope (sc_set_canAutoFreeze false)).
Proof.
  intros h a h' E. destruct (disable_disabled _ _ _ E) as (Hd & Hc & Hn).
  split; [done|]. intros Hu. split; [by eapply unfrozen_copy_cells|]. by left.
Qed.

Lemma walks_each (v : value) (cb : key → value → addr → M unit) :
  (∀ k' a h r h' o', cells h !! a = Some (CObj o') →
                     cb k' (prop_value k' o') a h = (Ok r, h') → walks_around h h') →
  on_success walks_around (each v cb).
Proof.
  intros Hcb. destruct v; try (by apply on_success_fails). cbn [each].
  apply (on_success_bind _); [apply (on_success_reads _), reads_get_object|]. intros o.
  apply (on_success_for_each _). intros k' h r h' E.
  apply bind_ok_inv in E as (o' & h0 & Eo & E). apply get_object_inv in Eo as [Ha ->].
  by eapply Hcb.
Qed.

Section walk.

Variable this : Immer.
Variable fin : value → option (list key) → scope_id → M value.

Hypothesis fin_walks : ∀ v p, on_success walks_around (fin v p scope).
Hypothesis fin_yields : ∀ v p h,
  yields_draft scope h v → ∃ w, fin v p scope h = (Ok w, h) ∧ isDraft w h = (Ok true, h).

(** The stages of the visit of a property that holds a draft (lines
    236-262), when it completes. *)
Lemma finalizeProperty_stages fuel state root rootPath needPatches prop v parent h r h' :
  isDraft v h = (Ok true, h) →
  finalizeProperty this fin fuel state root rootPath scope needPatches prop v parent h
    = (Ok r, h') →
  ∃ path v' h1 isd' h2 op e,
    fin v path scope h = (Ok v', h1) ∧ isDraft v' h1 = (Ok isd', h1) ∧
    when isd' (update_scope scope (sc_set_canAutoFreeze false)) h1 = (Ok tt, h2) ∧
    cells h2 !! parent = Some (CObj op) ∧
    reads_around (set_cells <[parent := CObj (write_prop prop v' e op)]> h2) h'.
Proof using Type.
  intros Hd E.
  assert (∃ isDraftProp,
    (let* r :=
       (let* assigned := (if isDraftProp && needPatches
                          then state_assigned state prop else ret false) in
        let path := if isDraftProp && needPatches && negb assigned
                    then (λ p, p ++ [prop]) <$> rootPath
                    else None in
        let* v' := fin v path scope in
        let* isd' := isDraft v' in
        when isd' (update_scope scope (sc_set_canAutoFreeze false)) >>
        let* arr := isArray (VObj parent) in
        let* enum := (if arr then ret true else isEnumerable parent prop) in
        (if enum then assign_prop parent prop v'
         else defineProperty parent prop v') >>
        let* same := (if isDraftProp
                      then let* b := state_base_prop fuel state prop in
                           ret (strict_eq v' b)
                      else ret false) in
        ret (if same then None else Some v')) in
     match r, state with
     | Some v', Some s => when (isDraftProp && onAssign this) (emit (OnAssign s prop v'))
     | _, _ => ret tt
     end) h = (Ok r, h')) as (isDraftProp & E').
  { exists (bool_decide (is_Some state) && strict_eq (VObj parent) root).
    destruct fuel; cbn [finalizeProperty] in E;
      (destruct (strict_eq v (VObj parent)); [done|];
       unfold bind at 1 in E; rewrite Hd in E; exact E). }
  clear E. destruct r. apply bind_ok_inv in E' as (r1 & h5 & E & Efinal).
  apply bind_ok_inv in E as (assigned & h0 & E0 & E).
  assert (h0 = h) as ->.
  { destruct (_ && _); [by eapply reads_state_assigned|by injection E0]. }
  cbn zeta in E. apply bind_ok_inv in E as (v' & h1 & E1 & E).
  apply bind_ok_inv in E as (isd' & h1' & E2 & E).
  pose proof (reads_isDraft _ _ _ _ E2) as ->.
  apply bind_ok_inv in E as ([] & h2 & E3 & E).
  apply bind_ok_inv in E as (arr & h2' & E4 & E).
  pose proof (reads_isArray _ _ _ _ E4) as ->.
  apply bind_ok_inv in E as (enum & h2' & E5 & E).
  assert (h2' = h2) as ->.
  { destruct arr; [by injection E5|by eapply reads_isEnumerable]. }
  apply bind_ok_inv in E as ([] & h3 & E6 & E).
  assert (∃ op e, cells h2 !! parent = Some (CObj op) ∧
                  h3 = set_cells <[parent := CObj (write_prop prop v' e op)]> h2)
    as (op & e & Hp & ->).
  { destruct enum.
    - destruct (assign_prop_written _ _ _ _ _ _ E6) as (op & Hp & _ & ->). by exists op, true.
    - destruct (defineProperty_written _ _ _ _ _ _ E6) as (op & Hp & _ & ->).
      by exists op, false. }
  eexists _, v', h1, isd', h2, op, e. split_and!; [done..|].
  apply bind_ok_inv in E as (same & h4 & E7 & E). injection E as <- <-.
  trans h4.
  - destruct isDraftProp; [|injection E7 as _ <-; reflexivity].
    apply bind_ok_inv in E7 as (b & h4' & E7 & E8). injection E8 as _ ->.
    by eapply around_state_base_prop.
  - destruct same; [by injection Efinal as <-|]. destruct state; [|by injection Efinal as <-].
    match type of Efinal with
    | when ?b _ _ = _ => destruct b; [|by injection Efinal as <-]
    end.
    by eapply around_emit.
Qed.

Lemma walks_finalizeProperty fuel state root rootPath needPatches prop v parent h r h' :
  (∃ o, cells h !! parent = Some (CObj o) ∧ prop_value prop o = v) →
  finalizeProperty this fin fuel state root rootPath scope needPatches prop v parent h
    = (Ok r, h') →
  walks_around h h' ∧
  (parent = c → prop = k → encloses scope c k h → disabled scope h').
Proof using Type*.
  revert prop v parent h r h'.
  induction fuel as [|f IH]; intros prop v parent h r h' (o & Hp & Hv) E.
  all: destruct (isDraft v h) as [[[|]|e|] h0] eqn:Hd.
  all: try (pose proof (reads_isDraft _ _ _ _ Hd) as ->).
  all: try (exfalso; cbn [finalizeProperty] in E;
            destruct (strict_eq v (VObj parent)); [done|];
            unfold bind at 1 in E; rewrite Hd in E; done).
  1, 3:
    destruct (finalizeProperty_stages _ _ _ _ _ _ _ _ _ _ _ Hd E)
      as (path & v' & h1 & isd' & h2 & op & e & E1 & E2 & E3 & Hp2 & R4);
    pose proof (fin_walks _ _ _ _ _ E1) as W1;
    assert (walks_around h1 h2) as W2
      by (destruct isd'; [by eapply walks_disable|by injection E3 as <-]);
    destruct (decide (parent = c ∧ prop = k)) as [[-> ->]|Hno];
    [|split; [|by intros -> ->; destruct Hno];
      etrans; [exact W1|]; etrans; [exact W2|]; etrans; [|by apply reads_walks];
      apply reads_walks; eapply around_replace; [done|];
      intros ->; split; [done|]; apply prop_value_write; intros ->; by apply Hno].
  1, 2:
    assert (walks_around h h2) as [D2 U2] by (by etrans);
    destruct R4 as [F4 U4];
    assert (flag_kept scope h2 h') as F2
      by (intros s Hs; destruct (F4 s) as (s' & Hs' & Hc'); [done|]; by exists s');
    assert (unfrozen_copy c h → unfrozen_copy c h') as Hu'
      by (intros Hu; apply U4, unfrozen_copy_written; [done|]; by apply U2);
    assert (encloses scope c k h → disabled scope h') as Henc;
    [intros (o0 & Hc0 & Hy); assert (o0 = o) as -> by congruence;
     rewrite Hv in Hy;
     destruct (fin_yields v path h Hy) as (w & Ew & Edw);
     rewrite Ew in E1; injection E1 as <- <-;
     rewrite Edw in E2; injection E2 as <-;
     cbn [when] in E3; apply disable_disabled in E3 as [Hd3 _];
     by eapply flag_kept_disabled
    |split; [|by intros _ _];
     split; [intros Hdis; eapply flag_kept_disabled; [done|]; by apply D2|];
     intros Hu; split; [by apply Hu'|]; intros He; left; by apply Henc].
  (* the property holds no draft *)
  all: assert (walks_around h h') as W;
    [|split; [done|]; intros -> -> (o0 & Hc0 & Hy);
      assert (o0 = o) as -> by congruence; rewrite Hv in Hy;
      apply yields_isDraft in Hy; congruence].
  all: cbn [finalizeProperty] in E;
    (destruct (strict_eq v (VObj parent)); [done|]);
    unfold bind at 1 in E; rewrite Hd in E.
  all: match type of E with
       | ?m _ = _ => assert (on_success walks_around m) as Hm; [|by eapply Hm]
       end; clear E.
  all: apply (on_success_bind _);
    [|intros [x|]; [destruct state; [|apply (on_success_ret _)];
                    apply (on_success_when _);
                    eapply on_success_weaken; [apply reads_walks|apply around_emit]
                   |apply (on_success_ret _)]].
  all: apply (on_success_bind _);
    [destruct (_ && _);
     [apply (on_success_bind _);
      [eapply on_success_weaken; [apply reads_walks|apply around_state_base_prop]|];
      intros; apply (on_success_ret _)
     |apply (on_success_ret _)]|].
  all: intros [|]; [apply (on_success_ret _)|].
  all: apply (on_success_bind _); [apply (on_success_reads _), reads_isDraftable|];
    intros dr.
  all: apply (on_success_bind _);
    [destruct dr; [apply (on_success_reads _), reads_isFrozen|apply (on_success_ret _)]|];
    intros fr.
  all: apply (on_success_bind _); [|intros; apply (on_success_ret _)].
  all: destruct (_ && _); [|apply (on_success_ret _)].
  - by apply on_success_fails.
  - apply walks_each. intros k' a h1 r1 h1' o' Ha E. eapply IH; [|done]. by exists o'.
Qed.

Lemma walks_finalizeTree fuel root rootPath :
  on_success walks_around (finalizeTree this fin fuel root rootPath scope).
Proof using Type*.
  unfold finalizeTree.
  apply (on_success_bind _); [apply (on_success_reads _), reads_draft_state|]. intros state.
  apply (on_success_bind _).
  { destruct state; [|apply (on_success_ret _)].
    apply (on_success_bind _); [apply (on_success_reads _), reads_get_state|].
    intros st. apply (on_success_ret _). }
  intros root'. apply (on_success_bind _); [apply (on_success_reads _), reads_get_scope|].
  intros sc. apply (on_success_bind _); [|intros; apply (on_success_ret _)].
  apply walks_each. intros k' a h r h' o' Ha E.
  eapply walks_finalizeProperty; [|done]. by exists o'.
Qed.

End walk.

Variable this : Immer.

Lemma finalize_yields fuel v p h :
  yields_draft scope h v →
  ∃ w, finalize this fuel v p scope h = (Ok w, h) ∧ isDraft w h = (Ok true, h).
Proof.
  intros (x & stx & -> & Hx & Hr & Hcase).
  assert (live_draft h x stx) as Hl by done.
  destruct (decide (st_scope stx = scope)) as [Hsc|Hsc].
  - destruct Hcase as [?|(Hm & y & sty & Hb & Hy & Hry)]; [done|].
    exists (VObj y). split; [|by eapply isDraft_live].
    destruct fuel; cbn [finalize]; unfold bind at 1;
      rewrite (draft_state_live _ _ _ Hl); unfold bind at 1;
      rewrite (get_state_eq _ _ _ Hx);
      by rewrite bool_decide_eq_true_2, Hm, Hb.
  - exists (VObj x). split; [by eapply finalize_foreign|by eapply isDraft_live].
Qed.

Lemma draft_state_inv v h s h' :
  draft_state v h = (Ok (Some s), h') →
  v = VObj s ∧ ∃ st, live_draft h s st.
Proof.
  destruct v; try done. unfold draft_state, bind, get_cell.
  destruct (cells h !! a) as [[o|st]|] eqn:Ha; try done.
  destruct (st_revoked st) eqn:Hr; [done|]. intros [= -> _]. split; [done|]. by exists st.
Qed.

Lemma around_log_events evs h : reads_around h (log_events evs h).
Proof. apply around_scopes; [done|done|]. intros s Hs. by exists s. Qed.

Lemma walks_finalize fuel v p : on_success walks_around (finalize this fuel v p scope).
Proof.
  revert v p. induction fuel as [|f IH]; intros v p.
  - cbn [finalize].
    apply (on_success_bind _); [apply (on_success_reads _), reads_draft_state|].
    intros [s|].
    + apply (on_success_bind _); [apply (on_success_reads _), reads_get_state|]. intros st.
      destruct (negb (bool_decide _)); [apply (on_success_ret _)|].
      destruct (negb (st_modified st)); [apply (on_success_ret _)|].
      apply (on_success_bind _).
      { destruct (negb _); [by apply on_success_fails|apply (on_success_ret _)]. }
      intros _. apply (on_success_bind _); [apply (on_success_reads _), reads_get_state|].
      intros st'. apply (on_success_ret _).
    + apply (on_success_bind _); [apply (on_success_reads _), reads_isFrozen|].
      intros [|]; [apply (on_success_ret _)|by apply on_success_fails].
  - intros h a h' E. split.
    { eapply steps_disabled. by eapply finalize_steps. }
    intros Hu. revert E. cbn [finalize]. intros E.
    apply bind_ok_inv in E as (state & h0 & E0 & E).
    pose proof (reads_draft_state _ _ _ _ E0) as ->.
    destruct state as [s|].
    + apply draft_state_inv in E0 as (-> & st & Hl).
      pose proof E as E'.
      apply bind_ok_inv in E as (st0 & h0 & E0 & E).
      rewrite (get_state_eq _ _ _ (proj1 Hl)) in E0. injection E0 as <- <-.
      destruct (bool_decide (st_scope st = scope)) eqn:Hsc; cbn [negb] in E;
        [|injection E as _ <-; split; [done|by right]].
      apply bool_decide_eq_true_1 in Hsc.
      destruct (st_modified st) eqn:Hm; cbn [negb] in E;
        [|injection E as _ <-; split; [done|by right]].
      destruct (st_finalized st) eqn:Hfin; cbn [negb] in E.
      { apply bind_ok_inv in E as ([] & h0 & E0 & E). injection E0 as <-.
        apply bind_ok_inv in E as (st0 & h0 & E0 & E).
        pose proof (reads_get_state _ _ _ _ E0) as ->. injection E as _ <-.
        split; [done|by right]. }
      clear E.
      assert (finalize this (S f) (VObj s) p scope h = (Ok a, h')) as E.
      { cbn [finalize]. unfold bind at 1. rewrite (draft_state_live _ _ _ Hl). exact E'. }
      clear E'.
      destruct (finalize_stages this f s st p scope h a h' (proj1 Hu) Hl Hsc Hm Hfin E)
        as (root & h1 & st1 & sc & h4 & Etree & Hs1 & Hsame & Hf1 & Hsc1 & Hh4 & Hs4 & Hf4
            & Epatches & _ & _).
      assert (update_state s (st_set_finalized true) h
              = (Ok tt, set_cells <[s := CDraft (st_set_finalized true st)]> h)) as E1.
      { unfold update_state, bind. by rewrite (get_state_eq _ _ _ (proj1 Hl)). }
      assert (walks_around h h') as W; [|by apply W].
      etrans; [apply reads_walks; by eapply around_state, E1; apply same_state_finalized|].
      etrans; [by eapply walks_finalizeTree, Etree; [apply IH|intros; apply finalize_yields]|].
      apply reads_walks.
      trans (log_events (hooks_called this s st) h1); [apply around_log_events|].
      trans h4.
      * destruct (_ && _); [|subst h4; reflexivity].
        destruct (st_copy st) as [c'|] eqn:Hcopy; [|subst h4; reflexivity].
        destruct Hh4 as (o & Hc' & ->). eapply around_replace; [done|]. intros ->.
        destruct Hu as (_ & _ & Hall). rewrite (Hall s st) in Hfin; done || apply Hl.
      * destruct p as [q|]; [|by injection Epatches as <-].
        destruct (bool_decide _); [|by injection Epatches as <-].
        by eapply around_generatePatches.
    + apply bind_ok_inv in E as (fr & h0 & E1 & E).
      pose proof (reads_isFrozen _ _ _ _ E1) as ->.
      destruct fr; [injection E as _ <-; split; [done|by right]|].
      eapply walks_finalizeTree in E; [by apply E|apply IH|].
      intros. by apply finalize_yields.
Qed.

Lemma for_each_app_inv {A} (l1 l2 : list A) (body : A → M unit) h h' :
  for_each (l1 ++ l2) body h = (Ok tt, h') →
  ∃ hm, for_each l1 body h = (Ok tt, hm) ∧ for_each l2 body hm = (Ok tt, h').
Proof.
  revert h. induction l1 as [|x l1 IH]; intros h E; [by exists h|].
  cbn [app for_each] in *. apply bind_ok_inv in E as ([] & h1 & E1 & E).
  destruct (IH _ E) as (hm & E2 & E3). exists hm. split; [|done].
  unfold bind. by rewrite E1.
Qed.

(** The heap in which the walk of a modified draft starts: the draft has
    been marked as finalized (line 178). *)
Lemma unfrozen_copy_marked s st o h :
  fresh_heap h → cells h !! s = Some (CDraft st) →
  cells h !! c = Some (CObj o) → o_frozen o = false →
  (∀ s' st', cells h !! s' = Some (CDraft st') → st_copy st' = Some c →
             s' = s ∨ st_finalized st' = true) →
  unfrozen_copy c (set_cells <[s := CDraft (st_set_finalized true st)]> h).
Proof.
  intros Hf Hs Hc Hfr Honly. split_and!.
  - intros x Hx. cbn in *. rewrite lookup_insert_ne; [by apply Hf|].
    intros ->. rewrite Hf in Hs by done. done.
  - exists o. split; [|done]. cbn. rewrite lookup_insert_ne; [done|]. congruence.
  - intros s' st'. cbn. destruct (decide (s = s')) as [->|Hne].
    + rewrite lookup_insert_eq. by intros [= <-].
    + rewrite lookup_insert_ne by done. intros Hs' Hcopy.
      by destruct (Honly s' st' Hs' Hcopy) as [->|].
Qed.

(** A completed finalization of a copy that holds, at one of the keys
    walked, a value whose finalization gives a draft ends with
    auto-freezing switched off. *)
Lemma finalize_encloses fuel s st o path h r h' :
  fresh_heap h → live_draft h s st → st_scope st = scope →
  st_modified st = true → st_finalized st = false →
  st_draft st = s → st_copy st = Some c →
  cells h !! c = Some (CObj o) → o_frozen o = false →
  (∀ s' st', cells h !! s' = Some (CDraft st') → st_copy st' = Some c →
             s' = s ∨ st_finalized st' = true) →
  k ∈ each_keys o → yields_draft scope h (prop_value k o) →
  finalize this fuel (VObj s) path scope h = (Ok r, h') →
  disabled scope h'.
Proof.
  intros Hf Hl Hsc Hm Hfin Hdraft Hcopy Hc Hfr Honly Hk Hy E.
  destruct fuel as [|f].
  { cbn [finalize] in E. unfold bind at 1 in E. rewrite (draft_state_live _ _ _ Hl) in E.
    unfold bind at 1 in E. rewrite (get_state_eq _ _ _ (proj1 Hl)) in E.
    by rewrite Hsc, bool_decide_eq_true_2, Hm, Hfin in E. }
  destruct (finalize_stages this f s st path scope h r h' Hf Hl Hsc Hm Hfin E)
    as (root & h1 & st1 & sc & h4 & Etree & Hs1 & Hsame & Hf1 & Hsc1 & Hh4 & Hs4 & Hf4
        & Epatches & Hsteps & ->).
  pose proof (unfrozen_copy_marked _ _ _ _ Hf (proj1 Hl) Hc Hfr Honly) as Hu0.
  set (h0 := set_cells <[s := CDraft (st_set_finalized true st)]> h) in *.
  assert (cells h0 !! s = Some (CDraft (st_set_finalized true st))) as Hs0
    by (cbn; apply lookup_insert_eq).
  assert (cells h0 !! c = Some (CObj o)) as Hc0.
  { cbn. rewrite lookup_insert_ne; [done|]. destruct Hl. congruence. }
  assert (encloses scope c k h0) as He0.
  { exists o. split; [done|]. eapply yields_draft_kept; [|done].
    intros s' st' Hs'. cbn. destruct (decide (s = s')) as [->|Hne].
    - rewrite lookup_insert_eq. eexists. split; [done|].
      destruct Hl. assert (st' = st) as -> by congruence. apply same_state_finalized.
    - rewrite lookup_insert_ne by done. by exists st'. }
  assert (disabled scope h1) as (sc1 & Hsc1' & Hcaf).
  { unfold finalizeTree in Etree. rewrite Hdraft in Etree.
    apply bind_ok_inv in Etree as (state & h0' & E0 & Etree).
    rewrite (draft_state_live h0 s (st_set_finalized true st)) in E0
      by (split; [done|apply Hl]).
    injection E0 as <- <-.
    apply bind_ok_inv in Etree as (root' & h0' & E0 & Etree).
    unfold bind in E0. rewrite (get_state_eq _ _ _ Hs0) in E0. injection E0 as <- <-.
    apply bind_ok_inv in Etree as (sc0 & h0' & E0 & Etree).
    pose proof (reads_get_scope _ _ _ _ E0) as ->.
    apply bind_ok_inv in Etree as ([] & h1' & Eeach & Eret). injection Eret as _ <-.
    unfold copy_value in Eeach. cbn [st_copy st_set_finalized] in Eeach.
    rewrite Hcopy in Eeach. cbn [each] in Eeach.
    apply bind_ok_inv in Eeach as (o0 & h0' & Eo & Eeach).
    apply get_object_inv in Eo as [Ho ->].
    assert (o0 = o) as -> by congruence.
    apply list_elem_of_split in Hk as (ks1 & ks2 & Hks). rewrite Hks in Eeach.
    apply for_each_app_inv in Eeach as (ha & Ea & Eeach).
    cbn [for_each] in Eeach. apply bind_ok_inv in Eeach as ([] & hb & Eb & Eeach).
    match type of Ea with
    | for_each _ ?body _ = _ =>
        assert (∀ k', on_success walks_around (body k')) as Hbody
    end.
    { intros k' hx [] hx' Ex. apply bind_ok_inv in Ex as (o' & hx0 & Eo & Ex).
      apply get_object_inv in Eo as [Ho' ->].
      eapply walks_finalizeProperty; [apply walks_finalize| |by exists o'|done].
      intros. by apply finalize_yields. }
    apply (on_success_for_each _ _ _ Hbody) in Ea as [_ Wa].
    apply (on_success_for_each _ _ _ Hbody) in Eeach as [Db _].
    apply Db. destruct (Wa Hu0) as [Hua Hea].
    apply bind_ok_inv in Eb as (o' & hx0 & Eo & Eb).
    apply get_object_inv in Eo as [Ho' ->].
    eapply walks_finalizeProperty in Eb;
      [|apply walks_finalize|intros; by apply finalize_yields|by exists o'].
    destruct Eb as [[Dab _] Henc].
    destruct (Hea He0) as [Hd|He]; [by apply Dab|by apply Henc]. }
  assert (sc1 = sc) as -> by congruence.
  rewrite Hcaf, andb_false_r in Hh4. subst h4.
  eapply steps_disabled; [done|]. by exists sc.
Qed.

End unfrozen.

(** The copy a completed finalization returns is frozen exactly when
    [autoFreeze] is configured and the scope may still auto-freeze when the
    walk is over (lines 199-203). *)
Lemma finalize_copy_frozen this scope c fuel s st o path h r h' :
  fresh_heap h → live_draft h s st → st_scope st = scope →
  st_modified st = true → st_finalized st = false → st_copy st = Some c →
  cells h !! c = Some (CObj o) → o_frozen o = false →
  (∀ s' st', cells h !! s' = Some (CDraft st') → st_copy st' = Some c →
             s' = s ∨ st_finalized st' = true) →
  finalize this fuel (VObj s) path scope h = (Ok r, h') →
  r = VObj c ∧
  ∃ o' sc', cells h' !! c = Some (CObj o') ∧ scopes h' !! scope = Some sc' ∧
            o_frozen o' = autoFreeze this && canAutoFreeze sc'.
Proof.
  intros Hf Hl Hsc Hm Hfin Hcopy Hc Hfr Honly E.
  destruct fuel as [|f].
  { cbn [finalize] in E. unfold bind at 1 in E. rewrite (draft_state_live _ _ _ Hl) in E.
    unfold bind at 1 in E. rewrite (get_state_eq _ _ _ (proj1 Hl)) in E.
    by rewrite Hsc, bool_decide_eq_true_2, Hm, Hfin in E. }
  destruct (finalize_stages this f s st path scope h r h' Hf Hl Hsc Hm Hfin E)
    as (root & h1 & st1 & sc & h4 & Etree & Hs1 & Hsame & Hf1 & Hsc1 & Hh4 & Hs4 & Hf4
        & Epatches & Hsteps & ->).
  split; [unfold copy_value; by rewrite Hcopy|].
  pose proof (unfrozen_copy_marked _ _ _ _ _ Hf (proj1 Hl) Hc Hfr Honly) as Hu0.
  assert (unfrozen_copy c h1) as Hu1.
  { eapply (walks_finalizeTree scope c (KIdx 0)) in Etree;
      [by apply Etree|apply walks_finalize|intros; by apply finalize_yields]. }
  assert (reads_around scope c (KIdx 0) h4 h') as [Hflag Hu4].
  { destruct path as [q|]; [|by injection Epatches as <-].
    destruct (bool_decide _); [|by injection Epatches as <-].
    by eapply around_generatePatches. }
  assert (scopes h4 !! scope = Some sc) as Hsc4.
  { destruct (_ && _); [rewrite Hcopy in Hh4; destruct Hh4 as (o1 & _ & ->)|subst h4];
      done. }
  destruct (Hflag sc Hsc4) as (sc' & Hsc' & Hcaf).
  destruct (autoFreeze this && canAutoFreeze sc) eqn:Hfreeze.
  - rewrite Hcopy in Hh4. destruct Hh4 as (o1 & Hc1 & ->).
    eexists _, sc'. split_and!; [|done|].
    + eapply steps_object_frozen; [done|done| |]; [cbn; apply lookup_insert_eq|done].
    + by rewrite Hcaf, Hfreeze.
  - subst h4.
    assert (unfrozen_copy c (log_events (hooks_called this s st) h1)) as Hul
      by (by eapply unfrozen_copy_cells).
    destruct (Hu4 Hul) as [(_ & (o' & Hc' & Hfr') & _) _].
    exists o', sc'. split_and!; [done|done|]. by rewrite Hcaf, Hfreeze.
Qed.

(** An update that completes after its recipe stored a draft of another
    scope in the root draft returns the copy of the root draft, unfrozen. *)
Lemma produce_encloses this fuel base recipe listener h h2 result sts c o k d st r h' :
  draftable_in h base →
  recipe (VObj (next_addr h)) (entered base h) = (Ok (Value result), h2) →
  result = VUndefined ∨ result = VObj (next_addr h) →
  kept_root base h h2 sts →
  pending_copy (next_scope h) (ready (next_scope h) listener h2) (next_addr h) sts c o →
  k ∈ each_keys o → prop_value k o = VObj d →
  live_draft (ready (next_scope h) listener h2) d st → st_scope st ≠ next_scope h →
  produce this fuel base recipe listener h = (Ok r, h') →
  r = Value (VObj c) ∧
  ∃ o' s', cells h' !! c = Some (CObj o') ∧ scopes h' !! next_scope h = Some s' ∧
           canAutoFreeze s' = false ∧ o_frozen o' = false.
Proof.
  intros Hd Hr Hres Hk (Hf & Hls & Hscs & Hm & Hfin & Hdraft & Hcopy & Hc & Hfr & Honly)
    Hin Hv Hl Hsc E.
  destruct (kept_root_ready _ _ _ _ listener Hk) as (s & Hroot & Hlis & _).
  rewrite (produce_returned _ _ _ _ _ _ _ _ Hd Hr) in E.
  apply bind_ok_inv in E as (r0 & h3 & E & [= <- <-]).
  rewrite processResult_split in E.
  apply bind_ok_inv in E as (x & hB & Eset & Econ).
  rewrite (settle_root _ _ _ _ _ _ _ _ Hroot Hres) in Eset.
  destruct (finalize_copy_frozen _ _ _ _ _ _ _ _ _ _ _
              Hf Hls Hscs Hm Hfin Hcopy Hc Hfr Honly Eset)
    as (-> & o' & s' & Hc' & Hs' & Hfr').
  assert (disabled (next_scope h) hB) as (s2 & Hs2 & Hcaf).
  { eapply (finalize_encloses (next_scope h) c k this fuel (next_addr h) sts o (Some [])
              _ _ _ Hf Hls Hscs Hm Hfin Hdraft Hcopy Hc Hfr Honly Hin); [|exact Eset].
    rewrite Hv. exists d, st. destruct Hl. split_and!; [done..|by left]. }
  assert (s2 = s') as -> by congruence.
  rewrite (conclude_result _ _ _ _ Hs') in Econ.
  assert (r0 = VObj c ∧ h3 = notified s' (ImmerScope.revoke_heap (next_scope h) hB))
    as [-> ->].
  { destruct (patches s'); [destruct (patchListener s'); [|done]|];
      by injection Econ as <- <-. }
  split; [done|]. exists o', s'. split_and!.
  - rewrite notified_cells. by apply revoke_heap_object.
  - by rewrite notified_scopes, revoke_heap_scopes.
  - done.
  - by rewrite Hfr', Hcaf, andb_false_r.
Qed.

(** C5.  A live draft whose state belongs to another scope than the one
    being finalized is returned by [finalize] as it is, and the heap is left
    as it was: no copy, no patch, no flag.  The visit of a property that
    holds such a draft switches [canAutoFreeze] off for the scope being
    finalized, and from then on no finalization in that scope freezes
    anything, whatever [autoFreeze] says: the copies that enclose the foreign
    draft stay unfrozen.  The copy that a completed finalization of a
    modified draft returns is frozen exactly when [autoFreeze] is configured
    and the flag of the scope, read when the walk of the copy is over, is
    still on (fourth part); and when the copy holds the foreign draft at one
    of its keys, the flag is off by then, whatever it was when the
    finalization began and whatever the other properties hold: the copy is
    returned unfrozen (fifth part).  So is the result of an update whose
    recipe stored the foreign draft in the root draft (sixth part). *)
Theorem foreign_draft_kept (this : Immer) (scope : scope_id) (fuel : nat)
    (d : addr) (st : DraftState) (h : Heap) :
  live_draft h d st → st_scope st ≠ scope →
  (∀ path, finalize this fuel (VObj d) path scope h = (Ok (VObj d), h)) ∧
  (∀ fuel' state root rootPath needPatches prop parent r h',
     finalizeProperty this (finalize this fuel) fuel' state root rootPath scope
       needPatches prop (VObj d) parent h = (Ok r, h') →
     ∃ s', scopes h' !! scope = Some s' ∧ canAutoFreeze s' = false) ∧
  (∀ h1 s1 fuel1 v path r h2,
     fresh_heap h1 → scopes h1 !! scope = Some s1 → canAutoFreeze s1 = false →
     finalize this fuel1 v path scope h1 = (r, h2) →
     (∃ s2, scopes h2 !! scope = Some s2 ∧ canAutoFreeze s2 = false) ∧
     ∀ a o, cells h1 !! a = Some (CObj o) →
            ∃ o', cells h2 !! a = Some (CObj o') ∧ o_frozen o' = o_frozen o) ∧
  (∀ h1 s sts c o fuel1 path r h2,
     pending_copy scope h1 s sts c o →
     finalize this fuel1 (VObj s) path scope h1 = (Ok r, h2) →
     r = VObj c ∧
     ∃ o' s2, cells h2 !! c = Some (CObj o') ∧ scopes h2 !! scope = Some s2 ∧
              o_frozen o' = autoFreeze this && canAutoFreeze s2) ∧
  (∀ s sts c o k fuel1 path r h',
     pending_copy scope h s sts c o →
     k ∈ each_keys o → prop_value k o = VObj d →
     finalize this fuel1 (VObj s) path scope h = (Ok r, h') →
     r = VObj c ∧
     ∃ o' s', cells h' !! c = Some (CObj o') ∧ scopes h' !! scope = Some s' ∧
              canAutoFreeze s' = false ∧ o_frozen o' = false) ∧
  (∀ h0 base recipe listener h2 result sts c o k fuel1 r h',
     draftable_in h0 base →
     recipe (VObj (next_addr h0)) (entered base h0) = (Ok (Value result), h2) →
     result = VUndefined ∨ result = VObj (next_addr h0) →
     kept_root base h0 h2 sts →
     h = ready (next_scope h0) listener h2 → scope = next_scope h0 →
     pending_copy scope h (next_addr h0) sts c o →
     k ∈ each_keys o → prop_value k o = VObj d →
     produce this fuel1 base recipe listener h0 = (Ok r, h') →
     r = Value (VObj c) ∧
     ∃ o' s', cells h' !! c = Some (CObj o') ∧ scopes h' !! scope = Some s' ∧
              canAutoFreeze s' = false ∧ o_frozen o' = false).
Proof.
  intros Hl Hsc. split_and!.
  - intros path. by eapply finalize_foreign.
  - intros *. by eapply finalizeProperty_foreign.
  - intros h1 s1 fuel1 v path r h2 Hf Hs Hcaf E. apply finalize_steps in E.
    split.
    + destruct (steps_scope_kept _ _ _ _ _ _ _ E Hs) as (s2 & Hs2 & Hsame).
      exists s2. split; [done|]. by apply Hsame.
    + intros a o Ha. by eapply steps_not_frozen.
  - intros h1 s sts c o fuel1 path r h2
      (Hf & Hls & Hscs & Hm & Hfin & _ & Hcopy & Hc & Hfr & Honly) E.
    by eapply finalize_copy_frozen.
  - intros s sts c o k fuel1 path r h'
      (Hf & Hls & Hscs & Hm & Hfin & Hdraft & Hcopy & Hc & Hfr & Honly) Hk Hv E.
    destruct (finalize_copy_frozen _ _ _ _ _ _ _ _ _ _ _
                Hf Hls Hscs Hm Hfin Hcopy Hc Hfr Honly E)
      as (-> & o' & s' & Hc' & Hs' & Hfr').
    split; [done|].
    assert (disabled scope h') as (s2 & Hs2 & Hcaf).
    { eapply (finalize_encloses scope c k this fuel1 s sts o path
                _ _ _ Hf Hls Hscs Hm Hfin Hdraft Hcopy Hc Hfr Honly Hk); [|exact E].
      rewrite Hv. exists d, st. destruct Hl. split_and!; [done..|by left]. }
    assert (s2 = s') as -> by congruence.
    exists o', s'. split_and!; [done..|]. by rewrite Hfr', Hcaf, andb_false_r.
  - intros h0 base recipe listener h2 result sts c o k fuel1 r h'
      Hd Hr Hres Hk -> -> Hp Hin Hv E.
    by eapply produce_encloses.
Qed.

Lemma foreign_draft_kept_witness :
  finalize all_hooks 0 (VObj 2) (Some []) 1 drafted_heap = (Ok (VObj 2), drafted_heap) ∧
  (∃ h' o' s',
     finalize all_hooks 2 (VObj 3) None 1 enclosing_heap = (Ok (VObj 4), h') ∧
     cells h' !! (4 : addr) = Some (CObj o') ∧ scopes h' !! (1 : scope_id) = Some s' ∧
     canAutoFreeze s' = false ∧ o_frozen o' = false) ∧
  (∃ h' o' s',
     produce all_hooks 3 scenario_base (recipe_set (KStr "x") (VObj 2)) None drafted_heap
       = (Ok (Value (VObj 4)), h') ∧
     cells h' !! (4 : addr) = Some (CObj o') ∧ scopes h' !! (1 : scope_id) = Some s' ∧
     canAutoFreeze s' = false ∧ o_frozen o' = false).
Proof.
  set (st2 := State 0 false false [] None scenario_base 2 [] None Mapping false true).
  set (st3 := State 1 true false [(KStr "x", true)] None scenario_base 3 []
                    (Some 4) Mapping false false).
  set (o4 := Object CPlain [(KStr "a", Prop_ (VNumber (Fin 1)) true);
                            (KStr "b", Prop_ (VObj 0) true);
                            (KStr "x", Prop_ (VObj 2) true)] false).
  assert (pending_copy 1 enclosing_heap 3 st3 4 o4) as Hp.
  { assert (fresh_heap enclosing_heap) as Hf
      by (apply fresh_heap_check; vm_compute; reflexivity).
    split_and!; try (vm_compute; reflexivity); [done|by split|].
    intros s' st' Hs' Hcopy. left.
    destruct (decide (s' < 5)) as [Hlt|Hge];
      [|assert (cells enclosing_heap !! s' = None) as Hn
          by (apply Hf; change (5 ≤ s'); lia);
        unfold addr in *; congruence].
    destruct s' as [|[|[|[|[|s']]]]]; [..|lia]; vm_compute in Hs'; try done.
    all: injection Hs' as <-; done. }
  assert (KStr "x" ∈ each_keys o4) as Hin by (cbn; repeat constructor).
  split_and!.
  - apply (foreign_draft_kept all_hooks 1 0 2 st2 drafted_heap).
    + split; reflexivity.
    + done.
  - pose proof (foreign_draft_kept all_hooks 1 0 2 st2 enclosing_heap)
      as (_ & _ & _ & _ & H & _); [by split|done|].
    destruct (H 3 st3 4 o4 (KStr "x") 2 None (VObj 4)
                (finalize all_hooks 2 (VObj 3) None 1 enclosing_heap).2)
      as (_ & o' & s' & Hc' & Hs' & Hcaf & Hfr); [done|done|reflexivity| |].
    + vm_compute. reflexivity.
    + exists (finalize all_hooks 2 (VObj 3) None 1 enclosing_heap).2, o', s'.
      split_and!; [vm_compute; reflexivity|done..].
  - pose proof (foreign_draft_kept all_hooks 1 0 2 st2 enclosing_heap)
      as (_ & _ & _ & _ & _ & H); [by split|done|].
    set (h' := (produce all_hooks 3 scenario_base (recipe_set (KStr "x") (VObj 2)) None
                  drafted_heap).2).
    destruct (H drafted_heap scenario_base (recipe_set (KStr "x") (VObj 2)) None
                (recipe_set (KStr "x") (VObj 2) (VObj 3)
                   (entered scenario_base drafted_heap)).2
                VUndefined st3 4 o4 (KStr "x") 3 (Value (VObj 4)) h')
      as (_ & o' & s' & Hc' & Hs' & Hcaf & Hfr);
      [reflexivity|vm_compute; reflexivity|by left| |reflexivity|reflexivity
      |done|done|reflexivity|vm_compute; reflexivity|].
    + split; [by split|]. split_and!; [reflexivity..|].
      eexists. split_and!; vm_compute; reflexivity.
    + exists h', o', s'. split_and!; [vm_compute; reflexivity|done..].
Defined.
